(** * modifyPPTXGenAI.py: a shallow embedding and its verified properties

    The script cleans a presentation package (drops over-repeated media
    files, repairs the slide relationship documents), restyles text, and
    drives two external programs.  Each Python function is embedded below
    under its own name, in the order of the script; the operating system,
    the external processes and the interactive prompt appear as explicit
    parameters or inputs.  The definitions come first, then the inputs the
    properties are instantiated on, then the properties, module by
    module. *)

From Stdlib Require Import ZArith QArith List Ascii String Lia Bool.
From stdpp Require Import base option list strings gmap.

Local Open Scope Z_scope.
#[local] Set Warnings "-register-all".

(** ** Python exceptions and results *)

Module Py.

(** The exception classes the script can meet.  [KeyboardInterrupt] derives
    from [BaseException] only; all the others derive from [Exception]. *)
Inductive exn_class :=
| Exception
| FileNotFoundError
| OSError
| KeyError
| AttributeError
| ValueError
| ParseError
| EOFError
| UnicodeDecodeError
| KeyboardInterrupt.

Record exn := mk_exn { exn_cls : exn_class; exn_msg : string }.

(** [isinstance(e, Exception)], the test an [except Exception] clause makes. *)
Definition is_Exception (e : exn) : bool :=
  match exn_cls e with
  | KeyboardInterrupt => false
  | _ => true
  end.

(** A computation either returns or raises. *)
Inductive result (A : Type) :=
| Ok (a : A)
| Raise (e : exn).
Arguments Ok {A} a.
Arguments Raise {A} e.

Global Instance result_ret : MRet result := fun A a => Ok a.
Global Instance result_bind : MBind result := fun A B k m =>
  match m with
  | Ok a => k a
  | Raise e => Raise e
  end.

Definition raise {A} (c : exn_class) (msg : string) : result A :=
  Raise (mk_exn c msg).

End Py.
Export Py.

(** ** Strings

    A Python [str] is kept as its UTF-8 bytes in a [string].  Every pattern
    the script searches for is ASCII, and UTF-8 never repeats an ASCII byte
    inside a longer character, so searching bytes and searching code points
    agree. *)

Module Str.

Definition code (c : ascii) : N := N_of_ascii c.

(** [s.startswith(p)] and [s.endswith(p)]. *)
Definition startswith (s p : string) : bool := String.prefix p s.
Definition endswith (s p : string) : bool :=
  String.prefix (String.rev p) (String.rev s).

(** [p in s] for strings: [p] occurs somewhere in [s]. *)
Fixpoint contains (p s : string) : bool :=
  String.prefix p s ||
  match s with
  | EmptyString => false
  | String _ s' => contains p s'
  end.

(** [x in l] for a list of strings. *)
Definition in_list (x : string) (l : list string) : bool :=
  existsb (String.eqb x) l.

(** [s.lstrip('/')]. *)
Fixpoint lstrip_slash (s : string) : string :=
  match s with
  | String "/" s' => lstrip_slash s'
  | _ => s
  end.

(** [s.replace('../', '')]: occurrences are found left to right and do not
    overlap; what is left is not scanned again. *)
Fixpoint remove_dotdot (s : string) : string :=
  match s with
  | String "." (String "." (String "/" s')) => remove_dotdot s'
  | String c s' => String c (remove_dotdot s')
  | EmptyString => EmptyString
  end.

(** [s.replace('.rels', '')]. *)
Fixpoint remove_dot_rels (s : string) : string :=
  match s with
  | String "." (String "r" (String "e" (String "l" (String "s" s')))) =>
      remove_dot_rels s'
  | String c s' => String c (remove_dot_rels s')
  | EmptyString => EmptyString
  end.

(** The characters [str.isspace] accepts, by their UTF-8 encodings of one,
    two and three bytes: U+0009..U+000D, U+001C..U+0020; U+0085, U+00A0;
    U+1680, U+2000..U+200A, U+2028, U+2029, U+202F, U+205F, U+3000. *)
Definition space1 (a : ascii) : bool :=
  let n := code a in
  ((9 <=? n) && (n <=? 13) || (28 <=? n) && (n <=? 32))%N.

Definition space2 (a b : ascii) : bool :=
  let '(m, n) := (code a, code b) in
  ((m =? 194) && ((n =? 133) || (n =? 160)))%N.

Definition space3 (a b c : ascii) : bool :=
  let '(l, m, n) := (code a, code b, code c) in
  ((l =? 225) && (m =? 154) && (n =? 128)
   || (l =? 226) && (m =? 128)
      && ((128 <=? n) && (n <=? 138) || (n =? 168) || (n =? 169) || (n =? 175))
   || (l =? 226) && (m =? 129) && (n =? 159)
   || (l =? 227) && (m =? 128) && (n =? 128))%N.

(** Drop leading white space; [sp2] and [sp3] recognise the characters of
    two and three bytes in the order the bytes are met. *)
Fixpoint drop_space (sp2 : ascii -> ascii -> bool)
    (sp3 : ascii -> ascii -> ascii -> bool) (s : string) : string :=
  match s with
  | EmptyString => EmptyString
  | String a r =>
      if space1 a then drop_space sp2 sp3 r
      else match r with
           | EmptyString => s
           | String b r2 =>
               if sp2 a b then drop_space sp2 sp3 r2
               else match r2 with
                    | EmptyString => s
                    | String c r3 =>
                        if sp3 a b c then drop_space sp2 sp3 r3 else s
                    end
           end
  end.

Definition lstrip (s : string) : string := drop_space space2 space3 s.

(** Trailing white space is leading white space of the reversed string,
    each character's bytes met last one first. *)
Definition rstrip (s : string) : string :=
  String.rev (drop_space (fun b a => space2 a b)
                         (fun c b a => space3 a b c) (String.rev s)).

(** [s.strip()]. *)
Definition strip (s : string) : string := rstrip (lstrip s).

(** [posixpath.join(a, b)]. *)
Definition join (a b : string) : string :=
  if startswith b "/" then b
  else if String.eqb a "" || endswith a "/" then a +:+ b
  else a +:+ "/" +:+ b.

Definition join3 (a b c : string) : string := join (join a b) c.

End Str.

(** ** ascii_to_braille (lines 21-42) *)

Module Braille.

Definition bytes := list Byte.byte.

(** What [process.communicate] hands back once the child has exited. *)
Record completed := mk_completed {
  returncode : Z;
  stdout : bytes;
  stderr : bytes
}.

(** A program that may start one external process: it is finished, or it
    spawns [argv], feeds it [input] and continues with what comes back (the
    spawn itself may raise, e.g. when the program is not installed). *)
Inductive proc (A : Type) :=
| Done (r : result A)
| Popen (argv : list string) (input : bytes) (k : result completed -> proc A).
Arguments Done {A} r.
Arguments Popen {A} argv input k.

(** Run a program against an operating system [os]; the first component
    lists the processes that were started, with their standard input. *)
Fixpoint run {A} (os : list string -> bytes -> result completed)
    (p : proc A) : list (list string * bytes) * result A :=
  match p with
  | Done r => ([], r)
  | Popen argv input k =>
      let '(t, r) := run os (k (os argv input)) in ((argv, input) :: t, r)
  end.

Section Codec.

(** [bytes.decode()] accepts exactly the well-formed UTF-8 sequences. *)
Variable utf8_valid : bytes -> bool.

(** [str.encode()]: the text is already kept as its UTF-8 bytes. *)
Definition encode (s : string) : bytes := String.list_byte_of_string s.

Definition decode (b : bytes) : result string :=
  if utf8_valid b then Ok (String.string_of_list_byte b)
  else raise UnicodeDecodeError "invalid utf-8".

Definition non_translatable_chars : list string :=
  ["â–ª"; " "; "A."; "B."; "C."; "D."; "E."].

Definition lou_translate : list string := ["lou_translate"; "en-ueb-g2.ctb"].

Definition ascii_to_braille (text : string) : proc string :=
  if negb (String.eqb (Str.strip text) "")
     && Str.in_list (Str.strip text) non_translatable_chars
  then Done (Ok text)
  else
    Popen lou_translate (encode text) (fun spawned =>
      Done (process ← spawned;
            if negb (returncode process =? 0)
            then err ← decode (stderr process);
                 raise Exception ("lou_translate failed: " +:+ err)
            else decode (stdout process))).

End Codec.

(** The texts the function hands back as they are: the stripped text is
    not empty and is one of [non_translatable_chars]. *)
Definition non_translatable (text : string) : Prop :=
  Str.strip text <> "" /\ In (Str.strip text) non_translatable_chars.

End Braille.

(** ** modify_presentation_font and modify_presentation_spacing
       (lines 59-133) *)

Module Style.

(** *** The python-pptx object model, as far as the script reads it *)

(** [Pt(n)]: a length in English Metric Units. *)
Definition Pt (points : Z) : Z := points * 12700.

Definition RGBColor (r g b : Z) : Z * Z * Z := (r, g, b).

(** The character properties of a run; [None] is python-pptx's
    "inherited".  [space] is the character spacing of the run (the [spc]
    attribute of its properties), for which python-pptx's [Font] has no
    property. *)
Record Font := mk_font {
  name : option string;
  space : option Z;
  italic : option bool;
  color_rgb : option (Z * Z * Z);
  size : option Z
}.

Record Run := mk_run { text : string; font : Font }.

Record Paragraph := mk_paragraph {
  runs : list Run;
  line_spacing : option Q
}.

Record TextFrame := mk_text_frame { paragraphs : list Paragraph }.

Record Cell := mk_cell { cell_text_frame : TextFrame }.
Record Row := mk_row { cells : list Cell }.
Record Table := mk_table { rows : list Row }.

(** A shape: what [has_text_frame] and [has_table] answer for it (the
    frame or table is there exactly when the answer is yes), its
    [shape_type] (6 is a group) and, for a group, its member [shapes]. *)
Inductive Shape :=
| mk_shape (shape_id : Z) (text_frame : option TextFrame)
    (table : option Table) (shape_type : Z) (shapes : list Shape).

Definition shape_id (s : Shape) : Z :=
  match s with mk_shape i _ _ _ _ => i end.
Definition text_frame (s : Shape) : option TextFrame :=
  match s with mk_shape _ tf _ _ _ => tf end.
Definition table (s : Shape) : option Table :=
  match s with mk_shape _ _ tb _ _ => tb end.
Definition shape_type (s : Shape) : Z :=
  match s with mk_shape _ _ _ ty _ => ty end.
Definition shapes (s : Shape) : list Shape :=
  match s with mk_shape _ _ _ _ ss => ss end.

Definition has_text_frame (s : Shape) : bool := bool_decide (is_Some (text_frame s)).
Definition has_table (s : Shape) : bool := bool_decide (is_Some (table s)).

Definition set_shapes (s : Shape) (ss : list Shape) : Shape :=
  mk_shape (shape_id s) (text_frame s) (table s) (shape_type s) ss.

Record Slide := mk_slide { slide_shapes : list Shape }.

Abbreviation Presentation := (list Slide).

(** The shape tree of a slide ([p:spTree]): a group without properties of
    its own whose members are the top-level shapes. *)
Definition slide_tree (slide : Slide) : Shape :=
  mk_shape 0 None None 6 (slide_shapes slide).

(** *** Shapes by position

    The loops keep references to shapes on a list and change the shapes
    through them.  A reference is kept as the position of the shape in the
    slide: the indices that lead to it from the slide's shape tree. *)

Definition ref := list nat.

Fixpoint deref (s : Shape) (p : ref) {struct p} : option Shape :=
  match p with
  | [] => Some s
  | i :: q => c ← shapes s !! i; deref c q
  end.

(** Change in place the shape [p] refers to. *)
Fixpoint mutate (f : Shape -> Shape) (s : Shape) (p : ref) {struct p}
    : Shape :=
  match p with
  | [] => f s
  | i :: q => set_shapes s (alter (fun c => mutate f c q) i (shapes s))
  end.

(** References to the members of the shape at [p], in order. *)
Definition members (p : ref) (s : Shape) : list ref :=
  map (fun i => p ++ [i]) (seq 0 (length (shapes s))).

Fixpoint count_shapes (s : Shape) : nat :=
  match s with
  | mk_shape _ _ _ _ ss => S (list_sum (map count_shapes ss))
  end.

(** [l.pop()]: the last element comes off. *)
Definition pop {A} (l : list A) : option (list A * A) :=
  match rev l with
  | [] => None
  | x :: r => Some (rev r, x)
  end.

(** The work a list of references stands for: each reference counts for
    the shape it leads to and all that is below it. *)
Definition weight (tree : Shape) (p : ref) : nat :=
  from_option count_shapes 1%nat (deref tree p).

Definition work (st : Shape * list ref) : nat :=
  list_sum (map (weight st.1) st.2).

(** *** The traversal shared by the two functions (lines 79-104, 119-132)

    Both functions run the same loop and differ in what they do to a
    paragraph: [on_paragraph]. *)

Section Traversal.

Variable on_paragraph : Paragraph -> Paragraph.

Definition on_text_frame (tf : TextFrame) : TextFrame :=
  mk_text_frame (map on_paragraph (paragraphs tf)).

Definition on_table (t : Table) : Table :=
  mk_table (map (fun row =>
    mk_row (map (fun cell => mk_cell (on_text_frame (cell_text_frame cell)))
                (cells row))) (rows t)).

(** The two branches that write: the paragraphs of the shape's text frame,
    and the paragraphs of every cell of its table. *)
Definition write_text_frame (s : Shape) : Shape :=
  mk_shape (shape_id s) (on_text_frame <$> text_frame s) (table s)
           (shape_type s) (shapes s).

Definition write_table (s : Shape) : Shape :=
  mk_shape (shape_id s) (text_frame s) (on_table <$> table s)
           (shape_type s) (shapes s).

(** One turn of [while shapes_to_process:]; [None] when the list is
    empty.  A reference on the list always leads to a shape; the model
    drops one that would not. *)
Definition step (st : Shape * list ref) : option (Shape * list ref) :=
  let '(tree, shapes_to_process) := st in
  match pop shapes_to_process with
  | None => None
  | Some (rest, p) =>
      match deref tree p with
      | None => Some (tree, rest)
      | Some shape =>
          if has_text_frame shape then
            Some (mutate write_text_frame tree p, rest)
          else if has_table shape then
            Some (mutate write_table tree p, rest)
          else if shape_type shape =? 6 then
            Some (tree, rest ++ members p shape)
          else Some (tree, rest)
      end
  end.

(** The [while] loop, run for at most [fuel] turns. *)
Fixpoint while_loop (fuel : nat) (st : Shape * list ref) : Shape * list ref :=
  match fuel with
  | O => st
  | S n =>
      match step st with
      | None => st
      | Some st' => while_loop n st'
      end
  end.

(** The body of [for slide in presentation.slides]: the slide's shape
    tree is a group that holds the top-level shapes, and
    [list(slide.shapes)] refers to its members.  A turn of the loop takes
    at least one shape off the work still to do, so as many turns as the
    slide has shapes are enough ([while_loop_finishes] below). *)
Definition process_slide (slide : Slide) : Slide :=
  let tree := slide_tree slide in
  let shapes_to_process := members [] tree in
  mk_slide (shapes (while_loop (count_shapes tree) (tree, shapes_to_process)).1).

(** What the loop amounts to, by recursion on the shape: the same three
    branches, a group handing each member to the same treatment. *)
Fixpoint restyle (s : Shape) : Shape :=
  match s with
  | mk_shape i tf tb ty ss =>
      match tf with
      | Some _ => write_text_frame s
      | None =>
          match tb with
          | Some _ => write_table s
          | None => if ty =? 6 then mk_shape i tf tb ty (map restyle ss) else s
          end
      end
  end.

(** The tree once every shape on the list has had its treatment, the last
    of the list first. *)
Definition pending (st : Shape * list ref) : Shape :=
  foldr (fun p tree => mutate restyle tree p) st.1 st.2.

End Traversal.

(** *** Assignments that raise

    [run.font.size = ...] and [paragraph.line_spacing = ...] check what
    they are given before they store it and raise [ValueError] for a value
    out of range; the function then ends with that exception.  What is
    checked is the value, so a treatment is given by what it makes of a
    paragraph when nothing raises, [on_paragraph] as above, and by what it
    raises at a paragraph, [raises]. *)

(** The paragraphs of a table in the order of the loops over rows and
    cells. *)
Definition cell_paragraphs (t : Table) : list Paragraph :=
  flat_map (fun row =>
    flat_map (fun cell => paragraphs (cell_text_frame cell)) (cells row))
    (rows t).

Section Validation.

Variable on_paragraph : Paragraph -> Paragraph.
Variable raises : Paragraph -> option exn.

(** What [for paragraph in paragraphs:] raises: the exception of the
    first paragraph that has one. *)
Fixpoint first_raise (ps : list Paragraph) : option exn :=
  match ps with
  | [] => None
  | paragraph :: rest =>
      match raises paragraph with
      | Some e => Some e
      | None => first_raise rest
      end
  end.

(** What the turn to come of [while shapes_to_process:] raises: in the
    first branch the loop over the paragraphs of the text frame, in the
    second the loops over the cells of the table; the third branch and a
    shape of no branch assign nothing. *)
Definition turn_raises (st : Shape * list ref) : option exn :=
  let '(tree, shapes_to_process) := st in
  match pop shapes_to_process with
  | None => None
  | Some (_, p) =>
      match deref tree p with
      | None => None
      | Some shape =>
          if has_text_frame shape then
            tf ← text_frame shape; first_raise (paragraphs tf)
          else if has_table shape then
            t ← table shape; first_raise (cell_paragraphs t)
          else None
      end
  end.

(** The [while] loop with its exceptions, run for at most [fuel] turns: a
    turn that raises ends the loop, any other is a [step]. *)
Fixpoint while_loop_checked (fuel : nat) (st : Shape * list ref)
    : result (Shape * list ref) :=
  match fuel with
  | O => Ok st
  | S n =>
      match turn_raises st with
      | Some e => Raise e
      | None =>
          match step on_paragraph st with
          | None => Ok st
          | Some st' => while_loop_checked n st'
          end
      end
  end.

(** The body of [for slide in presentation.slides], with its exceptions;
    the turns are those of [process_slide]. *)
Definition process_slide_checked (slide : Slide) : result Slide :=
  let tree := slide_tree slide in
  st ← while_loop_checked (count_shapes tree) (tree, members [] tree);
  Ok (mk_slide (shapes st.1)).

(** [for slide in presentation.slides]: slide after slide, up to the
    first exception. *)
Definition for_slides (presentation : Presentation) : result Presentation :=
  mapM process_slide_checked presentation.

End Validation.

(** *** modify_presentation_font *)

(** The prompt of lines 71-77 against the lines typed on standard input:
    [input] returns the next line, and raises [EOFError] when there is
    none.  An answer other than yes and no is asked again. *)
Fixpoint ask_change_font_size (stdin : list string) : result bool :=
  match stdin with
  | [] => raise EOFError "EOF when reading a line"
  | answer :: rest =>
      if Str.in_list answer ["yes"; "no"] then Ok (String.eqb answer "yes")
      else ask_change_font_size rest
  end.

(** [run.font.size = Pt(font_size)]: python-pptx keeps the size in
    hundredths of a point ([Pt(n)] is [n * 12700] EMU and a hundredth of a
    point is 127 EMU) and takes 100 to 400000 of them, 1 pt to 4000 pt;
    for any other size the assignment raises [ValueError] (the message
    goes on with the value). *)
Definition font_size_error (font_size : Z) : option exn :=
  let centipoints := Pt font_size / 127 in
  if (100 <=? centipoints) && (centipoints <=? 400000) then None
  else Some (mk_exn ValueError
               "value must be in range 100 to 400000 inclusive").

(** Lines 86-91 (and 97-102): the assignments to [run.font], when none
    raises.  [run.font] is a new [Font] object each time it is read, and
    python-pptx's [Font] has no property [space]:
    [run.font.space = Pt(spacing_size)] sets an attribute of that object,
    which is dropped with it, and the run keeps the character spacing it
    had. *)
Definition set_run_font (font_name : string) (font_size spacing_size : Z)
    (change_font_size : bool) (run : Run) : Run :=
  mk_run (text run)
    (mk_font (Some font_name)
             (space (font run))
             (Some false)
             (Some (RGBColor 0 0 0))
             (if change_font_size then Some (Pt font_size)
              else size (font run))).

(** What the loop over the runs of a paragraph raises: the assignment of
    the size in the first run, when the size is to be changed and is out
    of range. *)
Definition font_raises (font_size : Z) (change_font_size : bool)
    (paragraph : Paragraph) : option exn :=
  match runs paragraph with
  | [] => None
  | _ :: _ => if change_font_size then font_size_error font_size else None
  end.

Definition font_paragraph (font_name : string) (font_size spacing_size : Z)
    (change_font_size : bool) (paragraph : Paragraph) : Paragraph :=
  mk_paragraph
    (map (set_run_font font_name font_size spacing_size change_font_size)
         (runs paragraph))
    (line_spacing paragraph).

(** [spacing_size] defaults to 50 in the script. *)
Definition modify_presentation_font (presentation : Presentation)
    (font_name : string) (font_size spacing_size : Z) (stdin : list string)
    : result Presentation :=
  change_font_size ← ask_change_font_size stdin;
  for_slides
    (font_paragraph font_name font_size spacing_size change_font_size)
    (font_raises font_size change_font_size)
    presentation.

(** *** modify_presentation_spacing *)

(** [paragraph.line_spacing = value] for a number (not a [Length]; [main]
    passes 1.2): python-pptx takes 0 to 132 and raises [ValueError] for
    any other value (the message goes on with the value). *)
Definition line_spacing_error (line_spacing_value : Q) : option exn :=
  if Qle_bool 0 line_spacing_value && Qle_bool line_spacing_value 132
  then None
  else Some (mk_exn ValueError
               "value must be in range 0.0 to 132.0 inclusive").

(** The paragraph with its line spacing set, as it is read back. *)
Definition spacing_paragraph (line_spacing_value : Q) (paragraph : Paragraph)
    : Paragraph :=
  mk_paragraph (runs paragraph) (Some line_spacing_value).

Section Spacing.

(** What [paragraph.line_spacing] reads after [value] has been assigned:
    python-pptx keeps the number as a whole number of hundred-thousandths
    (the [val] of [a:spcPct]), so what is read is [value] to five
    decimals. *)
Variable stored : Q -> Q.

Definition modify_presentation_spacing (presentation : Presentation)
    (line_spacing_value : Q) : result Presentation :=
  for_slides
    (spacing_paragraph (stored line_spacing_value))
    (fun _ => line_spacing_error line_spacing_value)
    presentation.

End Spacing.

(** *** What the properties below speak of *)

(** The shape at a position of a slide. *)
Definition shape_at (slide : Slide) (p : ref) : option Shape :=
  match p with
  | [] => None
  | _ => deref (slide_tree slide) p
  end.

(** Every run of a text frame, of a table, and of a shape with all that
    is below it. *)
Definition text_frame_runs (tf : TextFrame) : list Run :=
  flat_map runs (paragraphs tf).

Definition table_runs (t : Table) : list Run :=
  flat_map (fun row =>
    flat_map (fun cell => text_frame_runs (cell_text_frame cell)) (cells row))
    (rows t).

Fixpoint shape_runs (s : Shape) : list Run :=
  match s with
  | mk_shape _ tf tb _ ss =>
      from_option text_frame_runs [] tf ++ from_option table_runs [] tb
      ++ flat_map shape_runs ss
  end.

Definition presentation_runs (presentation : Presentation) : list Run :=
  flat_map (fun slide => flat_map shape_runs (slide_shapes slide)) presentation.

(** The paragraphs the loop comes to in a shape: those of its text frame,
    else those of its table, else, in a group, those it comes to in the
    members. *)
Fixpoint reached_paragraphs (s : Shape) : list Paragraph :=
  match s with
  | mk_shape _ tf tb ty ss =>
      match tf with
      | Some tf => paragraphs tf
      | None =>
          match tb with
          | Some t => cell_paragraphs t
          | None => if ty =? 6 then flat_map reached_paragraphs ss else []
          end
      end
  end.

(** Some paragraph the loop comes to raises. *)
Definition raising (raises : Paragraph -> option exn) (paragraph : Paragraph)
    : bool :=
  bool_decide (is_Some (raises paragraph)).

Definition shape_raises (raises : Paragraph -> option exn) (s : Shape) : bool :=
  existsb (raising raises) (reached_paragraphs s).

Definition presentation_raises (raises : Paragraph -> option exn)
    (presentation : Presentation) : bool :=
  existsb (fun slide => existsb (shape_raises raises) (slide_shapes slide))
          presentation.

(** The shapes python-pptx hands out: one with a text frame is no table
    and no group, one with a table is no group, and only a group
    ([shape_type] 6) has members. *)
Fixpoint well_formed (s : Shape) : bool :=
  match s with
  | mk_shape _ tf tb ty ss =>
      match tf, tb, ss with
      | Some _, None, [] => true
      | None, Some _, [] => true
      | None, None, [] => true
      | None, None, _ :: _ => (ty =? 6) && forallb well_formed ss
      | _, _, _ => false
      end
  end.

Definition well_formed_presentation (presentation : Presentation) : bool :=
  forallb (fun slide => forallb well_formed (slide_shapes slide)) presentation.

(** The shape is neither a text frame nor a table, and is a group. *)
Definition is_group (s : Shape) : Prop :=
  has_text_frame s = false /\ has_table s = false /\ shape_type s = 6.

(** Everything above position [p] is a group: the position is one the
    loop comes to. *)
Fixpoint groups_above (s : Shape) (p : ref) {struct p} : Prop :=
  match p with
  | [] => True
  | i :: q =>
      is_group s /\
      match shapes s !! i with
      | Some c => groups_above c q
      | None => True
      end
  end.

(** What a pass with [on_paragraph] may do to a shape that has neither a
    text frame nor a table: nothing if it is no group; if it is one, its
    own properties stay, and where the loop comes to it, its members have
    had the treatment of the pass. *)
Definition kept_as_is (on_paragraph : Paragraph -> Paragraph)
    (reached : Prop) (shape shape' : Shape) : Prop :=
  (shape_type shape <> 6 -> shape' = shape)
  /\ (shape_type shape = 6 ->
        shape_id shape' = shape_id shape
        /\ text_frame shape' = None /\ table shape' = None
        /\ shape_type shape' = 6
        /\ length (shapes shape') = length (shapes shape)
        /\ (reached ->
              shapes shape' = map (restyle on_paragraph) (shapes shape))).

(** The frame of a pass from [presentation] to [presentation']: every
    shape without text frame and table, at any position of any slide, is
    found at the same position afterwards, kept as it is. *)
Definition frame (on_paragraph : Paragraph -> Paragraph)
    (presentation presentation' : Presentation) : Prop :=
  forall k slide p shape,
    presentation !! k = Some slide ->
    shape_at slide p = Some shape ->
    has_text_frame shape = false -> has_table shape = false ->
    exists slide' shape',
      presentation' !! k = Some slide'
      /\ shape_at slide' p = Some shape'
      /\ kept_as_is on_paragraph (groups_above (slide_tree slide) p)
           shape shape'.

End Style.

(** ** remove_repetitive_images (lines 160-193) *)

Module Pruner.

Section Media.

(** The media directory as the operating system shows it: [os.path.isfile]
    and the SHA-1 digest [hash_file] computes, both by path. *)
Variable isfile : string -> bool.
Variable hash_file : string -> string.

(** [file_hashes[k].append(v)] on a [defaultdict(list)]; a Python dict is
    iterated in the order its keys were first inserted. *)
Fixpoint dict_append (k v : string) (d : list (string * list string))
    : list (string * list string) :=
  match d with
  | [] => [(k, [v])]
  | (k', vs) :: d' =>
      if String.eqb k' k then (k', vs ++ [v]) :: d'
      else (k', vs) :: dict_append k v d'
  end.

(** The two dictionaries of the first loop: [hash_counts], a
    [defaultdict(int)], and [file_hashes]. *)
Definition tables : Type := gmap string nat * list (string * list string).

(** [hash_counts[h]]: a missing key reads as 0. *)
Definition count_of (hash_counts : gmap string nat) (h : string) : nat :=
  default 0%nat (hash_counts !! h).

(** One turn of the loop over [os.listdir(image_dir)] (lines 180-185). *)
Definition scan_file (image_dir : string) (t : tables) (filename : string)
    : tables :=
  let file_path := Str.join image_dir filename in
  if isfile file_path then
    let file_hash := hash_file file_path in
    (<[file_hash := S (count_of t.1 file_hash)]> t.1,
     dict_append file_hash file_path t.2)
  else t.

Definition scan (image_dir : string) (listing : list string) : tables :=
  fold_left (scan_file image_dir) listing (∅, []).

(** [0.8 * num_slides].  The script computes it in double precision; the
    nearest double to 0.8 is 0.8 * (1 + 2^-54), so for any slide count
    below 2^50 the product rounds to a value that lies on the same side of
    every integer as the exact 4N/5, and the comparison with the integer
    count is the exact one taken here over the rationals. *)
Definition threshold (num_slides : nat) : Q :=
  (8 # 10) * inject_Z (Z.of_nat num_slides).

(** [count > threshold]. *)
Definition exceeds (count : nat) (t : Q) : bool :=
  negb (Qle_bool (inject_Z (Z.of_nat count)) t).

(** The function proper: [num_slides] is [len(prs.slides)] and [listing]
    is [os.listdir(image_dir)].  The value is the list of paths handed to
    [os.remove], in the order of the calls. *)
Definition remove_repetitive_images (num_slides : nat) (image_dir : string)
    (listing : list string) : list string :=
  let '(hash_counts, file_hashes) := scan image_dir listing in
  flat_map
    (fun '(file_hash, files) =>
       if exceeds (count_of hash_counts file_hash) (threshold num_slides)
       then files else [])
    file_hashes.

(** The regular files of the listing whose digest is [h], and how many
    there are: the hash group of [h]. *)
Definition group (image_dir : string) (listing : list string) (h : string)
    : list string :=
  filter (fun p => isfile p = true /\ hash_file p = h)
         (map (Str.join image_dir) listing).

Definition group_size (image_dir : string) (listing : list string)
    (h : string) : nat :=
  length (group image_dir listing h).

End Media.

End Pruner.

(** ** clean_pptx (lines 196-264) *)

Module Repair.

(** *** xml.etree.ElementTree *)

(** An element: its tag in Clark notation ([{namespace}local]), its
    attribute dictionary and its children in document order. *)
Inductive Element :=
| Elem (tag : string) (attrib : gmap string string) (children : list Element).

Definition tag (e : Element) : string :=
  match e with Elem t _ _ => t end.
Definition attrib (e : Element) : gmap string string :=
  match e with Elem _ a _ => a end.
Definition children (e : Element) : list Element :=
  match e with Elem _ _ cs => cs end.

(** [e.attrib[key]]. *)
Definition attrib_get (e : Element) (key : string) : result string :=
  match attrib e !! key with
  | Some v => Ok v
  | None => raise KeyError key
  end.

(** [e.findall('ns:name')]: the children with that tag, as a new list. *)
Definition findall_children (t : string) (e : Element) : list Element :=
  List.filter (fun c => String.eqb (tag c) t) (children e).

(** All elements below [e], in document order. *)
Fixpoint descendants (e : Element) : list Element :=
  match e with
  | Elem _ _ cs => flat_map (fun c => c :: descendants c) cs
  end.

(** [e.findall('.//ns:name')] and [e.find('.//ns:name')]. *)
Definition findall_below (t : string) (e : Element) : list Element :=
  List.filter (fun c => String.eqb (tag c) t) (descendants e).

Definition find_below (t : string) (e : Element) : option Element :=
  head (findall_below t e).

Fixpoint Element_eqb (a b : Element) : bool :=
  match a, b with
  | Elem t1 a1 c1, Elem t2 a2 c2 =>
      String.eqb t1 t2 && bool_decide (a1 = a2) &&
      (fix all2 (l1 l2 : list Element) : bool :=
         match l1, l2 with
         | [], [] => true
         | x :: l1', y :: l2' => Element_eqb x y && all2 l1' l2'
         | _, _ => false
         end) c1 c2
  end.

(** [parent.remove(child)]: [ValueError] when it is not a child. *)
Fixpoint remove_first (child : Element) (cs : list Element)
    : option (list Element) :=
  match cs with
  | [] => None
  | c :: cs' =>
      if Element_eqb c child then Some cs'
      else (fun r => c :: r) <$> remove_first child cs'
  end.

Definition Element_remove (parent child : Element) : result Element :=
  match remove_first child (children parent) with
  | Some cs => Ok (Elem (tag parent) (attrib parent) cs)
  | None => raise ValueError "list.remove(x): x not in list"
  end.

(** [e.getparent()].  The script imports [xml.etree.ElementTree], whose
    [Element] has no such method (it is lxml's): looking the attribute up
    raises [AttributeError]. *)
Definition getparent (e : Element) : result Element :=
  raise AttributeError
    "'xml.etree.ElementTree.Element' object has no attribute 'getparent'".

(** *** The unpacked package *)

(** What [ET.parse] makes of a directory entry: a document, or something
    it cannot read. *)
Inductive File :=
| Xml (root : Element)
| Unreadable.

(** The two directories the loop works in: [ppt/slides/_rels], in the
    order [os.listdir] gives its entries, and [ppt/slides]. *)
Record Package := mk_package {
  rels_dir : list (string * File);
  slides_dir : gmap string File
}.

Definition parse (path : string) (f : option File) : result Element :=
  match f with
  | Some (Xml root) => Ok root
  | Some Unreadable => raise ParseError path
  | None => raise FileNotFoundError path
  end.

Definition temp_dir : string := "temp_pptx".

Definition Relationship_tag : string :=
  "{http://schemas.openxmlformats.org/package/2006/relationships}Relationship".
Definition pic_tag : string :=
  "{http://schemas.openxmlformats.org/presentationml/2006/main}pic".
Definition blip_tag : string :=
  "{http://schemas.openxmlformats.org/drawingml/2006/main}blip".
Definition embed : string :=
  "{http://schemas.openxmlformats.org/officeDocument/2006/relationships}embed".

(** Line 240: where the script looks for the target of a relationship. *)
Definition image_path (target : string) : string :=
  Str.remove_dotdot (Str.join3 temp_dir "ppt" (Str.lstrip_slash target)).

Section Disk.

(** [os.path.exists] on the working directory as [remove_repetitive_images]
    left it; the loop creates and deletes no file. *)
Variable path_exists : string -> bool.

(** Lines 236-244 over the children of the relationships root.  [findall]
    returns a list of its own, so removing from the root does not disturb
    the iteration, and [root.remove] takes out the very element at hand:
    the children that stay are those the loop passed over, in order.  The
    value is [removed_ids] and the children left. *)
Fixpoint repair_relationships (cs : list Element)
    : result (list string * list Element) :=
  match cs with
  | [] => Ok ([], [])
  | relationship :: rest =>
      if String.eqb (tag relationship) Relationship_tag then
        type ← attrib_get relationship "Type";
        if Str.contains "image" type then
          target ← attrib_get relationship "Target";
          if negb (path_exists (image_path target)) then
            id ← attrib_get relationship "Id";
            '(removed_ids, kept) ← repair_relationships rest;
            Ok (id :: removed_ids, kept)
          else
            '(removed_ids, kept) ← repair_relationships rest;
            Ok (removed_ids, relationship :: kept)
        else
          '(removed_ids, kept) ← repair_relationships rest;
          Ok (removed_ids, relationship :: kept)
      else
        '(removed_ids, kept) ← repair_relationships rest;
        Ok (removed_ids, relationship :: kept)
  end.

(** Lines 252-255 over [slide_root.findall('.//p:pic')].  Removing a
    picture starts with [pic.getparent()], which raises, so the loop ends
    without having changed the slide, or does not end normally. *)
Fixpoint remove_pics (removed_ids : list string) (pics : list Element)
    : result unit :=
  match pics with
  | [] => Ok tt
  | pic :: rest =>
      match find_below blip_tag pic with
      | None => remove_pics removed_ids rest
      | Some blip =>
          id ← attrib_get blip embed;
          if Str.in_list id removed_ids then
            parent ← getparent pic;
            _ ← Element_remove parent pic;
            remove_pics removed_ids rest
          else remove_pics removed_ids rest
      end
  end.

(** One turn of the loop over the relationship files (lines 229-257): the
    entry of [_rels] at hand, and the slide documents, which are carried
    along.  Both documents are written back where they were read. *)
Definition repair_file (slides : gmap string File) (entry : string * File)
    : result ((string * File) * gmap string File) :=
  let '(rels_file, content) := entry in
  if negb (Str.endswith rels_file ".rels") then Ok (entry, slides)
  else
    root ← parse rels_file (Some content);
    '(removed_ids, kept) ← repair_relationships (children root);
    let root := Elem (tag root) (attrib root) kept in
    let slide_file := Str.remove_dot_rels rels_file in
    slide_root ← parse slide_file (slides !! slide_file);
    _ ← remove_pics removed_ids (findall_below pic_tag slide_root);
    Ok ((rels_file, Xml root), <[slide_file := Xml slide_root]> slides).

Fixpoint repair_files (slides : gmap string File)
    (entries : list (string * File))
    : result (list (string * File) * gmap string File) :=
  match entries with
  | [] => Ok ([], slides)
  | entry :: rest =>
      '(entry, slides) ← repair_file slides entry;
      '(rest, slides) ← repair_files slides rest;
      Ok (entry :: rest, slides)
  end.

(** The repair pass: the [for rels_file in os.listdir(...)] loop. *)
Definition reference_repair (package : Package) : result Package :=
  '(rels, slides) ← repair_files (slides_dir package) (rels_dir package);
  Ok (mk_package rels slides).

(** [clean_pptx], from the check of line 211 to the end of the loop.
    [package] is the working directory once the archive is unpacked and
    [remove_repetitive_images] has run; what comes after the loop packs
    the directory again and changes no document. *)
Definition clean_pptx (pptx_exists : bool) (pptx_path : string)
    (package : Package) : result Package :=
  if negb pptx_exists then
    raise FileNotFoundError
      ("The specified PPTX file does not exist: " +:+ pptx_path)
  else reference_repair package.

(** What lines 238-244 decide for one child of the relationships root:
    keep it ([None]), or remove it and record its id. *)
Definition verdict (c : Element) : result (option string) :=
  if String.eqb (tag c) Relationship_tag then
    type ← attrib_get c "Type";
    if Str.contains "image" type then
      target ← attrib_get c "Target";
      if negb (path_exists (image_path target)) then
        id ← attrib_get c "Id"; Ok (Some id)
      else Ok None
    else Ok None
  else Ok None.

(** A relationship that needs no repair: if it is of an image type, its
    target is found on disk where the script looks for it. *)
Definition resolves (relationship : Element) : Prop :=
  forall type, attrib relationship !! "Type" = Some type ->
    Str.contains "image" type = true ->
    exists target, attrib relationship !! "Target" = Some target
                   /\ path_exists (image_path target) = true.

(** How one turn of the outer loop relates an entry of [_rels] to what is
    written back, for the slide documents [slides]. *)
Definition repaired (slides : gmap string File) (entry entry' : string * File)
    : Prop :=
  entry'.1 = entry.1
  /\ ((Str.endswith entry.1 ".rels" = false /\ entry'.2 = entry.2)
      \/ (Str.endswith entry.1 ".rels" = true
          /\ exists root removed_ids kept slide_root,
               entry.2 = Xml root
               /\ repair_relationships (children root) = Ok (removed_ids, kept)
               /\ entry'.2 = Xml (Elem (tag root) (attrib root) kept)
               /\ slides !! Str.remove_dot_rels entry.1 = Some (Xml slide_root)
               /\ remove_pics removed_ids (findall_below pic_tag slide_root)
                  = Ok tt)).

(** The [Id]s of the relationships of a relationships document. *)
Definition relationship_ids (root : Element) : list string :=
  omap (fun r => attrib r !! "Id") (findall_children Relationship_tag root).

(** The relationship id a picture element refers to: the [embed]
    attribute of the first [blip] below it. *)
Definition pic_embed (pic : Element) : option string :=
  blip ← find_below blip_tag pic; attrib blip !! embed.

End Disk.

End Repair.

(** ** convert_pptx_to_pdf (lines 374-390) *)

Module Pdf.

Section Conversion.

Variable path_exists : string -> bool.
(** [os.path.splitext(p)[0]] and [os.path.dirname]. *)
Variable splitext_root : string -> string.
Variable dirname : string -> string.
(** [subprocess.run(argv)] without [check]: it returns the exit status of
    the child, whatever it is, or raises (the program cannot be started,
    the user interrupts). *)
Variable subprocess_run : list string -> result Z.

(** The command of line 387. *)
Definition libreoffice (pptx_file output_pdf : string) : list string :=
  ["libreoffice"; "--headless"; "--convert-to"; "pdf"; pptx_file;
   "--outdir"; dirname output_pdf].

(** The lines printed, and the outcome. *)
Definition convert_pptx_to_pdf (pptx_file : string)
    : list string * result unit :=
  let output_pdf := splitext_root pptx_file +:+ ".pdf" in
  if negb (path_exists pptx_file) then
    ([], raise FileNotFoundError
           ("The specified PPTX file does not exist: " +:+ pptx_file))
  else
    match subprocess_run (libreoffice pptx_file output_pdf) with
    | Ok _ =>
        (["File converted successfully. Saved as " +:+ output_pdf +:+ "."],
         Ok tt)
    | Raise error =>
        if is_Exception error then
          (["An error occurred during file conversion: " +:+ exn_msg error],
           Ok tt)
        else ([], Raise error)
    end.

End Conversion.

End Pdf.


(** ** hash_file (lines 45-56) *)

Module Hash.

Abbreviation bytes := (list Byte.byte).

(** [BUF_SIZE = 65536]. *)
Definition BUF_SIZE : nat := Z.to_nat 65536.

(** [f.read(n)] on a regular file opened in binary mode: the next [n]
    bytes, fewer at the end of the file and none after it.  The file
    object is kept as the bytes not read yet. *)
Definition read (n : nat) (f : bytes) : bytes * bytes := (take n f, drop n f).

Section Sha1.

(** [hashlib.sha1()]: a fresh hash object, [update] and [hexdigest]. *)
Variable sha1_state : Type.
Variable sha1 : sha1_state.
Variable update : sha1_state -> bytes -> sha1_state.
Variable hexdigest : sha1_state -> string.

(** The [while True] loop, run for at most [fuel] turns; it is left by
    [break] when [read] returns nothing. *)
Fixpoint read_loop (buf_size fuel : nat) (state : sha1_state) (f : bytes)
    : sha1_state * bytes :=
  match fuel with
  | O => (state, f)
  | S fuel' =>
      let '(data, f') := read buf_size f in
      match data with
      | [] => (state, f')
      | _ :: _ => read_loop buf_size fuel' (update state data) f'
      end
  end.

(** [open_] is [open(filepath, 'rb')]: the content of the file, or the
    error of the operating system.  A turn of the loop reads at least one
    byte, so one turn more than the file has bytes is enough. *)
Definition hash_file (open_ : string -> result bytes) (filepath : string)
    : result string :=
  content ← open_ filepath;
  Ok (hexdigest (read_loop BUF_SIZE (S (length content)) sha1 content).1).

End Sha1.

End Hash.

(** ** contract_braille (lines 136-157) *)

Module Contract.
Import Braille Style.

(** Doing one thing after another, for programs that start processes. *)
Fixpoint then_ {A B} (p : proc A) (k : A -> proc B) : proc B :=
  match p with
  | Done (Ok a) => k a
  | Done (Raise e) => Done (Raise e)
  | Popen argv input c => Popen argv input (fun answer => then_ (c answer) k)
  end.

(** A [for] loop whose body prints lines and changes the element at hand;
    the lines printed come first in the value.  (When the loop is left by
    an exception the lines printed so far are not kept.) *)
Fixpoint for_each {A B} (body : A -> proc (list string * B)) (l : list A)
    : proc (list string * list B) :=
  match l with
  | [] => Done (Ok ([], []))
  | x :: rest =>
      then_ (body x) (fun '(lines, y) =>
      then_ (for_each body rest) (fun '(more, ys) =>
      Done (Ok (lines ++ more, y :: ys))))
  end.

Section Codec.

Variable utf8_valid : bytes -> bool.
Variable verbose : bool.

(** Lines 152-156, for one run. *)
Definition contract_run (run : Run) : proc (list string * Run) :=
  then_ (ascii_to_braille utf8_valid (text run)) (fun braille =>
  Done (Ok ((if verbose
             then ["Original: " +:+ text run; "Modified: " +:+ braille]
             else []),
            mk_run braille (font run)))).

Definition contract_paragraph (paragraph : Paragraph)
    : proc (list string * Paragraph) :=
  then_ (for_each contract_run (runs paragraph)) (fun '(lines, rs) =>
  Done (Ok (lines, mk_paragraph rs (line_spacing paragraph)))).

(** Lines 149-156, for one shape of [slide.shapes]. *)
Definition contract_shape (shape : Shape) : proc (list string * Shape) :=
  if has_text_frame shape then
    match text_frame shape with
    | Some tf =>
        then_ (for_each contract_paragraph (paragraphs tf))
          (fun '(lines, ps) =>
             Done (Ok (lines,
                       mk_shape (shape_id shape) (Some (mk_text_frame ps))
                         (table shape) (shape_type shape) (shapes shape))))
    | None => Done (Ok ([], shape))
    end
  else Done (Ok ([], shape)).

Definition contract_slide (slide : Slide) : proc (list string * Slide) :=
  then_ (for_each contract_shape (slide_shapes slide)) (fun '(lines, ss) =>
  Done (Ok (lines, mk_slide ss))).

(** The lines printed, and the presentation. *)
Definition contract_braille (presentation : Presentation)
    : proc (list string * Presentation) :=
  for_each contract_slide presentation.

(** The guard of line 32 of [ascii_to_braille], negated: the text goes to
    the translator. *)
Definition translated_text (text : string) : bool :=
  negb (negb (String.eqb (Str.strip text) "")
        && Str.in_list (Str.strip text) non_translatable_chars).

End Codec.

(** The texts of the runs the function comes to: those of the text frames
    of the top-level shapes, in document order. *)
Definition top_level_runs (presentation : Presentation) : list Run :=
  flat_map (fun slide =>
    flat_map (fun shape => from_option text_frame_runs [] (text_frame shape))
             (slide_shapes slide)) presentation.

(** The presentation with [braille] put for the text of those runs. *)
Definition with_texts (braille : string -> string) (presentation : Presentation)
    : Presentation :=
  map (fun slide =>
    mk_slide (map (fun shape =>
      mk_shape (shape_id shape)
        ((fun tf => mk_text_frame (map (fun paragraph =>
            mk_paragraph
              (map (fun run => mk_run (braille (text run)) (font run))
                   (runs paragraph))
              (line_spacing paragraph)) (paragraphs tf))) <$> text_frame shape)
        (table shape) (shape_type shape) (shapes shape))
      (slide_shapes slide))) presentation.

(** What a text becomes: the answer of [ascii_to_braille] when it
    returns. *)
Definition braille_of (utf8_valid : bytes -> bool)
    (os : list string -> bytes -> result completed) (text : string) : string :=
  match (run os (ascii_to_braille utf8_valid text)).2 with
  | Ok braille => braille
  | Raise _ => text
  end.

End Contract.

(** ** extract_images_from_pptx (lines 359-371) *)

Module Images.
Import Style.

(** The function returns, raises an exception, or fails on a global name
    that nothing defines. *)
Inductive outcome (A : Type) :=
| Returns (a : A)
| Raises (e : exn)
| NameError (name : string).
Arguments Returns {A} a.
Arguments Raises {A} e.
Arguments NameError {A} name.

(** What [Image.open] would have returned. *)
Definition PILImage := list Byte.byte.

(** [Image.open(image_stream)].  The script imports no [Image] (there is
    no [from PIL import Image]), so evaluating the name raises
    [NameError] before anything is opened. *)
Definition Image_open (image_stream : list Byte.byte) : outcome PILImage :=
  NameError "Image".

Section Pictures.

(** [Presentation(pptx_file)]: the presentation of the file, or the
    exception of python-pptx for a file it cannot load. *)
Variable Presentation_of : string -> result Presentation.

(** [shape.image.blob] of a picture: the bytes of its embedded image.
    python-pptx raises [ValueError] for a picture that has none (a linked
    picture). *)
Variable image_blob : Shape -> result (list Byte.byte).

(** The inner loop, lines 364-369: [images] is [pil_images[i]].  Line 366
    reads the image of the picture before line 367 comes to [Image]. *)
Fixpoint slide_images (images : list PILImage) (shapes : list Shape)
    : outcome (list PILImage) :=
  match shapes with
  | [] => Returns images
  | shape :: rest =>
      if shape_type shape =? 13 then
        match image_blob shape with
        | Raise e => Raises e
        | Ok image_stream =>
            match Image_open image_stream with
            | Returns image => slide_images (images ++ [image]) rest
            | Raises e => Raises e
            | NameError name => NameError name
            end
        end
      else slide_images images rest
  end.

(** The outer loop over [enumerate(prs.slides)], from index [i]. *)
Fixpoint extract_from (i : nat) (pil_images : gmap nat (list PILImage))
    (slides : list Slide) : outcome (gmap nat (list PILImage)) :=
  match slides with
  | [] => Returns pil_images
  | slide :: rest =>
      match slide_images [] (slide_shapes slide) with
      | Returns images => extract_from (S i) (<[i := images]> pil_images) rest
      | Raises e => Raises e
      | NameError name => NameError name
      end
  end.

Definition extract_images_from_pptx (pptx_file : string)
    : outcome (gmap nat (list PILImage)) :=
  match Presentation_of pptx_file with
  | Raise e => Raises e
  | Ok prs => extract_from 0 ∅ prs
  end.

End Pictures.

(** The pictures ([shape_type] 13) among some shapes, and the first
    picture among the top-level shapes of a presentation, slide after
    slide. *)
Definition pictures (shapes : list Shape) : list Shape :=
  List.filter (fun shape => shape_type shape =? 13) shapes.

Definition first_picture (prs : Presentation) : option Shape :=
  head (pictures (flat_map slide_shapes prs)).

(** The dictionary that has the empty list under each of [0 .. n-1]. *)
Definition empty_lists (n : nat) : gmap nat (list PILImage) :=
  list_to_map (map (fun i => (i, [])) (seq 0 n)).

End Images.

(** ** interleave_pdfs (lines 393-422): the pages it writes *)

Module Interleave.

Section Pages.

Variable Page : Type.

(** Lines 411-415: the pages added to the writer, in order. *)
Definition interleave_pages (pdf1 pdf2 : list Page) : list Page :=
  flat_map
    (fun i =>
       (if (i <? length pdf1)%nat then option_list (pdf1 !! i) else [])
       ++ (if (i <? length pdf2)%nat then option_list (pdf2 !! i) else []))
    (seq 0 (Nat.max (length pdf1) (length pdf2))).

(** Taking a page of each in turn; what is left of the longer follows. *)
Fixpoint weave (pdf1 pdf2 : list Page) : list Page :=
  match pdf1, pdf2 with
  | [], _ => pdf2
  | _, [] => pdf1
  | p :: pdf1', q :: pdf2' => p :: q :: weave pdf1' pdf2'
  end.

End Pages.

End Interleave.

(** ** main (lines 424-455): the files it names *)

Module Paths.

(** The text before the last ['.'] of a reversed string, reversed. *)
Fixpoint after_dot (r : string) : option string :=
  match r with
  | EmptyString => None
  | String c r' => if Ascii.eqb c "." then Some r' else after_dot r'
  end.

(** [s.rsplit('.', 1)[0]]: what comes before the last ['.'], or all of
    [s] when it has none. *)
Definition rsplit_dot (s : string) : string :=
  match after_dot (String.rev s) with
  | Some r => String.rev r
  | None => s
  end.

(** [os.path.splitext(p)[0]].  The extension starts at the last ['.'] of
    the last component of the path, unless only dots come before it in
    that component, in which case there is none.  On the reversed path:
    [before_ext] is what follows the first ['.'], if no ['/'] comes
    first, and [has_name] says that something other than dots comes next
    in the component. *)
Fixpoint before_ext (r : string) : option string :=
  match r with
  | EmptyString => None
  | String c r' =>
      if Ascii.eqb c "." then Some r'
      else if Ascii.eqb c "/" then None
      else before_ext r'
  end.

Fixpoint has_name (r : string) : bool :=
  match r with
  | EmptyString => false
  | String c r' =>
      if Ascii.eqb c "/" then false
      else if Ascii.eqb c "." then has_name r'
      else true
  end.

Definition splitext_root (p : string) : string :=
  match before_ext (String.rev p) with
  | Some r => if has_name r then String.rev r else p
  | None => p
  end.

(** [s[:-5]]. *)
Definition drop_last5 (s : string) : string :=
  String.substring 0 (String.length s - 5) s.

End Paths.

Module Main.
Import Paths.

(** What [main] calls, in order, with the file names it passes. *)
Inductive call :=
| clean_pptx_call (pptx_path output_path : string)
| print_call (line : string)
| create_notes_slides_call (pptx_file new_filename : string)
| Presentation_call (path : string)
| modify_presentation_spacing_call (line_spacing_value : Q)
| save_call (path : string)
| convert_pptx_to_pdf_call (pptx_file : string)
| interleave_pdfs_call (file1 file2 output_file : string).

(** [main] for [sys.argv[1] = argv1], every call returning. *)
Definition main (argv1 : string) : list call :=
  let new_filename := rsplit_dot argv1 +:+ "_cleaned_images.pptx" in
  let notes_filename := rsplit_dot argv1 +:+ "_notes.pptx" in
  let base := splitext_root argv1 in
  let new_filename' := base +:+ "_braille.pptx" in
  let interleaved_filename :=
    splitext_root new_filename' +:+ "_with_notes.pdf" in
  [clean_pptx_call argv1 new_filename;
   print_call notes_filename;
   create_notes_slides_call new_filename notes_filename;
   Presentation_call new_filename;
   modify_presentation_spacing_call 1.2;
   save_call new_filename';
   convert_pptx_to_pdf_call new_filename';
   Presentation_call notes_filename;
   save_call notes_filename;
   convert_pptx_to_pdf_call notes_filename;
   interleave_pdfs_call (drop_last5 new_filename' +:+ ".pdf")
     (drop_last5 notes_filename +:+ ".pdf") interleaved_filename].

(** Line 381 of [convert_pptx_to_pdf]: the file it reports as saved. *)
Definition output_pdf (pptx_file : string) : string :=
  splitext_root pptx_file +:+ ".pdf".

End Main.

(** ** What the further properties speak of *)

Module Text.
Import Style.

(** Every paragraph of a table and of a shape with all that is below it,
    as [shape_runs] does for runs. *)
Definition table_paragraphs (t : Table) : list Paragraph :=
  flat_map (fun row =>
    flat_map (fun cell => paragraphs (cell_text_frame cell)) (cells row))
    (rows t).

Fixpoint shape_paragraphs (s : Shape) : list Paragraph :=
  match s with
  | mk_shape _ tf tb _ ss =>
      from_option paragraphs [] tf ++ from_option table_paragraphs [] tb
      ++ flat_map shape_paragraphs ss
  end.

Definition presentation_paragraphs (presentation : Presentation)
    : list Paragraph :=
  flat_map (fun slide => flat_map shape_paragraphs (slide_shapes slide))
           presentation.

End Text.

Module Survivors.
Import Pruner.

(** What [os.listdir(image_dir)] shows once [remove_repetitive_images] has
    run: the entries whose path was not removed. *)
Definition listing_after (isfile : string -> bool)
    (hash_file : string -> string) (num_slides : nat) (image_dir : string)
    (listing : list string) : list string :=
  List.filter
    (fun filename =>
       negb (Str.in_list (Str.join image_dir filename)
               (remove_repetitive_images isfile hash_file num_slides
                  image_dir listing)))
    listing.

(** [os.path.isfile] afterwards: a removed path is no file any more. *)
Definition isfile_after (isfile : string -> bool)
    (hash_file : string -> string) (num_slides : nat) (image_dir : string)
    (listing : list string) (path : string) : bool :=
  isfile path
  && negb (Str.in_list path
             (remove_repetitive_images isfile hash_file num_slides
                image_dir listing)).

End Survivors.

Module Relationships.
Import Repair.

Section Disk.

Variable path_exists : string -> bool.

(** A relationship of an image type whose target is not found on disk:
    the ones lines 238-244 remove. *)
Definition missing_image (c : Element) : bool :=
  String.eqb (tag c) Relationship_tag
  && match attrib c !! "Type" with
     | Some type =>
         Str.contains "image" type
         && match attrib c !! "Target" with
            | Some target => negb (path_exists (image_path target))
            | None => false
            end
     | None => false
     end.

(** A child of the relationships root that has the attributes the loop
    reads of it: every relationship a [Type], one of an image type a
    [Target], and one to be removed an [Id]. *)
Definition well_attributed (c : Element) : Prop :=
  tag c = Relationship_tag ->
  exists type,
    attrib c !! "Type" = Some type
    /\ (Str.contains "image" type = true ->
        exists target,
          attrib c !! "Target" = Some target
          /\ (path_exists (image_path target) = false ->
              is_Some (attrib c !! "Id"))).

(** The ids of the relationships to be removed from a document. *)
Definition dropped_ids (root : Element) : list string :=
  omap (fun c => attrib c !! "Id") (List.filter missing_image (children root)).

(** What the loop leaves of a relationships document, and of an entry of
    [_rels]: an entry that is no [.rels] file is not read; of a
    relationships document the children that are no relationship to a
    missing image stay, in their order. *)
Definition kept_children (root : Element) : list Element :=
  List.filter (fun c => negb (missing_image c)) (children root).

Definition rewritten (entry entry' : string * File) : Prop :=
  entry'.1 = entry.1
  /\ if Str.endswith entry.1 ".rels"
     then exists root,
            entry.2 = Xml root
            /\ entry'.2 = Xml (Elem (tag root) (attrib root) (kept_children root))
     else entry'.2 = entry.2.

(** What the loop needs of one entry of [_rels] to get through it: a
    relationship document that parses and whose relationships have their
    attributes, a slide document of the matching name that parses, and in
    it no picture whose first [blip] lacks its [embed] attribute or names
    a relationship to be removed. *)
Definition entry_completes (slides : gmap string File)
    (entry : string * File) : Prop :=
  Str.endswith entry.1 ".rels" = true ->
  exists root slide_root,
    entry.2 = Xml root
    /\ Forall well_attributed (children root)
    /\ slides !! Str.remove_dot_rels entry.1 = Some (Xml slide_root)
    /\ forall pic blip,
         pic ∈ findall_below pic_tag slide_root ->
         find_below blip_tag pic = Some blip ->
         exists id, attrib blip !! embed = Some id /\ id ∉ dropped_ids root.

End Disk.

End Relationships.

(** ** Concrete inputs

    Small packages, presentations and environments on which the
    properties below are instantiated. *)

Module BrailleExamples.
Import Braille.

(** A decoder that accepts the ASCII sequences, and a translator that
    succeeds and one that fails. *)
Definition ascii_only (b : bytes) : bool :=
  forallb (fun c => (Byte.to_N c <? 128)%N) b.
Definition translator_ok : list string -> bytes -> result completed :=
  fun _ _ => Ok (mk_completed 0 (encode ",hello") (encode "")).
Definition translator_fails : list string -> bytes -> result completed :=
  fun _ _ => Ok (mk_completed 1 (encode "") (encode "no table")).

End BrailleExamples.

Module PdfExamples.

(** A machine without LibreOffice: starting the program raises. *)
Definition no_libreoffice : list string -> result Z :=
  fun _ => raise FileNotFoundError
             "[Errno 2] No such file or directory: 'libreoffice'".

End PdfExamples.

Module PrunerExamples.

Definition media : string := "temp_pptx/ppt/media".

(** Ten slides; a logo stored nine times and a photo stored twice. *)
Definition logos : list string :=
  ["logo1.png"; "logo2.png"; "logo3.png"; "logo4.png"; "logo5.png";
   "logo6.png"; "logo7.png"; "logo8.png"; "logo9.png"].
Definition photos : list string := ["photo1.jpg"; "photo2.jpg"].
Definition scenario_listing : list string :=
  ["logo1.png"; "photo1.jpg"; "logo2.png"; "logo3.png"; "logo4.png";
   "logo5.png"; "photo2.jpg"; "logo6.png"; "logo7.png"; "logo8.png";
   "logo9.png"].
Definition scenario_hash (path : string) : string :=
  if Str.contains "logo" path then "digest-of-logo" else "digest-of-photo".

End PrunerExamples.

Module RepairExamples.
Import Repair.

Definition image_type : string :=
  "http://schemas.openxmlformats.org/officeDocument/2006/relationships/image".
Definition layout_type : string :=
  "http://schemas.openxmlformats.org/officeDocument/2006/relationships/slideLayout".

Definition relationship (id type target : string) : Element :=
  Elem Relationship_tag
       {[ "Id" := id; "Type" := type; "Target" := target ]} [].

Definition relationships (rs : list Element) : Element :=
  Elem "{http://schemas.openxmlformats.org/package/2006/relationships}Relationships"
       ∅ rs.

Definition picture (id : string) : Element :=
  Elem pic_tag ∅
    [Elem "{http://schemas.openxmlformats.org/presentationml/2006/main}blipFill"
          ∅ [Elem blip_tag {[ embed := id ]} []]].

Definition slide (pics : list Element) : Element :=
  Elem "{http://schemas.openxmlformats.org/presentationml/2006/main}sld" ∅
    [Elem "{http://schemas.openxmlformats.org/presentationml/2006/main}cSld" ∅
       [Elem "{http://schemas.openxmlformats.org/presentationml/2006/main}spTree"
             ∅ pics]].

(** A disk on which only [image1.png] is left in the media directory. *)
Definition disk (path : string) : bool :=
  String.eqb path "temp_pptx/ppt/media/image1.png".

Definition layout : Element :=
  relationship "rId1" layout_type "../slideLayouts/slideLayout1.xml".
Definition image1 : Element :=
  relationship "rId2" image_type "../media/image1.png".
Definition image2 : Element :=
  relationship "rId3" image_type "../media/image2.png".

(** One slide with a picture of [image1.png]; its relationships also name
    [image2.png], which is gone and which no picture shows. *)
Definition deck : Package :=
  mk_package
    [("slide1.xml.rels", Xml (relationships [layout; image1; image2]))]
    {[ "slide1.xml" := Xml (slide [picture "rId2"]) ]}.

Definition deck_repaired : Package :=
  mk_package
    [("slide1.xml.rels", Xml (relationships [layout; image1]))]
    {[ "slide1.xml" := Xml (slide [picture "rId2"]) ]}.

(** One slide whose picture names a relationship, [rId9], that its
    relationships document never had. *)
Definition dangling_deck : Package :=
  mk_package
    [("slide1.xml.rels", Xml (relationships [layout; image1]))]
    {[ "slide1.xml" := Xml (slide [picture "rId9"]) ]}.

(** A working copy in which the [ppt] directory, the media directory and
    [image1.png] are there, and a slide without pictures whose
    relationships document has an image relationship with an empty
    target. *)
Definition odd_disk (path : string) : bool :=
  Str.in_list path
    ["temp_pptx/ppt/"; "temp_pptx/ppt/media";
     "temp_pptx/ppt/media/image1.png"].

Definition no_target : Element := relationship "rId2" image_type "".

Definition odd_deck : Package :=
  mk_package
    [("slide1.xml.rels", Xml (relationships [layout; no_target]))]
    {[ "slide1.xml" := Xml (slide []) ]}.

(** One slide that shows [image2.png], which is gone. *)
Definition broken_deck : Package :=
  mk_package
    [("slide1.xml.rels", Xml (relationships [layout; image2]))]
    {[ "slide1.xml" := Xml (slide [picture "rId3"]) ]}.

End RepairExamples.

Module StyleExamples.
Import Style.

Definition red_italic : Font :=
  mk_font (Some "Arial") None (Some true) (Some (RGBColor 255 0 0))
          (Some (Pt 10)).
Definition braille (font_size : option Z) : Font :=
  mk_font (Some "Braille") None (Some false)
          (Some (RGBColor 0 0 0)) font_size.

(** A number to five decimals. *)
Definition five_decimals (v : Q) : Q :=
  let x := (v * 100000 + (1 # 2))%Q in
  Qred (inject_Z (Qnum x / Zpos (Qden x)) / 100000).

Definition title (f : Font) : Shape :=
  mk_shape 2 (Some (mk_text_frame [mk_paragraph [mk_run "Title" f] None]))
           None 14 [].
Definition photo : Shape := mk_shape 3 None None 13 [].
Definition grid (f : Font) : Shape :=
  mk_shape 5 None
    (Some (mk_table
       [mk_row [mk_cell (mk_text_frame [mk_paragraph [mk_run "cell" f] None])]]))
    19 [].
Definition logo : Shape := mk_shape 6 None None 13 [].
Definition group (f : Font) : Shape :=
  mk_shape 4 None None 6 [grid f; logo].

(** One slide: a title, a picture, and a group of a table and a picture. *)
Definition demo_slide (f : Font) : Slide :=
  mk_slide [title f; photo; group f].
Definition demo : Presentation := [demo_slide red_italic].

End StyleExamples.

Module HashExamples.
Import Hash.

(** A hash object that keeps all it is fed, and a file of three bytes. *)
Definition keep_all (state data : bytes) : bytes := state ++ data.
Definition abc : bytes := [Byte.x61; Byte.x62; Byte.x63].

End HashExamples.

Module InterleaveExamples.

(** Three slides and the notes of the first two. *)
Definition slides_pdf : list string := ["slide 1"; "slide 2"; "slide 3"].
Definition notes_pdf : list string := ["notes 1"; "notes 2"].

End InterleaveExamples.

Module ContractExamples.
Import Style StyleExamples.

(** [demo] with the title translated. *)
Definition contracted_demo : Presentation :=
  [mk_slide
     [mk_shape 2
        (Some (mk_text_frame [mk_paragraph [mk_run ",hello" red_italic] None]))
        None 14 [];
      photo; group red_italic]].

End ContractExamples.

(** * Properties *)

Module PyProps.

(** A sequence that returns has had its first part return. *)
Lemma bind_Ok {A B} (m : result A) (k : A -> result B) (b : B) :
  m ≫= k = Ok b -> exists a, m = Ok a /\ k a = Ok b.
Proof. destruct m as [a|e]; simpl; [eauto | discriminate]. Qed.

End PyProps.
Import PyProps.

Module BrailleProps.
Import Braille BrailleExamples.

Lemma in_list_In (x : string) (l : list string) :
  Str.in_list x l = true <-> In x l.
Proof.
  unfold Str.in_list. rewrite existsb_exists. split.
  - intros (y & Hy & Heq). apply String.eqb_eq in Heq. by subst.
  - intros Hx. exists x. split; [done | apply String.eqb_refl].
Qed.

(** The guard of line 32 is the predicate [non_translatable]. *)
Lemma guard_spec (text : string) :
  negb (String.eqb (Str.strip text) "")
  && Str.in_list (Str.strip text) non_translatable_chars = true
  <-> non_translatable text.
Proof.
  unfold non_translatable.
  rewrite andb_true_iff, negb_true_iff, in_list_In, String.eqb_neq. done.
Qed.

Lemma guard_false (text : string) :
  ~ non_translatable text ->
  negb (String.eqb (Str.strip text) "")
  && Str.in_list (Str.strip text) non_translatable_chars = false.
Proof.
  intros Hn. apply not_true_is_false. intros H. by apply Hn, guard_spec.
Qed.

(** C10.  A text whose stripped form is not empty and is one of the
    non-translatable strings is returned as it is, and no process is
    started; every other text is handed to the braille translator: exactly
    one process is started, [lou_translate en-ueb-g2.ctb], with the
    encoded text on its standard input.  This holds whatever the operating
    system answers. *)
Theorem ascii_to_braille_passes_or_translates
    (utf8_valid : bytes -> bool)
    (os : list string -> bytes -> result completed) (text : string) :
  (non_translatable text ->
     run os (ascii_to_braille utf8_valid text) = ([], Ok text))
  /\ (~ non_translatable text ->
        (run os (ascii_to_braille utf8_valid text)).1
        = [(lou_translate, encode text)]).
Proof.
  unfold ascii_to_braille. split; intros H.
  - apply guard_spec in H. by rewrite H.
  - by rewrite (guard_false _ H).
Qed.

(** C6.  When the translator is started and exits, the function raises
    the exception [lou_translate failed: <stderr>] if and only if the exit
    status is not zero: a non-zero status raises it, with the decoded
    standard error as its message, and an exception of that kind comes
    from no zero status.  On a zero status the function returns the decoded
    standard output.  (Decoding is [bytes.decode]: the bytes captured are
    taken to be text where the statement names the decoded text.) *)
Theorem ascii_to_braille_exit_status
    (utf8_valid : bytes -> bool)
    (os : list string -> bytes -> result completed)
    (text : string) (process : completed) :
  ~ non_translatable text ->
  os lou_translate (encode text) = Ok process ->
  (returncode process <> 0 ->
     forall err, decode utf8_valid (stderr process) = Ok err ->
     (run os (ascii_to_braille utf8_valid text)).2
     = raise Exception ("lou_translate failed: " +:+ err))
  /\ (returncode process = 0 ->
        (run os (ascii_to_braille utf8_valid text)).2
        = decode utf8_valid (stdout process))
  /\ (forall msg,
        (run os (ascii_to_braille utf8_valid text)).2 = raise Exception msg ->
        returncode process <> 0).
Proof.
  intros Hn Hos. unfold ascii_to_braille.
  rewrite (guard_false _ Hn). simpl. rewrite Hos. simpl.
  split; [|split].
  - intros Hrc err Herr. apply Z.eqb_neq in Hrc. rewrite Hrc. simpl.
    by rewrite Herr.
  - intros Hrc. rewrite Hrc. done.
  - intros msg Hr Hrc. rewrite Hrc in Hr. simpl in Hr.
    unfold decode in Hr. destruct (utf8_valid _); discriminate.
Qed.


(** C10 on two inputs: [" B. "] comes back unchanged, ["hello"] goes to
    the translator. *)
Lemma ascii_to_braille_passes_or_translates_witness :
  run translator_ok (ascii_to_braille ascii_only " B. ") = ([], Ok " B. ")
  /\ (run translator_ok (ascii_to_braille ascii_only "hello")).1
     = [(lou_translate, encode "hello")].
Proof.
  split.
  - apply (proj1 (ascii_to_braille_passes_or_translates
                    ascii_only translator_ok " B. ")).
    split; [by vm_compute | vm_compute; auto 10].
  - apply (proj2 (ascii_to_braille_passes_or_translates
                    ascii_only translator_ok "hello")).
    intros [_ H]. vm_compute in H. intuition discriminate.
Defined.

(** C6 on a translator that exits with status 1 and on one that exits
    with status 0. *)
Lemma ascii_to_braille_exit_status_witness :
  (run translator_fails (ascii_to_braille ascii_only "hello")).2
  = raise Exception "lou_translate failed: no table"
  /\ (run translator_ok (ascii_to_braille ascii_only "hello")).2
     = Ok ",hello".
Proof.
  assert (Hn : ~ non_translatable "hello").
  { intros [_ H]. vm_compute in H. intuition discriminate. }
  split.
  - apply (proj1 (ascii_to_braille_exit_status ascii_only translator_fails
                    "hello" _ Hn eq_refl)); [by vm_compute | reflexivity].
  - apply (proj1 (proj2 (ascii_to_braille_exit_status ascii_only translator_ok
                    "hello" _ Hn eq_refl))). reflexivity.
Defined.

End BrailleProps.

Module PdfProps.
Import Pdf PdfExamples.

(** C7.  For an input path that exists, a failure of the conversion step
    (any exception that [subprocess.run] raises and that derives from
    [Exception]) is caught: the function returns normally, what it prints
    is the one line reporting the error, and whatever the caller does next
    is run.  A child that exits, with whatever status, raises nothing. *)
Theorem convert_pptx_to_pdf_logs_and_returns
    (path_exists : string -> bool) (splitext_root dirname : string -> string)
    (subprocess_run : list string -> result Z) (pptx_file : string) :
  path_exists pptx_file = true ->
  (forall error,
     subprocess_run (libreoffice dirname pptx_file
                       (splitext_root pptx_file +:+ ".pdf")) = Raise error ->
     is_Exception error = true) ->
  (convert_pptx_to_pdf path_exists splitext_root dirname subprocess_run
     pptx_file).2 = Ok tt
  /\ (forall error,
        subprocess_run (libreoffice dirname pptx_file
                          (splitext_root pptx_file +:+ ".pdf")) = Raise error ->
        (convert_pptx_to_pdf path_exists splitext_root dirname subprocess_run
           pptx_file).1
        = ["An error occurred during file conversion: " +:+ exn_msg error])
  /\ (forall (A : Type) (rest_of_caller : unit -> result A),
        (convert_pptx_to_pdf path_exists splitext_root dirname subprocess_run
           pptx_file).2 ≫= rest_of_caller = rest_of_caller tt).
Proof.
  intros Hex Hexn. unfold convert_pptx_to_pdf. rewrite Hex. simpl.
  destruct (subprocess_run _) as [rc|error] eqn:Hrun.
  - repeat split; intros; discriminate.
  - rewrite (Hexn error eq_refl). repeat split.
    intros error' [= <-]. done.
Qed.

(** C7 on a machine where LibreOffice is not installed. *)
Lemma convert_pptx_to_pdf_logs_and_returns_witness :
  convert_pptx_to_pdf (fun _ => true) (fun _ => "deck") (fun _ => "")
    no_libreoffice "deck.pptx"
  = (["An error occurred during file conversion: [Errno 2] No such file or directory: 'libreoffice'"],
     Ok tt).
Proof.
  pose proof (convert_pptx_to_pdf_logs_and_returns (fun _ => true)
    (fun _ => "deck") (fun _ => "") no_libreoffice "deck.pptx" eq_refl) as H.
  destruct H as (Hr & Hlog & _).
  { intros error [= <-]. reflexivity. }
  specialize (Hlog _ eq_refl).
  destruct (convert_pptx_to_pdf _ _ _ _ _) as [printed r].
  simpl in *. by subst.
Defined.

End PdfProps.

Module PrunerProps.
Import Pruner.

Section Media.

Variable isfile : string -> bool.
Variable hash_file : string -> string.
Variable image_dir : string.

Local Abbreviation scan := (Pruner.scan isfile hash_file image_dir).
Local Abbreviation group := (Pruner.group isfile hash_file image_dir).
Local Abbreviation group_size :=
  (Pruner.group_size isfile hash_file image_dir).

(** Who is filed under which key after [dict_append]. *)
Lemma dict_append_filed (k v : string) (d : list (string * list string))
    (h p : string) :
  (exists vs, (h, vs) ∈ dict_append k v d /\ p ∈ vs)
  <-> (exists vs, (h, vs) ∈ d /\ p ∈ vs) \/ (h = k /\ p = v).
Proof.
  induction d as [|[k' vs'] d IH]; simpl.
  - split.
    + intros (vs & Hin & Hp). apply list_elem_of_singleton in Hin.
      injection Hin as -> ->. apply list_elem_of_singleton in Hp. by right.
    + intros [(vs & Hin & _) | [-> ->]]; [by apply elem_of_nil in Hin|].
      exists [v]. split; apply list_elem_of_singleton; done.
  - destruct (String.eqb_spec k' k) as [->|Hne].
    + split.
      * intros (vs & Hin & Hp). apply elem_of_cons in Hin as [Heq|Hin].
        -- injection Heq as -> ->. apply elem_of_app in Hp as [Hp|Hp].
           ++ left. exists vs'. split; [left | done].
           ++ apply list_elem_of_singleton in Hp. by right.
        -- left. exists vs. split; [by right | done].
      * intros [(vs & Hin & Hp) | [-> ->]].
        -- apply elem_of_cons in Hin as [Heq|Hin].
           ++ injection Heq as -> ->. exists (vs' ++ [v]).
              split; [left | apply elem_of_app; by left].
           ++ exists vs. split; [by right | done].
        -- exists (vs' ++ [v]). split; [left|].
           apply elem_of_app. right. by apply list_elem_of_singleton.
    + split.
      * intros (vs & Hin & Hp). apply elem_of_cons in Hin as [Heq|Hin].
        -- injection Heq as -> ->. left. exists vs'. split; [left | done].
        -- destruct (proj1 IH (ex_intro _ vs (conj Hin Hp)))
             as [(vs0 & Hin0 & Hp0) | Hnew]; [|by right].
           left. exists vs0. split; [by right | done].
      * intros [(vs & Hin & Hp) | Hnew].
        -- apply elem_of_cons in Hin as [Heq|Hin].
           ++ injection Heq as -> ->. exists vs'. split; [left | done].
           ++ destruct (proj2 IH (or_introl (ex_intro _ vs (conj Hin Hp))))
                as (vs0 & Hin0 & Hp0).
              exists vs0. split; [by right | done].
        -- destruct (proj2 IH (or_intror Hnew)) as (vs0 & Hin0 & Hp0).
           exists vs0. split; [by right | done].
Qed.

Lemma scan_snoc (listing : list string) (filename : string) :
  scan (listing ++ [filename])
  = scan_file isfile hash_file image_dir (scan listing) filename.
Proof. unfold Pruner.scan. by rewrite fold_left_app. Qed.

Lemma group_snoc (listing : list string) (filename h : string) :
  group (listing ++ [filename]) h
  = group listing h
    ++ (if decide (isfile (Str.join image_dir filename) = true
                   /\ hash_file (Str.join image_dir filename) = h)
        then [Str.join image_dir filename] else []).
Proof.
  unfold Pruner.group. rewrite map_app, filter_app. simpl.
  rewrite filter_cons, filter_nil. done.
Qed.

(** What the first loop leaves in the two dictionaries. *)
Lemma scan_spec (listing : list string) :
  (forall h, count_of (scan listing).1 h = group_size listing h)
  /\ (forall h p,
        (exists vs, (h, vs) ∈ (scan listing).2 /\ p ∈ vs)
        <-> p ∈ group listing h).
Proof.
  induction listing as [|filename listing [IHc IHf]] using rev_ind.
  - split; [done|]. intros h p. simpl. split.
    + intros (vs & Hin & _). by apply elem_of_nil in Hin.
    + intros Hin. by apply elem_of_nil in Hin.
  - rewrite scan_snoc. unfold scan_file, Pruner.group_size.
    destruct (isfile (Str.join image_dir filename)) eqn:Hfile; simpl.
    + split.
      * intros h. rewrite group_snoc, Hfile, length_app.
        specialize (IHc h). unfold count_of, Pruner.group_size in *.
        destruct (decide (hash_file (Str.join image_dir filename) = h))
          as [Heq|Hne].
        -- rewrite Heq, lookup_insert_eq. simpl. rewrite IHc.
           rewrite decide_True by done. unfold Pruner.group_size. simpl. lia.
        -- rewrite lookup_insert_ne by done.
           rewrite decide_False by (intros [_ ?]; done). unfold Pruner.group_size. simpl. lia.
      * intros h p. rewrite dict_append_filed, IHf, group_snoc, Hfile.
        rewrite elem_of_app. apply or_iff_compat_l.
        destruct (decide _) as [[_ Hh]|Hn].
        -- rewrite list_elem_of_singleton. split; [by intros [_ ?] | done].
        -- rewrite elem_of_nil. split; [intros [Hh _] | done].
           destruct Hn. by split.
    + split.
      * intros h. rewrite group_snoc, Hfile, length_app, IHc.
        rewrite decide_False by (intros [? _]; done). unfold Pruner.group_size. simpl. lia.
      * intros h p. rewrite IHf, group_snoc, Hfile.
        rewrite decide_False by (intros [? _]; done).
        by rewrite app_nil_r.
Qed.

(** [count > 0.8 * num_slides], in integers. *)
Lemma exceeds_spec (count num_slides : nat) :
  exceeds count (threshold num_slides) = true
  <-> (threshold num_slides < inject_Z (Z.of_nat count))%Q.
Proof.
  unfold exceeds. rewrite negb_true_iff.
  split.
  - intros H. apply Qnot_le_lt. intros Hle.
    apply Qle_bool_iff in Hle. congruence.
  - intros H. apply not_true_is_false. intros Hle.
    apply Qle_bool_iff in Hle. by apply Qlt_not_le in H.
Qed.

Lemma threshold_lt (count num_slides : nat) :
  (threshold num_slides < inject_Z (Z.of_nat count))%Q
  <-> (4 * num_slides < 5 * count)%nat.
Proof.
  unfold threshold, Qlt, Qmult, inject_Z. simpl. lia.
Qed.

(** The paths deleted are the members of the groups over the threshold. *)
Lemma removed_iff (num_slides : nat) (listing : list string) (path : string) :
  path ∈ remove_repetitive_images isfile hash_file num_slides image_dir listing
  <-> exists h, (threshold num_slides < inject_Z (Z.of_nat (group_size listing h)))%Q
                /\ path ∈ group listing h.
Proof.
  unfold remove_repetitive_images.
  destruct (scan_spec listing) as [Hc Hf].
  destruct (scan listing) as [hash_counts file_hashes]. simpl in *.
  rewrite list_elem_of_In, in_flat_map. split.
  - intros ([h vs] & Hin & Hp). apply list_elem_of_In in Hin.
    destruct (exceeds _ _) eqn:Hex; [|by destruct Hp].
    apply list_elem_of_In in Hp.
    exists h. split.
    + apply exceeds_spec. by rewrite <- Hc.
    + apply Hf. eauto.
  - intros (h & Hlt & Hp). apply Hf in Hp as (vs & Hin & Hp).
    exists (h, vs). split; [by apply list_elem_of_In|].
    apply exceeds_spec in Hlt. rewrite <- Hc in Hlt. rewrite Hlt.
    by apply list_elem_of_In.
Qed.

Lemma elem_of_group (listing : list string) (h path : string) :
  path ∈ group listing h
  <-> exists filename, filename ∈ listing
        /\ path = Str.join image_dir filename
        /\ isfile path = true /\ hash_file path = h.
Proof.
  unfold Pruner.group. rewrite list_elem_of_filter, list_elem_of_In, in_map_iff.
  split.
  - intros ([Hf Hh] & filename & <- & Hin).
    exists filename. split; [by apply list_elem_of_In | done].
  - intros (filename & Hin & -> & Hf & Hh). split; [done|].
    exists filename. split; [done | by apply list_elem_of_In].
Qed.

End Media.

Import PrunerExamples.

(** C4.  The paths deleted are exactly the regular files of the media
    directory whose hash group has more than [0.8 * N] members, so every
    file of such a group is deleted and no other file is.  With ten slides,
    a digest shared by nine files and another shared by two, the nine
    files are deleted and the two are kept. *)
Theorem remove_repetitive_images_exact :
  (forall (isfile : string -> bool) (hash_file : string -> string)
          (num_slides : nat) (image_dir : string) (listing : list string)
          (path : string),
     path ∈ remove_repetitive_images isfile hash_file num_slides image_dir
              listing
     <-> exists filename,
           filename ∈ listing
           /\ path = Str.join image_dir filename
           /\ isfile path = true
           /\ (threshold num_slides
               < inject_Z (Z.of_nat (group_size isfile hash_file image_dir
                                       listing (hash_file path))))%Q)
  /\ group_size (fun _ => true) scenario_hash media scenario_listing
       "digest-of-logo" = 9%nat
  /\ group_size (fun _ => true) scenario_hash media scenario_listing
       "digest-of-photo" = 2%nat
  /\ remove_repetitive_images (fun _ => true) scenario_hash 10 media
       scenario_listing
     = map (Str.join media) logos.
Proof.
  split; [|by vm_compute].
  intros isfile hash_file num_slides image_dir listing path.
  rewrite removed_iff. split.
  - intros (h & Hlt & Hin).
    apply elem_of_group in Hin as (filename & Hin & -> & Hf & <-). eauto 6.
  - intros (filename & Hin & -> & Hf & Hlt).
    eexists. split; [exact Hlt|]. apply elem_of_group. eauto 6.
Qed.

(** C5, amended.  With no slide the threshold is 0, which every hash
    group exceeds: the files deleted are all the regular files of the
    media directory. *)
Theorem remove_repetitive_images_zero_slides
    (isfile : string -> bool) (hash_file : string -> string)
    (image_dir : string) (listing : list string) (path : string) :
  path ∈ remove_repetitive_images isfile hash_file 0 image_dir listing
  <-> exists filename,
        filename ∈ listing
        /\ path = Str.join image_dir filename
        /\ isfile path = true.
Proof.
  rewrite removed_iff. split.
  - intros (h & _ & Hin).
    apply elem_of_group in Hin as (filename & Hin & -> & Hf & _). eauto.
  - intros (filename & Hin & -> & Hf).
    exists (hash_file (Str.join image_dir filename)).
    assert (Hg : Str.join image_dir filename
                 ∈ group isfile hash_file image_dir listing
                     (hash_file (Str.join image_dir filename))).
    { apply elem_of_group. eauto 6. }
    split; [|done].
    apply threshold_lt. unfold group_size.
    destruct (group _ _ _ _ _); [by apply elem_of_nil in Hg | simpl; lia].
Qed.

(** C5 as stated fails: with no slide, the one file of the media directory
    is deleted. *)
Lemma zero_slides_still_prunes :
  remove_repetitive_images (fun _ => true) scenario_hash 0 media
    ["photo1.jpg"]
  = ["temp_pptx/ppt/media/photo1.jpg"].
Proof. reflexivity. Qed.

End PrunerProps.

Module RepairProps.
Import Repair.

Section Disk.

Variable path_exists : string -> bool.

Local Abbreviation repair_relationships :=
  (Repair.repair_relationships path_exists).
Local Abbreviation remove_pics := Repair.remove_pics.
Local Abbreviation verdict := (Repair.verdict path_exists).
Local Abbreviation resolves := (Repair.resolves path_exists).
Local Abbreviation repaired := (Repair.repaired path_exists).
Local Abbreviation repair_file := (Repair.repair_file path_exists).
Local Abbreviation repair_files := (Repair.repair_files path_exists).
Local Abbreviation reference_repair := (Repair.reference_repair path_exists).

Lemma attrib_get_Ok (e : Element) (key v : string) :
  attrib_get e key = Ok v <-> attrib e !! key = Some v.
Proof.
  unfold attrib_get. destruct (attrib e !! key); split; intros H;
    try discriminate; congruence.
Qed.

Lemma repair_relationships_cons (c : Element) (cs : list Element) :
  repair_relationships (c :: cs)
  = v ← verdict c;
    '(ids, kept) ← repair_relationships cs;
    Ok (match v with
        | Some id => (id :: ids, kept)
        | None => (ids, c :: kept)
        end).
Proof.
  simpl. unfold verdict.
  destruct (String.eqb _ _); [|done].
  destruct (attrib_get c "Type") as [type|]; [simpl|done].
  destruct (Str.contains "image" type); [|done].
  destruct (attrib_get c "Target") as [target|]; [simpl|done].
  destruct (path_exists _); simpl; [done|].
  by destruct (attrib_get c "Id").
Qed.

Lemma verdict_keep (c : Element) :
  verdict c = Ok None -> tag c = Relationship_tag -> resolves c.
Proof.
  unfold verdict. intros H Htag. apply String.eqb_eq in Htag.
  rewrite Htag in H.
  intros type Htype Himg. apply attrib_get_Ok in Htype.
  rewrite Htype in H. simpl in H. rewrite Himg in H.
  destruct (attrib_get c "Target") as [target|] eqn:Htarget; [|done].
  simpl in H. apply attrib_get_Ok in Htarget. exists target. split; [done|].
  destruct (path_exists _); [done|]. simpl in H.
  by destruct (attrib_get c "Id").
Qed.

Lemma verdict_remove (c : Element) (id : string) :
  verdict c = Ok (Some id) ->
  tag c = Relationship_tag /\ attrib c !! "Id" = Some id.
Proof.
  unfold verdict. intros H.
  destruct (String.eqb _ _) eqn:Htag; [|done].
  apply String.eqb_eq in Htag. split; [done|].
  destruct (attrib_get c "Type") as [type|]; [simpl in H|done].
  destruct (Str.contains "image" type); [|done].
  destruct (attrib_get c "Target") as [target|]; [simpl in H|done].
  destruct (path_exists _); [done|]. simpl in H.
  destruct (attrib_get c "Id") as [id'|] eqn:Hid; [|done].
  apply attrib_get_Ok in Hid. simpl in H. congruence.
Qed.

(** One step of the loop, read backwards from a normal end. *)
Lemma repair_relationships_inv (c : Element) (cs : list Element)
    (ids : list string) (kept : list Element) :
  repair_relationships (c :: cs) = Ok (ids, kept) ->
  exists ids0 kept0,
    repair_relationships cs = Ok (ids0, kept0)
    /\ ((verdict c = Ok None /\ ids = ids0 /\ kept = c :: kept0)
        \/ (exists id, verdict c = Ok (Some id)
                       /\ ids = id :: ids0 /\ kept = kept0)).
Proof.
  rewrite repair_relationships_cons. intros H.
  apply bind_Ok in H as (v & Hv & H).
  apply bind_Ok in H as ([ids0 kept0] & Hrest & H).
  exists ids0, kept0. split; [done|].
  destruct v as [id|]; injection H as <- <-; [right; eauto | left; eauto].
Qed.

(** Every child the loop leaves is one it decided to keep. *)
Lemma kept_verdicts (cs : list Element) (ids : list string)
    (kept : list Element) :
  repair_relationships cs = Ok (ids, kept) ->
  Forall (fun c => verdict c = Ok None) kept.
Proof.
  revert ids kept. induction cs as [|c cs IH]; intros ids kept H.
  - injection H as <- <-. constructor.
  - apply repair_relationships_inv in H
      as (ids0 & kept0 & Hrest & [(Hv & -> & ->) | (id & Hv & -> & ->)]).
    + constructor; eauto.
    + eauto.
Qed.

(** Children that are all to be kept are left as they are. *)
Lemma repair_relationships_kept (cs : list Element) :
  Forall (fun c => verdict c = Ok None) cs ->
  repair_relationships cs = Ok ([], cs).
Proof.
  induction 1 as [|c cs Hc _ IH]; [done|].
  rewrite repair_relationships_cons, Hc. simpl. by rewrite IH.
Qed.

(** Every child is kept, or removed with its id recorded. *)
Lemma kept_or_recorded (cs : list Element) (ids : list string)
    (kept : list Element) :
  repair_relationships cs = Ok (ids, kept) ->
  forall r, r ∈ cs ->
    r ∈ kept \/ exists id, verdict r = Ok (Some id) /\ id ∈ ids.
Proof.
  revert ids kept. induction cs as [|c cs IH]; intros ids kept H r Hr.
  - by apply elem_of_nil in Hr.
  - apply repair_relationships_inv in H
      as (ids0 & kept0 & Hrest & [(Hv & -> & ->) | (id & Hv & -> & ->)]);
      apply elem_of_cons in Hr as [->|Hr].
    + left. left.
    + destruct (IH _ _ Hrest r Hr) as [?|?]; [left; by right | by right].
    + right. exists id. split; [done | left].
    + destruct (IH _ _ Hrest r Hr) as [?|(id' & ? & ?)]; [by left|].
      right. exists id'. split; [done | by right].
Qed.

(** The loop over the pictures ends normally only if no picture refers
    to a removed relationship (and every blip met has an [embed]). *)
Lemma remove_pics_Ok (removed_ids : list string) (pics : list Element) :
  remove_pics removed_ids pics = Ok tt ->
  forall pic blip, pic ∈ pics -> find_below blip_tag pic = Some blip ->
    exists id, attrib blip !! embed = Some id
               /\ Str.in_list id removed_ids = false.
Proof.
  induction pics as [|p pics IH]; intros H pic blip Hpic Hblip.
  - by apply elem_of_nil in Hpic.
  - simpl in H. apply elem_of_cons in Hpic as [->|Hpic].
    + rewrite Hblip in H.
      destruct (attrib_get blip embed) as [id|] eqn:Hid; [|done].
      apply attrib_get_Ok in Hid. simpl in H.
      exists id. split; [done|]. by destruct (Str.in_list id removed_ids).
    + refine (IH _ pic blip Hpic Hblip).
      destruct (find_below blip_tag p) as [b|]; [|done].
      destruct (attrib_get b embed) as [id|]; [simpl in H|done].
      by destruct (Str.in_list id removed_ids).
Qed.

(** With nothing removed, the loop only reads. *)
Lemma remove_pics_nil (pics : list Element) :
  (forall pic blip, pic ∈ pics -> find_below blip_tag pic = Some blip ->
     is_Some (attrib blip !! embed)) ->
  remove_pics [] pics = Ok tt.
Proof.
  induction pics as [|p pics IH]; intros H; [done|]. simpl.
  destruct (find_below blip_tag p) as [b|] eqn:Hb.
  - destruct (H p b) as [id Hid]; [left | done |].
    apply attrib_get_Ok in Hid. rewrite Hid. simpl.
    apply IH. intros pic blip Hpic. apply H. by right.
  - apply IH. intros pic blip Hpic. apply H. by right.
Qed.

Lemma parse_Ok (path : string) (f : option File) (root : Element) :
  parse path f = Ok root <-> f = Some (Xml root).
Proof.
  unfold parse. destruct f as [[r|]|]; split; intros H;
    try discriminate; congruence.
Qed.

Lemma repair_file_Ok (slides slides' : gmap string File)
    (entry entry' : string * File) :
  repair_file slides entry = Ok (entry', slides') ->
  slides' = slides /\ repaired slides entry entry'.
Proof.
  destruct entry as [rels_file content]. unfold Repair.repair_file, repaired.
  destruct (Str.endswith rels_file ".rels") eqn:Hext; simpl.
  - intros H.
    apply bind_Ok in H as (root & Hroot & H).
    destruct content as [root0|]; [|done]. injection Hroot as ->.
    apply bind_Ok in H as ([removed_ids kept] & Hrel & H).
    apply bind_Ok in H as (slide_root & Hslide & H). apply parse_Ok in Hslide.
    apply bind_Ok in H as ([] & Hpics & H).
    injection H as <- <-. split; [by apply insert_id|].
    split; [done|]. right. split; [done|]. eauto 10.
  - intros [= <- <-]. split; [done|]. split; [done|]. by left.
Qed.

Lemma repair_files_Ok (slides slides' : gmap string File)
    (entries entries' : list (string * File)) :
  repair_files slides entries = Ok (entries', slides') ->
  slides' = slides /\ Forall2 (repaired slides) entries entries'.
Proof.
  revert entries'. induction entries as [|entry entries IH]; intros entries' H.
  - injection H as <- <-. by split.
  - simpl in H.
    apply bind_Ok in H as ([entry1 slides1] & Hfile & H).
    apply bind_Ok in H as ([rest slides2] & Hrest & H).
    injection H as <- <-.
    apply repair_file_Ok in Hfile as [-> Hentry].
    apply IH in Hrest as [-> Hall]. split; [done | by constructor].
Qed.

(** A repaired entry goes through the loop again untouched. *)
Lemma repair_file_again (slides : gmap string File)
    (entry entry' : string * File) :
  repaired slides entry entry' ->
  repair_file slides entry' = Ok (entry', slides).
Proof.
  destruct entry as [rels_file content], entry' as [rels_file' content'].
  intros [Hname Hcases]. simpl in *. subst rels_file'.
  unfold Repair.repair_file.
  destruct Hcases as [[Hext _] | (Hext & root & ids & kept & slide_root
                                   & _ & Hrel & -> & Hslide & Hpics)];
    rewrite Hext; simpl; [done|].
  rewrite (repair_relationships_kept kept) by (by eapply kept_verdicts).
  simpl. rewrite Hslide. simpl.
  rewrite remove_pics_nil.
  - simpl. by rewrite insert_id.
  - intros pic blip Hpic Hblip.
    destruct (remove_pics_Ok _ _ Hpics pic blip Hpic Hblip) as (id & Hid & _).
    by exists id.
Qed.

Lemma repair_files_again (slides : gmap string File)
    (entries entries' : list (string * File)) :
  Forall2 (repaired slides) entries entries' ->
  repair_files slides entries' = Ok (entries', slides).
Proof.
  induction 1 as [|entry entry' entries entries' Hentry _ IH]; [done|].
  simpl. rewrite (repair_file_again _ _ _ Hentry). simpl. by rewrite IH.
Qed.

Lemma clean_pptx_Ok (pptx_exists : bool) (pptx_path : string)
    (package package' : Package) :
  clean_pptx path_exists pptx_exists pptx_path package = Ok package' ->
  slides_dir package' = slides_dir package
  /\ Forall2 (repaired (slides_dir package)) (rels_dir package)
             (rels_dir package').
Proof.
  unfold clean_pptx, Repair.reference_repair.
  destruct pptx_exists; [simpl|done]. intros H.
  apply bind_Ok in H as ([rels slides] & Hfiles & H). injection H as <-.
  simpl. by apply repair_files_Ok in Hfiles.
Qed.

End Disk.

(** The loop over the pictures does not get past a picture of a removed
    relationship. *)
Lemma remove_pics_stops (removed_ids : list string) (pics : list Element)
    (pic : Element) (id : string) :
  pic ∈ pics -> pic_embed pic = Some id -> id ∈ removed_ids ->
  exists e, remove_pics removed_ids pics = Raise e.
Proof.
  intros Hpic Hembed Hid. induction pics as [|p pics IH].
  - by apply elem_of_nil in Hpic.
  - simpl. apply elem_of_cons in Hpic as [<-|Hpic].
    + unfold pic_embed in Hembed.
      destruct (find_below blip_tag pic) as [blip|]; [|done].
      simpl in Hembed. unfold attrib_get. rewrite Hembed. simpl.
      assert (Str.in_list id removed_ids = true) as ->; [|simpl; eauto].
      unfold Str.in_list. apply existsb_exists. exists id.
      split; [by apply list_elem_of_In | apply String.eqb_refl].
    + destruct (find_below blip_tag p) as [blip|]; [|by apply IH].
      destruct (attrib_get blip embed) as [id'|e]; simpl; [|eauto].
      destruct (Str.in_list id' removed_ids); simpl; [eauto | by apply IH].
Qed.

(** What is left of a target once its leading slashes are stripped does
    not begin with a slash, so joining it to [temp_pptx/ppt] keeps that
    directory in front. *)
Lemma lstrip_slash_startswith (s : string) :
  Str.startswith (Str.lstrip_slash s) "/" = false.
Proof.
  induction s as [|a s IH]; [done|].
  destruct (Ascii.eqb_spec a "/") as [->|Hne]; [exact IH|].
  assert (Str.lstrip_slash (String a s) = String a s) as ->.
  { destruct a as [[] [] [] [] [] [] [] []]; done. }
  unfold Str.startswith.
  change (String.prefix "/" (String a s))
    with (if Ascii.ascii_dec "/" a then String.prefix "" s else false).
  destruct (Ascii.ascii_dec "/" a) as [<-|]; done.
Qed.

Lemma join3_ppt (s : string) :
  Str.startswith s "/" = false ->
  Str.join3 temp_dir "ppt" s = "temp_pptx/ppt/" +:+ s.
Proof.
  intros H. unfold Str.join3.
  change (Str.join temp_dir "ppt") with "temp_pptx/ppt".
  unfold Str.join. rewrite H. reflexivity.
Qed.

(** Where the target of a relationship is looked for. *)
Lemma image_path_below (target : string) :
  image_path target
  = "temp_pptx/ppt/" +:+ Str.remove_dotdot (Str.lstrip_slash target).
Proof.
  unfold image_path. by rewrite join3_ppt by apply lstrip_slash_startswith.
Qed.

(** C1, amended.  After a run of [clean_pptx] that ends normally, in
    every relationship document of the slides (every [.rels] entry), every
    relationship left whose type is an image type has a target, and the
    path the script looks that target up at exists on disk (a file or a
    directory): [temp_pptx/ppt/] followed by the target, its leading
    slashes stripped and the text [../] taken out.  Nothing makes that
    path a file of the media directory. *)
Theorem clean_pptx_image_relationships_resolve
    (path_exists : string -> bool) (pptx_exists : bool) (pptx_path : string)
    (package package' : Package) :
  clean_pptx path_exists pptx_exists pptx_path package = Ok package' ->
  forall rels_file root relationship type,
    (rels_file, Xml root) ∈ rels_dir package' ->
    Str.endswith rels_file ".rels" = true ->
    relationship ∈ findall_children Relationship_tag root ->
    attrib relationship !! "Type" = Some type ->
    Str.contains "image" type = true ->
    exists target,
      attrib relationship !! "Target" = Some target
      /\ path_exists (image_path target) = true
      /\ image_path target
         = "temp_pptx/ppt/" +:+ Str.remove_dotdot (Str.lstrip_slash target).
Proof.
  intros H rels_file root relationship type Hin Hext Hrel Htype Himg.
  apply clean_pptx_Ok in H as [_ Hall].
  apply list_elem_of_lookup in Hin as [i Hi].
  destruct (Forall2_lookup_r _ _ _ _ _ Hall Hi) as ([name content] & _ & Hrep).
  destruct Hrep as [Hname Hcases]. simpl in *. subst name.
  destruct Hcases as [[Hno _] | (_ & root0 & ids & kept & slide_root
                                  & _ & Hrepair & [= ->] & _)]; [congruence|].
  unfold findall_children in Hrel. simpl in Hrel.
  apply list_elem_of_In, filter_In in Hrel as [Hkept Htag].
  apply list_elem_of_In in Hkept. apply String.eqb_eq in Htag.
  apply kept_verdicts in Hrepair.
  rewrite Forall_forall in Hrepair.
  destruct (verdict_keep path_exists relationship (Hrepair _ Hkept) Htag
              type Htype Himg) as (target & Htarget & Hexists).
  exists target. split; [done|]. split; [done|]. apply image_path_below.
Qed.

(** C2, amended.  After a run of [clean_pptx] that ends normally, a
    picture element left in a slide document whose [embed] id was the id
    of a relationship of that slide's relationship document before the
    repair finds that id in the document after the repair: no picture is
    left that refers to a relationship the repair removed.  (A picture
    whose id was the id of no relationship to begin with is not looked
    at: the loop only compares with the ids it removed.) *)
Theorem clean_pptx_pictures_keep_their_relationship
    (path_exists : string -> bool) (pptx_exists : bool) (pptx_path : string)
    (package package' : Package) :
  clean_pptx path_exists pptx_exists pptx_path package = Ok package' ->
  forall i rels_file root root' slide_root pic id,
    rels_dir package !! i = Some (rels_file, Xml root) ->
    rels_dir package' !! i = Some (rels_file, Xml root') ->
    Str.endswith rels_file ".rels" = true ->
    slides_dir package' !! Str.remove_dot_rels rels_file
    = Some (Xml slide_root) ->
    pic ∈ findall_below pic_tag slide_root ->
    pic_embed pic = Some id ->
    id ∈ relationship_ids root ->
    id ∈ relationship_ids root'.
Proof.
  intros H i rels_file root root' slide_root pic id Hi Hi' Hext Hslide Hpic
    Hembed Hid.
  apply clean_pptx_Ok in H as [Hslides Hall].
  destruct (Forall2_lookup_lr _ _ _ _ _ _ Hall Hi Hi') as [_ Hcases].
  simpl in Hcases.
  destruct Hcases as [[Hno _] | (_ & root0 & ids & kept & slide_root0
      & [= <-] & Hrepair & [= ->] & Hslide0 & Hpics)]; [congruence|].
  rewrite Hslides, Hslide0 in Hslide. injection Hslide as ->.
  unfold relationship_ids, findall_children in *. simpl.
  apply list_elem_of_omap in Hid as (r & Hr & Hrid).
  apply list_elem_of_In, filter_In in Hr as [Hr Htag].
  apply list_elem_of_In in Hr.
  apply list_elem_of_omap.
  destruct (kept_or_recorded _ _ _ _ Hrepair r Hr)
    as [Hkept | (id' & Hv & Hin)].
  - exists r. split; [|done].
    apply list_elem_of_In, filter_In. split; [by apply list_elem_of_In | done].
  - apply verdict_remove in Hv as [_ Hrid'].
    assert (id' = id) as -> by congruence.
    unfold pic_embed in Hembed.
    destruct (find_below blip_tag pic) as [blip|] eqn:Hblip; [|done].
    simpl in Hembed.
    destruct (remove_pics_Ok _ _ Hpics pic blip Hpic Hblip)
      as (id'' & Hid'' & Hnot).
    assert (id'' = id) as -> by congruence.
    apply not_true_iff_false in Hnot. destruct Hnot.
    unfold Str.in_list. apply existsb_exists. exists id.
    split; [by apply list_elem_of_In | apply String.eqb_refl].
Qed.

(** C3.  The repair pass is idempotent: on a package [clean_pptx] has
    repaired, a second pass ends normally and leaves every relationship
    document and every slide document as it is, and in every relationship
    document of the slides it removes no relationship ([removed_ids] is
    empty, so no picture element is compared with a removed id). *)
Theorem reference_repair_idempotent
    (path_exists : string -> bool) (pptx_exists : bool) (pptx_path : string)
    (package package' : Package) :
  clean_pptx path_exists pptx_exists pptx_path package = Ok package' ->
  reference_repair path_exists package' = Ok package'
  /\ (forall rels_file root,
        (rels_file, Xml root) ∈ rels_dir package' ->
        Str.endswith rels_file ".rels" = true ->
        repair_relationships path_exists (children root)
        = Ok ([], children root)).
Proof.
  intros H. apply clean_pptx_Ok in H as [Hslides Hall].
  split.
  - unfold reference_repair.
    rewrite Hslides, (repair_files_again _ _ _ _ Hall). simpl.
    rewrite <- Hslides. by destruct package'.
  - intros rels_file root Hin Hext.
    apply list_elem_of_lookup in Hin as [i Hi].
    destruct (Forall2_lookup_r _ _ _ _ _ Hall Hi)
      as ([name content] & _ & Hname & Hcases).
    simpl in *. subst name.
    destruct Hcases as [[Hno _] | (_ & root0 & ids & kept & slide_root
                                    & _ & Hrepair & [= ->] & _)]; [congruence|].
    simpl. apply repair_relationships_kept. by eapply kept_verdicts.
Qed.

(** Picture elements are never removed: a pass that meets a picture whose
    [embed] id is among the removed ids does not end normally, because
    [pic.getparent()] raises on an [xml.etree.ElementTree] element.  On a
    deck whose one picture shows a missing image, [clean_pptx] raises
    [AttributeError]. *)
Theorem clean_pptx_cannot_remove_pictures :
  (forall removed_ids pics pic id,
     pic ∈ pics -> pic_embed pic = Some id -> id ∈ removed_ids ->
     exists e, remove_pics removed_ids pics = Raise e)
  /\ clean_pptx RepairExamples.disk true "deck.pptx"
       RepairExamples.broken_deck
     = raise AttributeError
         "'xml.etree.ElementTree.Element' object has no attribute 'getparent'".
Proof.
  split; [apply remove_pics_stops|]. vm_compute. reflexivity.
Qed.

Import RepairExamples.

(** The run on [deck]: the relationship to the missing [image2.png] goes,
    the rest stays. *)
Lemma clean_deck : clean_pptx disk true "deck.pptx" deck = Ok deck_repaired.
Proof. vm_compute. repeat split. Qed.

(** C1, amended, on [deck]: the relationship to [image1.png] is left,
    and resolves. *)
Lemma clean_pptx_image_relationships_resolve_witness :
  exists target,
    attrib image1 !! "Target" = Some target
    /\ disk (image_path target) = true
    /\ image_path target
       = "temp_pptx/ppt/" +:+ Str.remove_dotdot (Str.lstrip_slash target).
Proof.
  apply (clean_pptx_image_relationships_resolve disk true "deck.pptx"
           deck deck_repaired clean_deck
           "slide1.xml.rels" (relationships [layout; image1]) image1
           image_type).
  - by left.
  - reflexivity.
  - apply list_elem_of_In. vm_compute. right. left. reflexivity.
  - reflexivity.
  - reflexivity.
Defined.

(** C1 as stated fails: the run on [odd_deck] ends normally and leaves
    the image relationship with the empty target, which the script looks
    up at [temp_pptx/ppt/], the [ppt] directory itself and no file of the
    media directory. *)
Lemma clean_pptx_keeps_image_outside_media :
  clean_pptx odd_disk true "deck.pptx" odd_deck = Ok odd_deck
  /\ findall_children Relationship_tag (relationships [layout; no_target])
     = [layout; no_target]
  /\ attrib no_target !! "Type" = Some image_type
  /\ Str.contains "image" image_type = true
  /\ attrib no_target !! "Target" = Some ""
  /\ image_path "" = "temp_pptx/ppt/"
  /\ odd_disk (image_path "") = true
  /\ forall name, image_path "" <> "temp_pptx/ppt/media/" +:+ name.
Proof.
  split; [vm_compute; reflexivity|].
  split; [vm_compute; reflexivity|].
  split; [reflexivity|]. split; [reflexivity|]. split; [reflexivity|].
  split; [reflexivity|]. split; [reflexivity|].
  intros name H. vm_compute in H. discriminate H.
Qed.

(** C3 on [deck]: a second pass over the repaired package. *)
Lemma reference_repair_idempotent_witness :
  reference_repair disk deck_repaired = Ok deck_repaired
  /\ repair_relationships disk [layout; image1] = Ok ([], [layout; image1]).
Proof.
  destruct (reference_repair_idempotent disk true "deck.pptx"
              deck deck_repaired clean_deck) as [Hagain Hnone].
  split; [exact Hagain|].
  apply (Hnone "slide1.xml.rels" (relationships [layout; image1])).
  - by left.
  - reflexivity.
Defined.

(** C2, amended, on [deck]: the picture of [image1.png] keeps [rId2]. *)
Lemma clean_pptx_pictures_keep_their_relationship_witness :
  "rId2" ∈ relationship_ids (relationships [layout; image1]).
Proof.
  apply (clean_pptx_pictures_keep_their_relationship disk true "deck.pptx"
           deck deck_repaired clean_deck 0%nat "slide1.xml.rels"
           (relationships [layout; image1; image2])
           (relationships [layout; image1])
           (slide [picture "rId2"]) (picture "rId2") "rId2").
  - reflexivity.
  - reflexivity.
  - reflexivity.
  - vm_compute. reflexivity.
  - apply list_elem_of_In. vm_compute. left. reflexivity.
  - vm_compute. reflexivity.
  - apply list_elem_of_In. vm_compute. right. left. reflexivity.
Defined.

(** The loop stops at the one picture of [broken_deck]. *)
Lemma clean_pptx_cannot_remove_pictures_witness :
  exists e, remove_pics ["rId3"] [picture "rId3"] = Raise e.
Proof.
  apply (proj1 clean_pptx_cannot_remove_pictures ["rId3"] [picture "rId3"]
           (picture "rId3") "rId3").
  - by left.
  - vm_compute. reflexivity.
  - by left.
Defined.

(** C2 as stated fails: the run ends normally and leaves, in the slide, a
    picture whose [embed] id, [rId9], is the id of no relationship of the
    slide's relationship document. *)
Lemma clean_pptx_leaves_dangling_picture :
  clean_pptx (fun _ => true) true "deck.pptx" dangling_deck = Ok dangling_deck
  /\ findall_below pic_tag (slide [picture "rId9"]) = [picture "rId9"]
  /\ pic_embed (picture "rId9") = Some "rId9"
  /\ relationship_ids (relationships [layout; image1]) = ["rId1"; "rId2"].
Proof. vm_compute. repeat split. Qed.

End RepairProps.

Module StyleProps.
Import Style.

(** Induction on shapes, with the members of a group as hypotheses. *)
Lemma Shape_ind' (P : Shape -> Prop) :
  (forall i tf tb ty ss, Forall P ss -> P (mk_shape i tf tb ty ss)) ->
  forall s, P s.
Proof.
  intros H. fix IH 1. intros [i tf tb ty ss]. apply H.
  induction ss as [|c ss IHss]; constructor; [apply IH | exact IHss].
Qed.

Lemma set_shapes_same (s : Shape) : set_shapes s (shapes s) = s.
Proof. by destruct s. Qed.

Lemma count_shapes_eq (s : Shape) :
  count_shapes s = S (list_sum (map count_shapes (shapes s))).
Proof. by destruct s. Qed.

Lemma count_shapes_pos (s : Shape) : (1 <= count_shapes s)%nat.
Proof. rewrite count_shapes_eq. lia. Qed.

(** *** References *)

Lemma deref_app (s : Shape) (p q : ref) :
  deref s (p ++ q) = deref s p ≫= fun c => deref c q.
Proof.
  revert s. induction p as [|i p IH]; intros s; simpl; [done|].
  destruct (shapes s !! i) as [c|]; simpl; [apply IH | done].
Qed.

Lemma mutate_ext_at (f g : Shape -> Shape) (s c : Shape) (p : ref) :
  deref s p = Some c -> f c = g c -> mutate f s p = mutate g s p.
Proof.
  revert s. induction p as [|i p IH]; intros s Hc Hfg; simpl in *.
  - congruence.
  - f_equal. apply list_alter_ext; [|done].
    intros x Hx. rewrite Hx in Hc. simpl in Hc. by apply IH.
Qed.

Lemma mutate_id (f : Shape -> Shape) (s : Shape) (p : ref) :
  (forall c, f c = c) -> mutate f s p = s.
Proof.
  intros Hf. revert s. induction p as [|i p IH]; intros s; simpl; [done|].
  rewrite list_alter_id by done. apply set_shapes_same.
Qed.

Lemma mutate_id_at (f : Shape -> Shape) (s c : Shape) (p : ref) :
  deref s p = Some c -> f c = c -> mutate f s p = s.
Proof.
  intros Hc Hf. rewrite (mutate_ext_at f id s c p Hc Hf).
  by apply mutate_id.
Qed.

(** A reference that leads nowhere changes nothing. *)
Lemma mutate_nowhere (f : Shape -> Shape) (s : Shape) (p : ref) :
  deref s p = None -> mutate f s p = s.
Proof.
  revert s. induction p as [|i p IH]; intros s Hc; simpl in *; [done|].
  transitivity (set_shapes s (shapes s)); [|apply set_shapes_same]. f_equal.
  transitivity (alter id i (shapes s)); [|by apply list_alter_id].
  apply list_alter_ext; [|done].
  intros x Hx. rewrite Hx in Hc. simpl in Hc. by apply IH.
Qed.

Lemma mutate_app (f : Shape -> Shape) (s : Shape) (p q : ref) :
  mutate f s (p ++ q) = mutate (fun c => mutate f c q) s p.
Proof.
  revert s. induction p as [|i p IH]; intros s; simpl; [done|].
  f_equal. apply list_alter_ext; [|done]. intros x _. apply IH.
Qed.

Lemma mutate_mutate (f g : Shape -> Shape) (s : Shape) (p : ref) :
  mutate f (mutate g s p) p = mutate (f ∘ g) s p.
Proof.
  revert s. induction p as [|i p IH]; intros s; simpl; [done|].
  destruct s as [n tf tb ty ss]. simpl. unfold set_shapes. simpl. f_equal.
  rewrite list_alter_alter_eq. apply list_alter_ext; [|done].
  intros x _. apply IH.
Qed.

(** Reading the members of a list by index is reading the list. *)
Lemma map_lookup_seq {A B} (g : option A -> B) (l : list A) :
  map (fun i => g (l !! i)) (seq 0 (length l)) = map (fun x => g (Some x)) l.
Proof.
  induction l as [|x l IH]; [done|].
  simpl. f_equal. rewrite <- seq_shift, map_map. exact IH.
Qed.

Lemma foldr_alter_seq {A} (g : A -> A) (l : list A) :
  foldr (fun i k => alter g i k) l (seq 0 (length l)) = map g l.
Proof.
  induction l as [|x l IH]; [done|].
  simpl. rewrite <- seq_shift.
  assert (Htail : forall idx,
    foldr (fun i k => alter g i k) (x :: l) (map S idx)
    = x :: foldr (fun i k => alter g i k) l idx).
  { induction idx as [|i idx IHidx]; [done|]. simpl. by rewrite IHidx. }
  rewrite Htail, IH. done.
Qed.

(** *** The work still to do *)

Lemma weight_pos (tree : Shape) (p : ref) : (1 <= weight tree p)%nat.
Proof.
  unfold weight. destruct (deref tree p); simpl; [apply count_shapes_pos | lia].
Qed.

Lemma work_snoc (tree : Shape) (stack : list ref) (p : ref) :
  work (tree, stack ++ [p]) = (work (tree, stack) + weight tree p)%nat.
Proof. unfold work. simpl. rewrite map_app, list_sum_app. simpl. lia. Qed.

Lemma work_app (tree : Shape) (stack more : list ref) :
  work (tree, stack ++ more) = (work (tree, stack) + work (tree, more))%nat.
Proof. unfold work. simpl. by rewrite map_app, list_sum_app. Qed.

Lemma work_members (tree shape : Shape) (p : ref) :
  deref tree p = Some shape ->
  S (work (tree, members p shape)) = count_shapes shape.
Proof.
  intros Hp. rewrite count_shapes_eq. f_equal.
  unfold work, members. simpl. rewrite map_map.
  etransitivity;
    [|exact (f_equal list_sum
               (map_lookup_seq (from_option count_shapes 1%nat)
                  (shapes shape)))].
  f_equal. apply map_ext. intros i. unfold weight.
  rewrite deref_app, Hp. simpl. by destruct (shapes shape !! i).
Qed.

Section Traversal.

Variable on_paragraph : Paragraph -> Paragraph.

Local Abbreviation write_text_frame := (Style.write_text_frame on_paragraph).
Local Abbreviation write_table := (Style.write_table on_paragraph).
Local Abbreviation step := (Style.step on_paragraph).
Local Abbreviation while_loop := (Style.while_loop on_paragraph).
Local Abbreviation process_slide := (Style.process_slide on_paragraph).
Local Abbreviation restyle := (Style.restyle on_paragraph).
Local Abbreviation pending := (Style.pending on_paragraph).

(** Writing to a shape leaves its members, and so the count of every
    shape of the tree, as they were. *)
Lemma count_shapes_mutate (f : Shape -> Shape) (tree : Shape) (p : ref) :
  (forall s, shapes (f s) = shapes s) ->
  count_shapes (mutate f tree p) = count_shapes tree.
Proof.
  intros Hf. revert tree. induction p as [|i p IH]; intros tree; simpl.
  - by rewrite !count_shapes_eq, Hf.
  - rewrite !count_shapes_eq. destruct tree as [n tf tb ty ss]. simpl.
    f_equal. f_equal. revert i. induction ss as [|c ss IHss]; intros [|i];
      simpl; try done.
    + by rewrite IH.
    + f_equal. apply IHss.
Qed.

Lemma weight_mutate (f : Shape -> Shape) (tree : Shape) (p q : ref) :
  (forall s, shapes (f s) = shapes s) ->
  weight (mutate f tree p) q = weight tree q.
Proof.
  intros Hf. unfold weight. revert tree p.
  induction q as [|j q IH]; intros tree p.
  - simpl. by apply count_shapes_mutate.
  - destruct p as [|i p]; simpl.
    + by rewrite Hf.
    + destruct tree as [n tf tb ty ss]. simpl.
      destruct (decide (i = j)) as [->|Hne].
      * rewrite list_lookup_alter_eq.
        destruct (ss !! j) as [c|]; simpl; [apply IH | done].
      * by rewrite list_lookup_alter_ne.
Qed.

Lemma work_mutate (f : Shape -> Shape) (tree : Shape) (p : ref)
    (stack : list ref) :
  (forall s, shapes (f s) = shapes s) ->
  work (mutate f tree p, stack) = work (tree, stack).
Proof.
  intros Hf. unfold work. simpl. f_equal. apply map_ext.
  intros q. by apply weight_mutate.
Qed.

Lemma pop_snoc {A} (l : list A) (x : A) : pop (l ++ [x]) = Some (l, x).
Proof. unfold pop. by rewrite rev_unit, rev_involutive. Qed.

Lemma pop_None {A} (l : list A) : pop l = None -> l = [].
Proof.
  destruct l as [|x l] using rev_ind; [done|]. by rewrite pop_snoc.
Qed.

(** Every turn of the loop takes work away. *)
Lemma step_decreases (st st' : Shape * list ref) :
  step st = Some st' -> (work st' < work st)%nat.
Proof.
  destruct st as [tree stack]. unfold Style.step.
  destruct stack as [|p rest _] using rev_ind; [done|].
  rewrite pop_snoc, work_snoc. pose proof (weight_pos tree p) as Hpos.
  destruct (deref tree p) as [shape|] eqn:Hp; [|intros [= <-]; lia].
  destruct (has_text_frame shape).
  { intros [= <-]. rewrite work_mutate by (by intros []). lia. }
  destruct (has_table shape).
  { intros [= <-]. rewrite work_mutate by (by intros []). lia. }
  destruct (shape_type shape =? 6); intros [= <-]; [|lia].
  rewrite work_app. pose proof (work_members tree shape p Hp) as Hm.
  unfold weight in *. rewrite Hp in *. simpl in *. lia.
Qed.

(** *** What is still to be done, as a tree *)

Lemma restyle_text_frame (s : Shape) :
  has_text_frame s = true -> restyle s = write_text_frame s.
Proof. destruct s as [n [tf|] tb ty ss]; [done | by intros [=]]. Qed.

Lemma restyle_table (s : Shape) :
  has_text_frame s = false -> has_table s = true ->
  restyle s = write_table s.
Proof.
  destruct s as [n [tf|] [tb|] ty ss]; try done; by intros [=] || intros _ [=].
Qed.

Lemma restyle_group (s : Shape) :
  has_text_frame s = false -> has_table s = false -> shape_type s = 6 ->
  restyle s = set_shapes s (map restyle (shapes s)).
Proof.
  destruct s as [n [tf|] [tb|] ty ss]; try (by intros [=] || intros _ [=]).
  simpl. by intros _ _ ->.
Qed.

Lemma restyle_other (s : Shape) :
  has_text_frame s = false -> has_table s = false -> shape_type s <> 6 ->
  restyle s = s.
Proof.
  destruct s as [n [tf|] [tb|] ty ss]; try (by intros [=] || intros _ [=]).
  simpl. intros _ _ Hty%Z.eqb_neq. by rewrite Hty.
Qed.

(** Treating the members of a shape one by one is treating the shape's
    list of members. *)
Lemma mutate_members (g : Shape -> Shape) (tree shape : Shape) (p : ref) :
  deref tree p = Some shape ->
  foldr (fun q t => mutate g t q) tree (members p shape)
  = mutate (fun s => set_shapes s (map g (shapes s))) tree p.
Proof.
  intros Hp. unfold members.
  transitivity (mutate (fun s => set_shapes s
      (foldr (fun i k => alter g i k) (shapes s)
             (seq 0 (length (shapes shape))))) tree p).
  - generalize (seq 0 (length (shapes shape))) as idx.
    induction idx as [|i idx IH]; simpl.
    + symmetry. apply mutate_id. intros c. apply set_shapes_same.
    + rewrite IH, mutate_app, mutate_mutate.
      apply (mutate_ext_at _ _ _ shape); [done|]. by destruct shape.
  - apply (mutate_ext_at _ _ _ shape); [done|].
    by rewrite foldr_alter_seq.
Qed.

(** A turn of the loop does part of what was pending and leaves the rest
    pending. *)
Lemma step_pending (st st' : Shape * list ref) :
  step st = Some st' -> pending st' = pending st.
Proof.
  destruct st as [tree stack]. unfold Style.step.
  destruct stack as [|p rest _] using rev_ind; [done|].
  rewrite pop_snoc. unfold pending at 2. simpl. rewrite foldr_app. simpl.
  destruct (deref tree p) as [shape|] eqn:Hp.
  2:{ intros [= <-]. by rewrite mutate_nowhere. }
  destruct (has_text_frame shape) eqn:Htf.
  { intros [= <-]. unfold pending. simpl. f_equal.
    apply (mutate_ext_at _ _ _ shape); [done|].
    symmetry. by apply restyle_text_frame. }
  destruct (has_table shape) eqn:Htb.
  { intros [= <-]. unfold pending. simpl. f_equal.
    apply (mutate_ext_at _ _ _ shape); [done|].
    symmetry. by apply restyle_table. }
  destruct (shape_type shape =? 6) eqn:Hty; intros [= <-]; unfold pending;
    simpl.
  - apply Z.eqb_eq in Hty. rewrite foldr_app. f_equal.
    rewrite (mutate_members _ _ shape) by done.
    apply (mutate_ext_at _ _ _ shape); [done|].
    symmetry. by apply restyle_group.
  - apply Z.eqb_neq in Hty. f_equal. symmetry.
    apply (mutate_id_at _ _ shape); [done|]. by apply restyle_other.
Qed.

(** With as many turns as there is work, the loop ends on an empty list,
    and nothing is pending any more. *)
Lemma while_loop_finishes (fuel : nat) (st : Shape * list ref) :
  (work st <= fuel)%nat ->
  (while_loop fuel st).2 = [] /\ (while_loop fuel st).1 = pending st.
Proof.
  revert st. induction fuel as [|fuel IH]; intros st Hwork; simpl.
  - destruct st as [tree [|p stack]]; [done|].
    unfold work in Hwork. simpl in Hwork.
    pose proof (weight_pos tree p). lia.
  - destruct (step st) as [st'|] eqn:Hstep.
    + rewrite <- (step_pending _ _ Hstep). apply IH.
      apply step_decreases in Hstep. lia.
    + destruct st as [tree stack]. unfold Style.step in Hstep.
      destruct (pop stack) as [[rest p]|] eqn:Hpop.
      * destruct (deref tree p) as [shape|]; [|done].
        destruct (has_text_frame shape); [done|].
        destruct (has_table shape); [done|].
        by destruct (shape_type shape =? 6).
      * apply pop_None in Hpop as ->. done.
Qed.

(** The loop over one slide gives every top-level shape its treatment. *)
Lemma process_slide_restyle (slide : Slide) :
  process_slide slide = mk_slide (map restyle (slide_shapes slide)).
Proof.
  unfold Style.process_slide.
  destruct (while_loop_finishes (count_shapes (slide_tree slide))
              (slide_tree slide, members [] (slide_tree slide))) as [_ ->].
  - rewrite <- (work_members (slide_tree slide) (slide_tree slide) []) by done.
    lia.
  - unfold pending. simpl.
    by rewrite (mutate_members _ _ (slide_tree slide)).
Qed.

(** *** Shapes by position, after the pass *)

Lemma deref_restyle (s shape : Shape) (p : ref) :
  deref s p = Some shape ->
  exists shape', deref (restyle s) p = Some shape'
                 /\ (shape' = shape \/ shape' = restyle shape).
Proof.
  revert s. induction p as [|i p IH]; intros s Hp.
  - injection Hp as ->. eauto.
  - destruct s as [n [tf|] [tb|] ty ss]; simpl in *; eauto.
    destruct (ty =? 6); simpl; eauto.
    rewrite list_lookup_fmap.
    destruct (ss !! i) as [c|]; simpl in *; [by apply IH | done].
Qed.

Lemma deref_restyle_reached (s shape : Shape) (p : ref) :
  groups_above s p -> deref s p = Some shape ->
  deref (restyle s) p = Some (restyle shape).
Proof.
  revert s. induction p as [|i p IH]; intros s Hup Hp.
  - by injection Hp as ->.
  - destruct Hup as [(Htf & Htb & Hty) Hup].
    rewrite (restyle_group s Htf Htb Hty).
    destruct s as [n tf tb ty ss]. simpl in *.
    rewrite list_lookup_fmap.
    destruct (ss !! i) as [c|]; simpl in *; [by apply IH | done].
Qed.

Lemma restyle_slide_tree (slide : Slide) :
  restyle (slide_tree slide)
  = slide_tree (mk_slide (map restyle (slide_shapes slide))).
Proof. done. Qed.

Lemma kept_as_is_restyle (reached : Prop) (shape shape' : Shape) :
  has_text_frame shape = false -> has_table shape = false ->
  shape' = shape \/ shape' = restyle shape ->
  (reached -> shape' = restyle shape) ->
  kept_as_is on_paragraph reached shape shape'.
Proof.
  intros Htf Htb Hcases Hreached. split.
  - intros Hty. rewrite (restyle_other shape Htf Htb Hty) in Hcases.
    by destruct Hcases.
  - intros Hty. rewrite (restyle_group shape Htf Htb Hty) in Hcases, Hreached.
    destruct shape as [n [tf|] [tb|] ty ss]; try done. simpl in *.
    destruct Hcases as [->| ->]; simpl; repeat split; try done.
    + intros Hr. by injection (Hreached Hr) as <-.
    + by rewrite length_map.
Qed.

(** The frame of one slide's loop. *)
Lemma process_slide_frame (slide : Slide) (p : ref) (shape : Shape) :
  shape_at slide p = Some shape ->
  has_text_frame shape = false -> has_table shape = false ->
  exists shape',
    shape_at (process_slide slide) p = Some shape'
    /\ kept_as_is on_paragraph (groups_above (slide_tree slide) p)
         shape shape'.
Proof.
  intros Hp Htf Htb. rewrite process_slide_restyle.
  destruct p as [|i p]; [done|]. unfold shape_at in *.
  rewrite <- restyle_slide_tree.
  destruct (deref_restyle _ _ _ Hp) as (shape' & Hp' & Hcases).
  exists shape'. split; [done|].
  apply kept_as_is_restyle; try done.
  intros Hup. rewrite (deref_restyle_reached _ _ _ Hup Hp) in Hp'.
  by injection Hp' as <-.
Qed.

Lemma map_process_slide_frame (presentation : Presentation) :
  frame on_paragraph presentation (map process_slide presentation).
Proof.
  intros k slide p shape Hk Hp Htf Htb.
  destruct (process_slide_frame slide p shape Hp Htf Htb)
    as (shape' & Hp' & Hkept).
  exists (process_slide slide), shape'. split; [|done].
  by rewrite list_lookup_fmap, Hk.
Qed.

(** *** The runs of a presentation, after the pass *)

Section Runs.

Variable on_run : Run -> Run.
Hypothesis on_paragraph_runs :
  forall paragraph, runs (on_paragraph paragraph) = map on_run (runs paragraph).

Lemma flat_map_map {A B C} (f : B -> list C) (h : A -> B) (l : list A) :
  flat_map f (map h l) = flat_map (fun x => f (h x)) l.
Proof. induction l as [|x l IH]; simpl; [done | by rewrite IH]. Qed.

Lemma map_flat_map {A B C} (f : A -> list B) (h : B -> C) (l : list A) :
  map h (flat_map f l) = flat_map (fun x => map h (f x)) l.
Proof.
  induction l as [|x l IH]; simpl; [done | by rewrite map_app, IH].
Qed.

Lemma text_frame_runs_on (tf : TextFrame) :
  text_frame_runs (Style.on_text_frame on_paragraph tf)
  = map on_run (text_frame_runs tf).
Proof.
  unfold text_frame_runs. simpl. rewrite flat_map_map, map_flat_map.
  apply flat_map_ext. intros paragraph. apply on_paragraph_runs.
Qed.

Lemma table_runs_on (t : Table) :
  table_runs (Style.on_table on_paragraph t) = map on_run (table_runs t).
Proof.
  unfold table_runs. simpl. rewrite flat_map_map, map_flat_map.
  apply flat_map_ext. intros row. simpl.
  rewrite flat_map_map, map_flat_map.
  apply flat_map_ext. intros cell. apply text_frame_runs_on.
Qed.

Lemma shape_runs_restyle (s : Shape) :
  well_formed s = true ->
  shape_runs (restyle s) = map on_run (shape_runs s).
Proof.
  induction s as [n tf tb ty ss IH] using Shape_ind'. intros Hwf.
  destruct tf as [tf|], tb as [tb|], ss as [|c ss]; try done; simpl in *.
  - by rewrite text_frame_runs_on, !app_nil_r.
  - by rewrite table_runs_on, !app_nil_r.
  - by destruct (ty =? 6).
  - apply andb_true_iff in Hwf as [-> Hwf].
    apply andb_true_iff in Hwf as [Hc Hss]. simpl.
    apply Forall_cons in IH as [IHc IHss].
    rewrite (IHc Hc), map_app. f_equal.
    rewrite flat_map_map, map_flat_map.
    clear IHc Hc. induction ss as [|d ss IHd]; [done|]. simpl in *.
    apply andb_true_iff in Hss as [Hd Hss].
    apply Forall_cons in IHss as [IH1 IH2].
    rewrite (IH1 Hd). f_equal. by apply IHd.
Qed.

Lemma presentation_runs_restyle (presentation : Presentation) :
  well_formed_presentation presentation = true ->
  presentation_runs (map process_slide presentation)
  = map on_run (presentation_runs presentation).
Proof.
  rewrite (map_ext _ _ process_slide_restyle).
  unfold presentation_runs, well_formed_presentation.
  induction presentation as [|[ss] presentation IH]; [done|]. simpl.
  intros [Hslide Hrest]%andb_true_iff.
  rewrite map_app, IH by done. f_equal. clear IH Hrest.
  induction ss as [|c ss IHc]; [done|]. simpl in *.
  apply andb_true_iff in Hslide as [Hc Hss].
  rewrite map_app, shape_runs_restyle by done. f_equal. by apply IHc.
Qed.

End Runs.

End Traversal.

(** *** The loop with its exceptions *)

Section Validation.

Variable on_paragraph : Paragraph -> Paragraph.
Variable raises : Paragraph -> option exn.

(** A loop that ends normally has taken the turns of [while_loop]. *)
Lemma while_loop_checked_Ok (fuel : nat) (st st' : Shape * list ref) :
  while_loop_checked on_paragraph raises fuel st = Ok st' ->
  st' = while_loop on_paragraph fuel st.
Proof.
  revert st. induction fuel as [|fuel IH]; intros st; simpl.
  - by intros [= <-].
  - destruct (turn_raises raises st); [done|].
    destruct (step on_paragraph st) as [st1|]; [apply IH | by intros [= <-]].
Qed.

Lemma process_slide_checked_Ok (slide slide' : Slide) :
  process_slide_checked on_paragraph raises slide = Ok slide' ->
  slide' = process_slide on_paragraph slide.
Proof.
  unfold process_slide_checked, process_slide. intros H.
  apply bind_Ok in H as (st & Hst & [= <-]).
  by rewrite (while_loop_checked_Ok _ _ _ Hst).
Qed.

Lemma for_slides_Ok (presentation presentation' : Presentation) :
  for_slides on_paragraph raises presentation = Ok presentation' ->
  presentation' = map (process_slide on_paragraph) presentation.
Proof.
  unfold for_slides. revert presentation'.
  induction presentation as [|slide presentation IH]; intros presentation' H.
  - by injection H as <-.
  - simpl in H. apply bind_Ok in H as (slide' & Hslide & H).
    apply bind_Ok in H as (rest & Hrest & [= <-]).
    simpl. f_equal; [by apply process_slide_checked_Ok | by apply IH].
Qed.

(** A treatment that raises nowhere gets through. *)
Lemma first_raise_None (ps : list Paragraph) :
  (forall paragraph, raises paragraph = None) -> first_raise raises ps = None.
Proof.
  intros Hnone. induction ps as [|paragraph ps IH]; [done|]. simpl.
  by rewrite Hnone.
Qed.

Lemma turn_raises_None (st : Shape * list ref) :
  (forall paragraph, raises paragraph = None) -> turn_raises raises st = None.
Proof.
  intros Hnone. destruct st as [tree stack]. unfold turn_raises.
  destruct (pop stack) as [[rest p]|]; [|done].
  destruct (deref tree p) as [shape|]; [|done].
  destruct (has_text_frame shape).
  { destruct (text_frame shape); [by apply first_raise_None | done]. }
  destruct (has_table shape); [|done].
  destruct (table shape); [by apply first_raise_None | done].
Qed.

Lemma while_loop_checked_total (fuel : nat) (st : Shape * list ref) :
  (forall paragraph, raises paragraph = None) ->
  while_loop_checked on_paragraph raises fuel st
  = Ok (while_loop on_paragraph fuel st).
Proof.
  intros Hnone. revert st. induction fuel as [|fuel IH]; intros st; [done|].
  simpl. rewrite turn_raises_None by done.
  destruct (step on_paragraph st) as [st1|]; [apply IH | done].
Qed.

Lemma process_slide_checked_total (slide : Slide) :
  (forall paragraph, raises paragraph = None) ->
  process_slide_checked on_paragraph raises slide
  = Ok (process_slide on_paragraph slide).
Proof.
  intros Hnone. unfold process_slide_checked, process_slide.
  by rewrite while_loop_checked_total.
Qed.

Lemma for_slides_total (presentation : Presentation) :
  (forall paragraph, raises paragraph = None) ->
  for_slides on_paragraph raises presentation
  = Ok (map (process_slide on_paragraph) presentation).
Proof.
  intros Hnone. unfold for_slides.
  induction presentation as [|slide presentation IH]; [done|]. simpl.
  rewrite process_slide_checked_total by done. simpl. by rewrite IH.
Qed.

End Validation.

(** What the font pass gives when it ends normally. *)
Lemma modify_presentation_font_Ok (presentation presentation' : Presentation)
    (font_name : string) (font_size spacing_size : Z) (stdin : list string) :
  modify_presentation_font presentation font_name font_size spacing_size stdin
  = Ok presentation' ->
  exists change,
    ask_change_font_size stdin = Ok change
    /\ presentation'
       = map (process_slide
                (font_paragraph font_name font_size spacing_size change))
             presentation.
Proof.
  unfold modify_presentation_font. intros H.
  apply bind_Ok in H as (change & Hask & H). exists change.
  split; [done|]. by apply for_slides_Ok in H.
Qed.

(** The values the line spacing takes. *)
Lemma line_spacing_error_None (line_spacing_value : Q) :
  line_spacing_error line_spacing_value = None
  <-> (0 <= line_spacing_value)%Q /\ (line_spacing_value <= 132)%Q.
Proof.
  unfold line_spacing_error. rewrite <- !Qle_bool_iff.
  destruct (Qle_bool 0 _), (Qle_bool _ 132); simpl; split; try done;
    intros [? ?]; done.
Qed.

(** The loop with its explicit list of shapes still to process ends, the
    list empty, within as many turns as the slide has shapes, and leaves
    the slide as the depth-first recursion over nested groups does. *)
Theorem explicit_stack_is_recursion
    (on_paragraph : Paragraph -> Paragraph) (slide : Slide) :
  (while_loop on_paragraph (count_shapes (slide_tree slide))
     (slide_tree slide, members [] (slide_tree slide))).2 = []
  /\ process_slide on_paragraph slide
     = mk_slide (map (restyle on_paragraph) (slide_shapes slide)).
Proof.
  split; [|apply process_slide_restyle].
  apply while_loop_finishes.
  rewrite <- (work_members (slide_tree slide) (slide_tree slide) []) by done.
  lia.
Qed.

(** The prompt ends on the first answer that is yes or no. *)
Lemma ask_change_font_size_Ok (stdin : list string) (change : bool) :
  ask_change_font_size stdin = Ok change ->
  exists ignored answer rest,
    stdin = ignored ++ answer :: rest
    /\ Forall (fun a => a <> "yes" /\ a <> "no") ignored
    /\ (answer = "yes" /\ change = true \/ answer = "no" /\ change = false).
Proof.
  induction stdin as [|line stdin IH]; [done|]. simpl.
  destruct (String.eqb_spec line "yes") as [->|Hyes]; simpl.
  { intros [= <-]. exists [], "yes", stdin. eauto. }
  destruct (String.eqb_spec line "no") as [->|Hno]; simpl.
  { intros [= <-]. exists [], "no", stdin. eauto. }
  intros H. destruct (IH H) as (ignored & answer & rest & -> & Hall & Hans).
  exists (line :: ignored), answer, rest. split; [done|]. split; [|done].
  by constructor.
Qed.

Lemma set_run_font_runs (font_name : string) (font_size spacing_size : Z)
    (change : bool) (paragraph : Paragraph) :
  runs (font_paragraph font_name font_size spacing_size change paragraph)
  = map (set_run_font font_name font_size spacing_size change)
        (runs paragraph).
Proof. done. Qed.

(** After [modify_presentation_font] has returned, every run of every
    text frame and of every table cell of the presentation, at any depth
    of grouping, has the colour black (RGB 0, 0, 0) and is not italic,
    whatever its font was before, and has the character spacing it had:
    the assignment to [run.font.space] changes nothing.  Its size is
    [Pt(font_size)] when the answer to the prompt was yes, and is the size
    it had when the answer was no.  The presentation is one python-pptx
    can hold ([well_formed_presentation]). *)
Theorem modify_presentation_font_normalizes
    (presentation presentation' : Presentation) (font_name : string)
    (font_size spacing_size : Z) (stdin : list string) :
  well_formed_presentation presentation = true ->
  modify_presentation_font presentation font_name font_size spacing_size stdin
  = Ok presentation' ->
  exists ignored answer rest,
    stdin = ignored ++ answer :: rest
    /\ Forall (fun a => a <> "yes" /\ a <> "no") ignored
    /\ (answer = "yes" \/ answer = "no")
    /\ (forall run, run ∈ presentation_runs presentation' ->
          color_rgb (font run) = Some (RGBColor 0 0 0)
          /\ italic (font run) = Some false)
    /\ map (fun run => space (font run)) (presentation_runs presentation')
       = map (fun run => space (font run)) (presentation_runs presentation)
    /\ (answer = "yes" ->
          forall run, run ∈ presentation_runs presentation' ->
            size (font run) = Some (Pt font_size))
    /\ (answer = "no" ->
          map (fun run => size (font run)) (presentation_runs presentation')
          = map (fun run => size (font run)) (presentation_runs presentation)).
Proof.
  intros Hwf H.
  apply modify_presentation_font_Ok in H as (change & Hask & ->).
  apply ask_change_font_size_Ok in Hask
    as (ignored & answer & rest & -> & Hall & Hans).
  exists ignored, answer, rest.
  rewrite (presentation_runs_restyle _ _
             (set_run_font_runs font_name font_size spacing_size change)
             presentation Hwf).
  repeat split; try done.
  - destruct Hans as [[? _]|[? _]]; eauto.
  - apply list_elem_of_In, in_map_iff in H as (r & <- & _). done.
  - apply list_elem_of_In, in_map_iff in H as (r & <- & _). done.
  - by rewrite map_map.
  - intros -> run Hrun. destruct Hans as [[_ ->]|[[=] _]].
    apply list_elem_of_In, in_map_iff in Hrun as (r & <- & _). done.
  - intros ->. destruct Hans as [[[=] _]|[_ ->]].
    rewrite map_map. done.
Qed.

(** C9.  Both passes, the one over fonts and the one over line spacing,
    leave every shape that has neither a text frame nor a table where it
    is, and as it is when it is no group; a group keeps its own
    properties and the number of its members, and where the loop comes to
    it (all that is above it is a group) its members, nested groups
    included, have had the treatment of the pass.  This is so of every
    run of a pass that ends normally, and the pass over line spacing ends
    normally for every value python-pptx takes (0 to 132). *)
Theorem style_passes_keep_other_shapes (presentation : Presentation) :
  (forall font_name font_size spacing_size stdin presentation',
     modify_presentation_font presentation font_name font_size spacing_size
       stdin = Ok presentation' ->
     exists change_font_size,
       frame (font_paragraph font_name font_size spacing_size change_font_size)
         presentation presentation')
  /\ (forall stored line_spacing_value presentation',
        modify_presentation_spacing stored presentation line_spacing_value
        = Ok presentation' ->
        frame (spacing_paragraph (stored line_spacing_value)) presentation
          presentation')
  /\ (forall stored line_spacing_value,
        (0 <= line_spacing_value)%Q -> (line_spacing_value <= 132)%Q ->
        exists presentation',
          modify_presentation_spacing stored presentation line_spacing_value
          = Ok presentation').
Proof.
  split; [|split].
  - intros font_name font_size spacing_size stdin presentation' H.
    apply modify_presentation_font_Ok in H as (change & _ & ->).
    exists change. apply map_process_slide_frame.
  - intros stored v presentation' H. apply for_slides_Ok in H as ->.
    apply map_process_slide_frame.
  - intros stored v H0 H132. eexists. apply for_slides_total.
    intros _. by apply line_spacing_error_None.
Qed.

Import StyleExamples.

(** The pass over [demo], the prompt answered "maybe" and then "yes". *)
Lemma modify_presentation_font_normalizes_witness :
  exists ignored answer rest,
    ["maybe"; "yes"] = ignored ++ answer :: rest
    /\ Forall (fun a => a <> "yes" /\ a <> "no") ignored
    /\ (answer = "yes" \/ answer = "no")
    /\ (forall run,
          run ∈ presentation_runs [demo_slide (braille (Some (Pt 14)))] ->
          color_rgb (font run) = Some (RGBColor 0 0 0)
          /\ italic (font run) = Some false)
    /\ map (fun run => space (font run))
           (presentation_runs [demo_slide (braille (Some (Pt 14)))])
       = map (fun run => space (font run)) (presentation_runs demo)
    /\ (answer = "yes" ->
          forall run,
            run ∈ presentation_runs [demo_slide (braille (Some (Pt 14)))] ->
            size (font run) = Some (Pt 14))
    /\ (answer = "no" ->
          map (fun run => size (font run))
              (presentation_runs [demo_slide (braille (Some (Pt 14)))])
          = map (fun run => size (font run)) (presentation_runs demo)).
Proof.
  apply (modify_presentation_font_normalizes demo
           [demo_slide (braille (Some (Pt 14)))] "Braille" 14 50
           ["maybe"; "yes"]).
  - reflexivity.
  - reflexivity.
Defined.

(** C8.  The pass over [demo] with the spacing 50, the prompt answered
    yes: it ends normally, and the two runs of the slide have the
    character spacing they had, none, and not [Pt(50)]. *)
Lemma modify_presentation_font_drops_spacing :
  modify_presentation_font demo "Braille" 14 50 ["yes"]
  = Ok [demo_slide (braille (Some (Pt 14)))]
  /\ map (fun run => space (font run)) (presentation_runs demo) = [None; None]
  /\ map (fun run => space (font run))
         (presentation_runs [demo_slide (braille (Some (Pt 14)))])
     = [None; None].
Proof. repeat split. Qed.

(** C9 on [demo]: the picture inside the group, after the pass over line
    spacing. *)
Lemma style_passes_keep_other_shapes_witness :
  exists slide' shape',
    map (process_slide (spacing_paragraph (five_decimals 1.2))) demo !! 2%nat
    = None
    /\ map (process_slide (spacing_paragraph (five_decimals 1.2))) demo
       !! 0%nat = Some slide'
    /\ shape_at slide' [2; 1]%nat = Some shape'
    /\ shape' = logo.
Proof.
  destruct (proj1 (proj2 (style_passes_keep_other_shapes demo))
              five_decimals 1.2%Q
              (map (process_slide (spacing_paragraph (five_decimals 1.2)))
                   demo)
              eq_refl 0%nat (demo_slide red_italic) [2; 1]%nat logo)
    as (slide' & shape' & Hslide & Hshape & Hsame & _);
    try reflexivity.
  exists slide', shape'. repeat split; try done.
  by apply Hsame.
Defined.

End StyleProps.

(** ** The texts ascii_to_braille leaves alone *)

Module GuardProps.
Import Braille BrailleProps.

(** What is left once leading white space is dropped does not begin with
    a white-space character of one byte. *)
Lemma drop_space_head (sp2 : ascii -> ascii -> bool)
    (sp3 : ascii -> ascii -> ascii -> bool) (s : string) (a : ascii)
    (r : string) :
  Str.drop_space sp2 sp3 s = String a r -> Str.space1 a = false.
Proof.
  remember (String.length s) as n eqn:Hn. revert s Hn.
  induction n as [n IH] using lt_wf_ind. intros s Hn.
  destruct s as [|c s]; [done|]. simpl.
  destruct (Str.space1 c) eqn:Hc.
  { apply (IH (String.length s)); simpl in Hn; [lia | done]. }
  destruct s as [|c2 s]; [by intros [= <- _]|].
  destruct (sp2 c c2).
  { apply (IH (String.length s)); simpl in Hn; [lia | done]. }
  destruct s as [|c3 s]; [by intros [= <- _]|].
  destruct (sp3 c c2 c3).
  { apply (IH (String.length s)); simpl in Hn; [lia | done]. }
  by intros [= <- _].
Qed.

Lemma rev_app_length (s acc : string) :
  String.length (String.rev_app s acc)
  = (String.length s + String.length acc)%nat.
Proof.
  revert acc. induction s as [|c s IH]; intros acc; simpl; [done|].
  rewrite IH. simpl. lia.
Qed.

Lemma rev_single (s : string) (a : ascii) :
  String.rev s = String a "" -> s = String a "".
Proof.
  intros H. pose proof (rev_app_length s "") as Hlen.
  unfold String.rev in H. rewrite H in Hlen. simpl in Hlen.
  destruct s as [|c [|c2 s]]; simpl in *; try lia. done.
Qed.

(** A stripped text is never a single space. *)
Lemma strip_not_space (text : string) : Str.strip text <> " ".
Proof.
  unfold Str.strip, Str.rstrip. intros H. apply rev_single in H.
  by apply drop_space_head in H.
Qed.

(** Of the seven entries of [non_translatable_chars] the one that is a
    single space never applies, because the text is stripped before it is
    looked up: the texts handed back as they are are those that, stripped,
    are one of the six other entries.  A text of white space only, a
    single space included, and the empty text are sent to the
    translator. *)
Theorem ascii_to_braille_never_passes_a_space
    (utf8_valid : bytes -> bool)
    (os : list string -> bytes -> result completed) (text : string) :
  (non_translatable text
   <-> In (Str.strip text) ["â–ª"; "A."; "B."; "C."; "D."; "E."])
  /\ (run os (ascii_to_braille utf8_valid " ")).1
     = [(lou_translate, encode " ")]
  /\ (run os (ascii_to_braille utf8_valid "")).1 = [(lou_translate, encode "")]
  /\ (run os (ascii_to_braille utf8_valid text)).1
     = if bool_decide (In (Str.strip text)
                         ["â–ª"; "A."; "B."; "C."; "D."; "E."])
       then [] else [(lou_translate, encode text)].
Proof.
  assert (Hiff : non_translatable text
                 <-> In (Str.strip text) ["â–ª"; "A."; "B."; "C."; "D."; "E."]).
  { unfold non_translatable, non_translatable_chars.
    pose proof (strip_not_space text) as Hsp. simpl. split.
    - intros [_ [?|[?|?]]]; [by left | congruence | by right].
    - intros H. split.
      + intros Hempty. rewrite Hempty in H.
        destruct H as [?|[?|[?|[?|[?|[?|[]]]]]]]; discriminate.
      + destruct H as [?|?]; [by left | by right; right]. }
  split; [exact Hiff|]. split; [reflexivity|]. split; [reflexivity|].
  destruct (bool_decide_reflect
              (In (Str.strip text) ["â–ª"; "A."; "B."; "C."; "D."; "E."]))
    as [Hin|Hnot].
  - apply Hiff, guard_spec in Hin. unfold ascii_to_braille. by rewrite Hin.
  - rewrite <- Hiff in Hnot. unfold ascii_to_braille.
    by rewrite (guard_false _ Hnot).
Qed.

End GuardProps.

Module HashProps.
Import Hash.

Section Sha1.

Variable sha1_state : Type.
Variable sha1 : sha1_state.
Variable update : sha1_state -> bytes -> sha1_state.
Variable hexdigest : sha1_state -> string.

(** What [hashlib] promises of a hash object: feeding it two pieces one
    after the other is feeding it their concatenation, and feeding it
    nothing changes nothing. *)
Hypothesis update_app : forall s a b, update (update s a) b = update s (a ++ b).
Hypothesis update_nil : forall s, update s [] = s.

Lemma read_loop_whole (buf_size fuel : nat) (state : sha1_state) (f : bytes) :
  (0 < buf_size)%nat -> (length f < fuel)%nat ->
  read_loop sha1_state update buf_size fuel state f = (update state f, []).
Proof.
  intros Hbuf. revert state f.
  induction fuel as [|fuel IH]; intros state f Hlen; [lia|].
  simpl. destruct (take buf_size f) as [|b data] eqn:Htake.
  - destruct f as [|b f]; [by rewrite update_nil, drop_nil|].
    destruct buf_size; [lia | done].
  - rewrite IH.
    + by rewrite update_app, <- Htake, take_drop.
    + rewrite length_drop. assert (length (take buf_size f) <> 0)%nat
        by (by rewrite Htake).
      rewrite length_take in H. lia.
Qed.

Lemma BUF_SIZE_pos : (0 < BUF_SIZE)%nat.
Proof. unfold BUF_SIZE. lia. Qed.

End Sha1.

(** The digest returned is that of the whole content of the file, fed in
    one piece: reading by blocks of 64 KiB does not show in the result, and
    the loop ends with the file read to its end.  A file that cannot be
    opened raises what [open] raises. *)
Theorem hash_file_is_digest_of_content
    (sha1_state : Type) (sha1 : sha1_state)
    (update : sha1_state -> bytes -> sha1_state)
    (hexdigest : sha1_state -> string)
    (open_ : string -> result bytes) (filepath : string) :
  (forall s a b, update (update s a) b = update s (a ++ b)) ->
  (forall s, update s [] = s) ->
  hash_file sha1_state sha1 update hexdigest open_ filepath
  = (content ← open_ filepath; Ok (hexdigest (update sha1 content)))
  /\ (forall content, open_ filepath = Ok content ->
        (read_loop sha1_state update BUF_SIZE (S (length content)) sha1
           content).2 = []).
Proof.
  intros Happ Hnil. unfold hash_file.
  split.
  - destruct (open_ filepath) as [content|e]; [|done].
    change (Ok (hexdigest (read_loop sha1_state update BUF_SIZE
                             (S (length content)) sha1 content).1)
            = Ok (hexdigest (update sha1 content))).
    rewrite (read_loop_whole _ _ Happ Hnil); [done | apply BUF_SIZE_pos | lia].
  - intros content _.
    rewrite (read_loop_whole _ _ Happ Hnil); [done | apply BUF_SIZE_pos | lia].
Qed.

Import HashExamples.

(** On a file that holds [abc], with the hash that keeps all it is fed. *)
Lemma hash_file_is_digest_of_content_witness :
  hash_file bytes [] keep_all String.string_of_list_byte
    (fun _ => Ok abc) "image1.png"
  = Ok "abc".
Proof.
  refine (proj1 (hash_file_is_digest_of_content bytes [] keep_all
                   String.string_of_list_byte (fun _ => Ok abc) "image1.png"
                   _ _)).
  - intros s a b. symmetry. apply List.app_assoc.
  - intros s. apply List.app_nil_r.
Defined.

End HashProps.

Module ContractProps.
Import Braille Style Contract.

Section Os.

Variable os : list string -> bytes -> result completed.

(** Running one program after another. *)
Lemma run_then {A B} (p : proc A) (k : A -> proc B) :
  run os (then_ p k)
  = match run os p with
    | (t1, Ok a) => let '(t2, r) := run os (k a) in (t1 ++ t2, r)
    | (t1, Raise e) => (t1, Raise e)
    end.
Proof.
  induction p as [[a|e]|argv input c IH]; simpl.
  - by destruct (run os (k a)).
  - done.
  - rewrite IH. destruct (run os (c (os argv input))) as [t1 [a|e]]; [|done].
    by destruct (run os (k a)).
Qed.

Lemma run_then_Ok {A B} (p : proc A) (k : A -> proc B) (t : list (list string * bytes)) (b : B) :
  run os (then_ p k) = (t, Ok b) ->
  exists t1 a t2, run os p = (t1, Ok a) /\ run os (k a) = (t2, Ok b)
                  /\ t = t1 ++ t2.
Proof.
  rewrite run_then. destruct (run os p) as [t1 [a|e]]; [|done].
  destruct (run os (k a)) as [t2 r] eqn:Hk. intros [= <- ->]. eauto 6.
Qed.

(** A loop all of whose turns end normally. *)
Lemma run_for_each {A B} (body : A -> proc (list string * B))
    (calls : A -> list (list string * bytes)) (lines : A -> list string)
    (after : A -> B) (l : list A) :
  (forall x, x ∈ l -> run os (body x) = (calls x, Ok (lines x, after x))) ->
  run os (for_each body l)
  = (flat_map calls l, Ok (flat_map lines l, map after l)).
Proof.
  induction l as [|x l IH]; intros H; [done|]. simpl.
  rewrite run_then, (H x) by left. simpl.
  rewrite run_then, IH by (intros y Hy; apply H; by right). simpl.
  by rewrite app_nil_r.
Qed.

(** A loop that ends normally has had every turn end normally. *)
Lemma run_for_each_Ok {A B} (body : A -> proc (list string * B)) (l : list A)
    (t : list (list string * bytes)) (r : list string * list B) :
  run os (for_each body l) = (t, Ok r) ->
  forall x, x ∈ l -> exists t' r', run os (body x) = (t', Ok r').
Proof.
  revert t r. induction l as [|x l IH]; intros t r H y Hy.
  - by apply elem_of_nil in Hy.
  - simpl in H. apply run_then_Ok in H as (t1 & [o1 y1] & t2 & Hx & H & _).
    apply run_then_Ok in H as (t3 & [o2 ys] & t4 & Hl & _ & _).
    apply elem_of_cons in Hy as [->|Hy]; [eauto | by eapply IH].
Qed.

Variable utf8_valid : bytes -> bool.
Variable verbose : bool.

Local Abbreviation braille_of := (Contract.braille_of utf8_valid os).
Local Abbreviation contract_run := (Contract.contract_run utf8_valid verbose).
Local Abbreviation contract_paragraph :=
  (Contract.contract_paragraph utf8_valid verbose).
Local Abbreviation contract_shape := (Contract.contract_shape utf8_valid verbose).
Local Abbreviation contract_slide := (Contract.contract_slide utf8_valid verbose).
Local Abbreviation contract_braille :=
  (Contract.contract_braille utf8_valid verbose).

(** The processes started for one text. *)
Local Abbreviation calls_of := (fun text : string =>
  if translated_text text then [(lou_translate, encode text)] else []).
Local Abbreviation lines_of := (fun run : Run =>
  if verbose
  then ["Original: " +:+ text run; "Modified: " +:+ braille_of (text run)]
  else []).
Local Abbreviation translates := (fun text : string =>
  exists braille,
    (run os (ascii_to_braille utf8_valid text)).2 = Ok braille).

Lemma ascii_to_braille_calls (text : string) :
  (run os (ascii_to_braille utf8_valid text)).1 = calls_of text.
Proof.
  unfold ascii_to_braille, translated_text.
  by destruct (negb _ && _).
Qed.

Lemma run_contract_run (r : Run) :
  translates (text r) ->
  run os (contract_run r)
  = (calls_of (text r), Ok (lines_of r, mk_run (braille_of (text r)) (font r))).
Proof.
  intros [braille Hb]. unfold Contract.contract_run, Contract.braille_of.
  rewrite run_then. rewrite <- ascii_to_braille_calls.
  destruct (run os (ascii_to_braille utf8_valid (text r))) as [t res].
  simpl in *. subst res. simpl. by rewrite app_nil_r.
Qed.

Lemma run_contract_run_Ok (r : Run) t res :
  run os (contract_run r) = (t, Ok res) -> translates (text r).
Proof.
  unfold Contract.contract_run. intros H.
  apply run_then_Ok in H as (t1 & b & t2 & Hb & _). exists b. by rewrite Hb.
Qed.

Lemma run_contract_paragraph (p : Paragraph) :
  (forall r, r ∈ runs p -> translates (text r)) ->
  run os (contract_paragraph p)
  = (flat_map (fun r => calls_of (text r)) (runs p),
     Ok (flat_map lines_of (runs p),
         mk_paragraph
           (map (fun r => mk_run (braille_of (text r)) (font r)) (runs p))
           (line_spacing p))).
Proof.
  intros H. unfold Contract.contract_paragraph.
  rewrite run_then,
    (run_for_each _ (fun r => calls_of (text r)) lines_of
       (fun r => mk_run (braille_of (text r)) (font r))).
  - simpl. by rewrite app_nil_r.
  - intros r Hr. by apply run_contract_run, H.
Qed.

Lemma run_contract_paragraph_Ok (p : Paragraph) t res :
  run os (contract_paragraph p) = (t, Ok res) ->
  forall r, r ∈ runs p -> translates (text r).
Proof.
  unfold Contract.contract_paragraph. intros H r Hr.
  apply run_then_Ok in H as (t1 & [o rs] & t2 & Hl & _).
  destruct (run_for_each_Ok _ _ _ _ Hl r Hr) as (t' & r' & Hrun).
  by eapply run_contract_run_Ok.
Qed.

(** The runs of the text frame of a shape, if it has one. *)
Local Abbreviation runs_of := (fun shape : Shape =>
  from_option text_frame_runs [] (text_frame shape)).
Local Abbreviation shape_after := (fun shape : Shape =>
  mk_shape (shape_id shape)
    ((fun tf => mk_text_frame (map (fun paragraph =>
        mk_paragraph
          (map (fun run => mk_run (braille_of (text run)) (font run))
               (runs paragraph))
          (line_spacing paragraph)) (paragraphs tf))) <$> text_frame shape)
    (table shape) (shape_type shape) (shapes shape)).

Lemma flat_map_flat_map {A B C} (f : B -> list C) (g : A -> list B)
    (l : list A) :
  flat_map f (flat_map g l) = flat_map (fun x => flat_map f (g x)) l.
Proof.
  induction l as [|x l IH]; simpl; [done|]. by rewrite flat_map_app, IH.
Qed.

Lemma run_contract_shape (s : Shape) :
  (forall r, r ∈ runs_of s -> translates (text r)) ->
  run os (contract_shape s)
  = (flat_map (fun r => calls_of (text r)) (runs_of s),
     Ok (flat_map lines_of (runs_of s), shape_after s)).
Proof.
  intros H. unfold Contract.contract_shape.
  destruct s as [n [tf|] tb ty ss]; simpl in *; [|done].
  rewrite run_then,
    (run_for_each _ (fun p => flat_map (fun r => calls_of (text r)) (runs p))
       (fun p => flat_map lines_of (runs p))
       (fun p => mk_paragraph
                   (map (fun r => mk_run (braille_of (text r)) (font r))
                        (runs p))
                   (line_spacing p))).
  - simpl. unfold text_frame_runs.
    by rewrite app_nil_r, !flat_map_flat_map.
  - intros p Hp. apply run_contract_paragraph. intros r Hr. apply H.
    unfold text_frame_runs. apply list_elem_of_In, in_flat_map.
    exists p. split; by apply list_elem_of_In.
Qed.

Lemma run_contract_shape_Ok (s : Shape) t res :
  run os (contract_shape s) = (t, Ok res) ->
  forall r, r ∈ runs_of s -> translates (text r).
Proof.
  unfold Contract.contract_shape. intros H r Hr.
  destruct s as [n [tf|] tb ty ss]; simpl in *;
    [|by apply elem_of_nil in Hr].
  apply run_then_Ok in H as (t1 & [o ps] & t2 & Hl & _).
  unfold text_frame_runs in Hr.
  apply list_elem_of_In, in_flat_map in Hr as (p & Hp & Hr).
  apply list_elem_of_In in Hp, Hr.
  destruct (run_for_each_Ok _ _ _ _ Hl p Hp) as (t' & r' & Hrun).
  by eapply run_contract_paragraph_Ok.
Qed.

Lemma run_contract_braille (presentation : Presentation) :
  (forall r, r ∈ top_level_runs presentation -> translates (text r)) ->
  run os (contract_braille presentation)
  = (flat_map (fun r => calls_of (text r)) (top_level_runs presentation),
     Ok (flat_map lines_of (top_level_runs presentation),
         with_texts braille_of presentation)).
Proof.
  intros H. unfold Contract.contract_braille, top_level_runs, with_texts.
  rewrite (run_for_each _
    (fun slide => flat_map (fun r => calls_of (text r))
                    (flat_map runs_of (slide_shapes slide)))
    (fun slide => flat_map lines_of (flat_map runs_of (slide_shapes slide)))
    (fun slide => mk_slide (map shape_after (slide_shapes slide)))).
  - by rewrite !flat_map_flat_map.
  - intros slide Hslide. unfold Contract.contract_slide.
    rewrite run_then, (run_for_each _
      (fun s => flat_map (fun r => calls_of (text r)) (runs_of s))
      (fun s => flat_map lines_of (runs_of s)) shape_after).
    + simpl. by rewrite app_nil_r, !flat_map_flat_map.
    + intros s Hs. apply run_contract_shape. intros r Hr. apply H.
      unfold top_level_runs. apply list_elem_of_In, in_flat_map.
      exists slide. split; [by apply list_elem_of_In|].
      apply in_flat_map. exists s. split; by apply list_elem_of_In.
Qed.

Lemma run_contract_braille_Ok (presentation : Presentation) t res :
  run os (contract_braille presentation) = (t, Ok res) ->
  forall r, r ∈ top_level_runs presentation -> translates (text r).
Proof.
  unfold Contract.contract_braille. intros H r Hr.
  unfold top_level_runs in Hr.
  apply list_elem_of_In, in_flat_map in Hr as (slide & Hslide & Hr).
  apply in_flat_map in Hr as (s & Hs & Hr).
  apply list_elem_of_In in Hslide, Hs, Hr.
  destruct (run_for_each_Ok _ _ _ _ H slide Hslide) as (t' & r' & Hrun).
  unfold Contract.contract_slide in Hrun.
  apply run_then_Ok in Hrun as (t1 & [o ss] & t2 & Hl & _).
  destruct (run_for_each_Ok _ _ _ _ Hl s Hs) as (t'' & r'' & Hrun).
  by eapply run_contract_shape_Ok.
Qed.

Lemma flat_map_calls (l : list Run) :
  flat_map (fun r => calls_of (text r)) l
  = map (fun r => (lou_translate, encode (text r)))
        (List.filter (fun r => translated_text (text r)) l).
Proof.
  induction l as [|r l IH]; simpl; [done|].
  destruct (translated_text (text r)); simpl; by rewrite IH.
Qed.

Lemma run_contract_braille_result (presentation : Presentation) t lines
    presentation' :
  run os (contract_braille presentation) = (t, Ok (lines, presentation')) ->
  presentation' = with_texts braille_of presentation.
Proof.
  intros H. pose proof (run_contract_braille_Ok _ _ _ H) as Hall.
  rewrite (run_contract_braille _ Hall) in H. by injection H as _ _ <-.
Qed.

End Os.

(** The function ends normally exactly when the translation of every run
    of the text frames of the top-level shapes does.  It has then started
    one translator for each of these runs whose text is not one of the
    texts left alone, in document order and each with the run's text, and
    it returns the presentation with every such run's text replaced by
    the translator's answer; with [verbose] it has printed the text of
    each run before and after. *)
Theorem contract_braille_translates_each_run
    (utf8_valid : bytes -> bool) (verbose : bool)
    (os : list string -> bytes -> result completed)
    (presentation : Presentation) :
  ((forall r, r ∈ top_level_runs presentation ->
      exists braille,
        (run os (ascii_to_braille utf8_valid (text r))).2 = Ok braille) ->
   run os (contract_braille utf8_valid verbose presentation)
   = (map (fun r => (lou_translate, encode (text r)))
          (List.filter (fun r => translated_text (text r))
                       (top_level_runs presentation)),
      Ok (flat_map (fun r =>
            if verbose
            then ["Original: " +:+ text r;
                  "Modified: " +:+ braille_of utf8_valid os (text r)]
            else []) (top_level_runs presentation),
          with_texts (braille_of utf8_valid os) presentation)))
  /\ (forall t res,
        run os (contract_braille utf8_valid verbose presentation)
        = (t, Ok res) ->
        forall r, r ∈ top_level_runs presentation ->
          exists braille,
            (run os (ascii_to_braille utf8_valid (text r))).2 = Ok braille).
Proof.
  split.
  - intros H. rewrite (run_contract_braille os utf8_valid verbose _ H).
    by rewrite flat_map_calls.
  - intros t res. apply run_contract_braille_Ok.
Qed.

(** The function reaches the text frames of the top-level shapes only: a
    run that ends normally leaves every shape without a text frame (a
    table, a group with all its members, a picture) exactly as it was,
    and of a shape with a text frame it keeps the table, the members, the
    type, the number of paragraphs and runs, every font and every line
    spacing.  Text in tables and in groups is never translated. *)
Theorem contract_braille_leaves_tables_and_groups
    (utf8_valid : bytes -> bool) (verbose : bool)
    (os : list string -> bytes -> result completed)
    (presentation presentation' : Presentation)
    (t : list (list string * bytes)) (lines : list string) :
  run os (contract_braille utf8_valid verbose presentation)
  = (t, Ok (lines, presentation')) ->
  forall k slide i shape,
    presentation !! k = Some slide ->
    slide_shapes slide !! i = Some shape ->
    exists slide' shape',
      presentation' !! k = Some slide'
      /\ slide_shapes slide' !! i = Some shape'
      /\ (has_text_frame shape = false -> shape' = shape)
      /\ shape_id shape' = shape_id shape
      /\ table shape' = table shape
      /\ shape_type shape' = shape_type shape
      /\ shapes shape' = shapes shape
      /\ map (fun p => (map font (runs p), line_spacing p))
             (from_option paragraphs [] (text_frame shape'))
         = map (fun p => (map font (runs p), line_spacing p))
               (from_option paragraphs [] (text_frame shape)).
Proof.
  intros H k slide i shape Hk Hi.
  apply run_contract_braille_result in H as ->. unfold with_texts.
  eexists _, _. split; [by rewrite list_lookup_fmap, Hk|].
  split; [simpl; by rewrite list_lookup_fmap, Hi|].
  destruct shape as [n [tf|] tb ty ss]; simpl; repeat split; try done.
  rewrite !map_map. apply map_ext. intros p. simpl. by rewrite map_map.
Qed.

Import BrailleExamples StyleExamples ContractExamples.

(** The run on [demo], verbose, with a translator that answers. *)
Lemma contract_demo :
  run translator_ok (contract_braille ascii_only true demo)
  = ([(lou_translate, encode "Title")],
     Ok (["Original: Title"; "Modified: ,hello"], contracted_demo)).
Proof. vm_compute. reflexivity. Qed.

(** On [demo]: one translator is started, for the title. *)
Lemma contract_braille_translates_each_run_witness :
  run translator_ok (contract_braille ascii_only true demo)
  = ([(lou_translate, encode "Title")],
     Ok (["Original: Title"; "Modified: ,hello"], contracted_demo)).
Proof.
  apply (proj1 (contract_braille_translates_each_run ascii_only true
                  translator_ok demo)).
  intros r Hr. exists ",hello".
  apply list_elem_of_singleton in Hr. subst r. reflexivity.
Defined.

(** On [demo]: the group, with the table in it, is left as it was. *)
Lemma contract_braille_leaves_tables_and_groups_witness :
  exists slide' shape',
    contracted_demo !! 0%nat = Some slide'
    /\ slide_shapes slide' !! 2%nat = Some shape'
    /\ shape' = group red_italic.
Proof.
  destruct (contract_braille_leaves_tables_and_groups ascii_only true
              translator_ok demo contracted_demo _ _ contract_demo
              0%nat (demo_slide red_italic) 2%nat (group red_italic)
              eq_refl eq_refl)
    as (slide' & shape' & Hk & Hi & Hsame & _).
  exists slide', shape'. split; [done|]. split; [done|].
  apply Hsame. reflexivity.
Defined.

End ContractProps.

(** ** A second run of remove_repetitive_images *)

Module SurvivorsProps.
Import Pruner Survivors PrunerProps.

Lemma group_size_after (isfile isfile' : string -> bool)
    (hash_file : string -> string) (image_dir : string) (keep : string -> bool)
    (listing : list string) (h : string) :
  (forall path, isfile' path = true -> isfile path = true) ->
  (group_size isfile' hash_file image_dir (List.filter keep listing) h
   <= group_size isfile hash_file image_dir listing h)%nat.
Proof.
  intros Hsub. unfold group_size, group.
  induction listing as [|filename listing IH]; [done|]. simpl.
  rewrite (filter_cons _ (Str.join image_dir filename)).
  destruct (keep filename); simpl.
  - rewrite (filter_cons _ (Str.join image_dir filename)).
    destruct (decide (isfile' _ = true /\ _)) as [[Hf Hh]|Hn].
    + rewrite decide_True by (split; [by apply Hsub | done]). simpl. lia.
    + destruct (decide _); simpl; lia.
  - destruct (decide _); simpl; lia.
Qed.

(** [remove_repetitive_images] finishes its work in one run: run
    again on the directory as the first run left it (the entries that
    were not removed, a removed path being no file any more), with the
    same number of slides, it removes nothing. *)
Theorem remove_repetitive_images_second_run
    (isfile : string -> bool) (hash_file : string -> string)
    (num_slides : nat) (image_dir : string) (listing : list string) :
  remove_repetitive_images
    (isfile_after isfile hash_file num_slides image_dir listing)
    hash_file num_slides image_dir
    (listing_after isfile hash_file num_slides image_dir listing)
  = [].
Proof.
  apply elem_of_nil_inv. intros path Hin.
  apply removed_iff in Hin as (h & Hlt & Hin).
  apply elem_of_group in Hin as (filename & Hfile & -> & Hf & Hh).
  unfold listing_after in Hfile.
  apply list_elem_of_In, filter_In in Hfile as [Hfile Hkept].
  apply list_elem_of_In in Hfile.
  assert (Hsub : forall p,
    isfile_after isfile hash_file num_slides image_dir listing p = true ->
    isfile p = true).
  { intros p. unfold isfile_after. by intros [? _]%andb_true_iff. }
  apply negb_true_iff, not_true_iff_false in Hkept. apply Hkept.
  unfold Str.in_list. apply existsb_exists.
  exists (Str.join image_dir filename).
  split; [|apply String.eqb_refl]. apply list_elem_of_In, removed_iff.
  exists h. split.
  - apply threshold_lt. apply threshold_lt in Hlt.
    unfold listing_after in Hlt.
    match type of Hlt with
    | context [List.filter ?keep listing] =>
        pose proof (group_size_after isfile _ hash_file image_dir keep
                      listing h Hsub) as Hle
    end.
    lia.
  - apply elem_of_group. exists filename. eauto.
Qed.

End SurvivorsProps.

(** ** extract_images_from_pptx never hands out an image *)

Module ImagesProps.
Import Py Style Images.

Lemma empty_lists_lookup (n i : nat) :
  empty_lists n !! i = if (i <? n)%nat then Some [] else None.
Proof.
  unfold empty_lists. destruct (Nat.ltb_spec i n) as [Hlt|Hge].
  - apply elem_of_list_to_map.
    + rewrite <- list_fmap_compose. simpl. rewrite list_fmap_id.
      apply NoDup_ListNoDup, seq_NoDup.
    + apply list_elem_of_fmap. exists i. split; [done|].
      apply list_elem_of_In, in_seq. lia.
  - apply not_elem_of_list_to_map. rewrite <- list_fmap_compose. simpl.
    rewrite list_fmap_id. rewrite list_elem_of_In, in_seq. lia.
Qed.

Section Pictures.

Variable image_blob : Shape -> result (list Byte.byte).

(** What the first picture met makes of the function. *)
Local Abbreviation stops_at := (fun (A : Type) (picture : Shape) =>
  match image_blob picture with
  | Ok _ => @NameError A "Image"
  | Raise e => Raises e
  end).

Lemma slide_images_cases (images : list PILImage) (shapes : list Shape) :
  slide_images image_blob images shapes
  = match head (pictures shapes) with
    | None => Returns images
    | Some picture => stops_at _ picture
    end.
Proof.
  induction shapes as [|shape shapes IH]; [done|].
  unfold pictures in *. simpl.
  destruct (shape_type shape =? 13); [simpl|exact IH].
  by destruct (image_blob shape).
Qed.

Lemma extract_from_cases (i : nat) (pil_images : gmap nat (list PILImage))
    (slides : list Slide) :
  match first_picture slides with
  | Some picture =>
      extract_from image_blob i pil_images slides = stops_at _ picture
  | None =>
      exists m,
        extract_from image_blob i pil_images slides = Returns m
        /\ forall j, m !! j
             = if ((i <=? j) && (j <? i + length slides))%nat then Some []
               else pil_images !! j
  end.
Proof.
  revert i pil_images. induction slides as [|slide slides IH];
    intros i pil_images.
  - exists pil_images. split; [done|]. intros j. simpl.
    destruct (Nat.leb_spec i j), (Nat.ltb_spec j (i + 0)); simpl; done || lia.
  - unfold first_picture, pictures in *. simpl.
    rewrite List.filter_app, slide_images_cases. unfold pictures.
    destruct (List.filter _ (slide_shapes slide)) as [|picture ps]; simpl.
    2:{ by destruct (image_blob picture). }
    specialize (IH (S i) (<[i := []]> pil_images)).
    destruct (head _) as [picture|]; [done|].
    destruct IH as (m & -> & Hm). exists m. split; [done|]. intros j.
    rewrite Hm.
    destruct (Nat.leb_spec (S i) j), (Nat.ltb_spec j (S i + length slides)),
      (Nat.leb_spec i j), (Nat.ltb_spec j (i + S (length slides)));
      simpl; try lia; try done.
    + destruct (decide (i = j)) as [->|Hne]; [lia|].
      by rewrite lookup_insert_ne.
    + assert (i = j) as -> by lia. by rewrite lookup_insert_eq.
    + by rewrite lookup_insert_ne by lia.
Qed.

End Pictures.


End ImagesProps.

(** ** remove_repetitive_images: each file once, in any order *)

Module OrderProps.
Import Pruner PrunerProps.

Lemma filter_perm {A} (f : A -> bool) (l l' : list A) :
  l ≡ₚ l' -> List.filter f l ≡ₚ List.filter f l'.
Proof.
  induction 1 as [|x l l' _ IH|x y l|l1 l2 l3 _ IH1 _ IH2]; simpl.
  - done.
  - destruct (f x); [by constructor | done].
  - destruct (f x), (f y); try done. apply perm_swap.
  - by etransitivity.
Qed.

Lemma filter_NoDup {A} (f : A -> bool) (l : list A) :
  NoDup l -> NoDup (List.filter f l).
Proof.
  induction 1 as [|x l Hx _ IH]; simpl; [constructor|].
  destruct (f x); [|done]. constructor; [|done].
  rewrite list_elem_of_In, filter_In, <- list_elem_of_In. tauto.
Qed.

Lemma join_inj (a b b' : string) :
  Str.startswith b "/" = false -> Str.startswith b' "/" = false ->
  Str.join a b = Str.join a b' -> b = b'.
Proof.
  unfold Str.join. intros -> ->.
  destruct (_ || _); intros H.
  - by apply String.app_inj in H.
  - apply String.app_inj in H. by injection H.
Qed.

Section Media.

Variable isfile : string -> bool.
Variable hash_file : string -> string.
Variable image_dir : string.

Local Abbreviation scan := (Pruner.scan isfile hash_file image_dir).
Local Abbreviation group_size :=
  (Pruner.group_size isfile hash_file image_dir).

(** The files of the groups a test [big] on digests picks. *)
Local Abbreviation picked := (fun (big : string -> bool)
    (file_hashes : list (string * list string)) =>
  flat_map (fun '(file_hash, files) => if big file_hash then files else [])
           file_hashes).

Lemma picked_dict_append (big : string -> bool) (k v : string)
    (d : list (string * list string)) :
  picked big (dict_append k v d)
  ≡ₚ picked big d ++ (if big k then [v] else []).
Proof.
  induction d as [|[k' vs] d IH]; simpl.
  - by rewrite app_nil_r.
  - destruct (String.eqb_spec k' k) as [->|Hne]; simpl.
    + destruct (big k).
      * rewrite <- !app_assoc. apply Permutation_app_head, Permutation_app_comm.
      * by rewrite app_nil_r.
    + rewrite IH. by rewrite app_assoc.
Qed.

Lemma picked_scan (big : string -> bool) (listing : list string) :
  picked big (scan listing).2
  ≡ₚ List.filter (fun p => isfile p && big (hash_file p))
       (map (Str.join image_dir) listing).
Proof.
  induction listing as [|filename listing IH] using rev_ind; [done|].
  rewrite scan_snoc, map_app, List.filter_app. simpl.
  unfold scan_file.
  destruct (isfile (Str.join image_dir filename)); simpl.
  - rewrite picked_dict_append, IH.
    by destruct (big (hash_file (Str.join image_dir filename))).
  - by rewrite IH, app_nil_r.
Qed.

(** The paths removed, up to their order. *)
Lemma removed_perm (num_slides : nat) (listing : list string) :
  remove_repetitive_images isfile hash_file num_slides image_dir listing
  ≡ₚ List.filter
       (fun p => isfile p
                 && exceeds (group_size listing (hash_file p))
                            (threshold num_slides))
       (map (Str.join image_dir) listing).
Proof.
  unfold remove_repetitive_images.
  pose proof (proj1 (scan_spec isfile hash_file image_dir listing)) as Hc.
  pose proof (picked_scan
    (fun h => exceeds (count_of (scan listing).1 h) (threshold num_slides))
    listing) as Hp.
  destruct (scan listing) as [hash_counts file_hashes]. simpl in *.
  rewrite Hp. erewrite List.filter_ext; [done|].
  intros p. simpl. by rewrite Hc.
Qed.

Lemma group_size_perm (listing listing' : list string) (h : string) :
  listing ≡ₚ listing' -> group_size listing h = group_size listing' h.
Proof. intros Hp. unfold Pruner.group_size, group. by rewrite Hp. Qed.

End Media.

(** No file is removed twice.  The paths handed to [os.remove] are, up to
    their order, the regular files of the listing whose hash group is
    over the threshold, each as many times as the listing has it; so with
    the distinct file names [os.listdir] gives, every path is removed
    once, and [os.remove] never meets a file that is already gone. *)
Theorem remove_repetitive_images_removes_each_once
    (isfile : string -> bool) (hash_file : string -> string)
    (num_slides : nat) (image_dir : string) (listing : list string) :
  NoDup listing ->
  Forall (fun filename => Str.startswith filename "/" = false) listing ->
  remove_repetitive_images isfile hash_file num_slides image_dir listing
  ≡ₚ List.filter
       (fun p => isfile p
                 && exceeds (group_size isfile hash_file image_dir listing
                               (hash_file p))
                            (threshold num_slides))
       (map (Str.join image_dir) listing)
  /\ NoDup (remove_repetitive_images isfile hash_file num_slides image_dir
              listing).
Proof.
  intros Hnd Hnames. split; [apply removed_perm|].
  rewrite removed_perm. apply filter_NoDup.
  clear -Hnd Hnames. induction Hnd as [|f l Hf _ IH]; [constructor|].
  apply Forall_cons in Hnames as [Hname Hnames]. simpl. constructor; [|auto].
  intros (f' & Heq & Hin)%list_elem_of_fmap. destruct Hf.
  rewrite Forall_forall in Hnames.
  by rewrite (join_inj image_dir f f' Hname (Hnames _ Hin) Heq).
Qed.

(** The order in which [os.listdir] gives the directory does not matter:
    for two listings of the same entries the same paths are removed, the
    same number of times; only the order of the removals may differ. *)
Theorem remove_repetitive_images_any_order
    (isfile : string -> bool) (hash_file : string -> string)
    (num_slides : nat) (image_dir : string) (listing listing' : list string) :
  listing ≡ₚ listing' ->
  remove_repetitive_images isfile hash_file num_slides image_dir listing
  ≡ₚ remove_repetitive_images isfile hash_file num_slides image_dir listing'.
Proof.
  intros Hp. rewrite !removed_perm.
  rewrite (filter_perm _ _ (map (Str.join image_dir) listing'))
    by (by rewrite Hp).
  erewrite List.filter_ext; [done|].
  intros p. simpl. by rewrite (group_size_perm _ _ _ _ _ _ Hp).
Qed.

Import PrunerExamples.

(** One slide, and a directory with a logo and a photo. *)
Lemma remove_repetitive_images_removes_each_once_witness :
  remove_repetitive_images (fun _ => true) scenario_hash 1 media
    ["logo1.png"; "photo1.jpg"]
  ≡ₚ List.filter
       (fun p => true
                 && exceeds (group_size (fun _ => true) scenario_hash media
                               ["logo1.png"; "photo1.jpg"] (scenario_hash p))
                            (threshold 1))
       (map (Str.join media) ["logo1.png"; "photo1.jpg"])
  /\ NoDup (remove_repetitive_images (fun _ => true) scenario_hash 1 media
              ["logo1.png"; "photo1.jpg"]).
Proof.
  apply (remove_repetitive_images_removes_each_once (fun _ => true)
           scenario_hash 1 media ["logo1.png"; "photo1.jpg"]).
  - apply NoDup_cons_2; [|apply NoDup_singleton].
    intros H. apply list_elem_of_singleton in H. discriminate H.
  - repeat constructor.
Defined.

(** One slide, a logo and a photo, listed either way round. *)
Lemma remove_repetitive_images_any_order_witness :
  remove_repetitive_images (fun _ => true) scenario_hash 1 media
    ["logo1.png"; "photo1.jpg"]
  ≡ₚ remove_repetitive_images (fun _ => true) scenario_hash 1 media
       ["photo1.jpg"; "logo1.png"].
Proof.
  apply (remove_repetitive_images_any_order (fun _ => true) scenario_hash 1
           media ["logo1.png"; "photo1.jpg"] ["photo1.jpg"; "logo1.png"]).
  apply perm_swap.
Defined.

End OrderProps.

(** ** The repair pass: what it leaves, and when it gets through *)

Module RelationshipsProps.
Import Py PyProps Repair Relationships RepairProps.

Section Disk.

Variable path_exists : string -> bool.

Local Abbreviation repair_relationships :=
  (Repair.repair_relationships path_exists).
Local Abbreviation verdict := (Repair.verdict path_exists).
Local Abbreviation repair_file := (Repair.repair_file path_exists).
Local Abbreviation repair_files := (Repair.repair_files path_exists).
Local Abbreviation missing_image := (Relationships.missing_image path_exists).
Local Abbreviation well_attributed :=
  (Relationships.well_attributed path_exists).
Local Abbreviation dropped_ids := (Relationships.dropped_ids path_exists).
Local Abbreviation kept_children := (Relationships.kept_children path_exists).
Local Abbreviation rewritten := (Relationships.rewritten path_exists).
Local Abbreviation entry_completes :=
  (Relationships.entry_completes path_exists).

(** The decision of the loop on one child, from its attributes. *)
Lemma verdict_cases (c : Element) (v : option string) :
  verdict c = Ok v <->
  well_attributed c
  /\ (if missing_image c then v = attrib c !! "Id" else v = None).
Proof.
  unfold Repair.verdict, Relationships.well_attributed,
    Relationships.missing_image, attrib_get.
  destruct (String.eqb_spec (tag c) Relationship_tag) as [Htag|Htag]; simpl.
  2:{ split; [intros [= <-] | intros [_ ->]]; done. }
  destruct (attrib c !! "Type") as [type|]; simpl.
  2:{ split; [done|]. intros [H _]. by destruct (H Htag) as (? & ? & _). }
  destruct (Str.contains "image" type) eqn:Himg; simpl.
  2:{ split; [intros [= <-] | intros [_ ->]; done]. split; [|done].
      intros _. exists type. split; [done|]. intros ?. congruence. }
  destruct (attrib c !! "Target") as [target|]; simpl.
  2:{ split; [done|]. intros [H _].
      destruct (H Htag) as (? & [= <-] & H'). by destruct (H' Himg) as (? & ? & _). }
  destruct (path_exists (image_path target)) eqn:Hex; simpl.
  { split; [intros [= <-] | intros [_ ->]; done]. split; [|done].
    intros _. exists type. split; [done|]. intros _.
    exists target. split; [done|]. intros ?. congruence. }
  destruct (attrib c !! "Id") as [id|] eqn:Hid; simpl.
  - split; [intros [= <-] | intros [_ ->]; done]. split; [|done].
    intros _. exists type. split; [done|]. intros _.
    exists target. split; [done|]. intros _. eauto.
  - split; [done|]. intros [H _].
    destruct (H Htag) as (? & [= <-] & H').
    destruct (H' Himg) as (? & [= <-] & H'').
    destruct (H'' Hex) as [? Hsome]. done.
Qed.

Lemma missing_image_Id (c : Element) :
  well_attributed c -> missing_image c = true -> is_Some (attrib c !! "Id").
Proof.
  unfold Relationships.missing_image, Relationships.well_attributed.
  destruct (String.eqb_spec (tag c) Relationship_tag) as [Htag|];
    [simpl|done].
  intros Hc Hm. destruct (Hc Htag) as (type & Htype & Hc').
  rewrite Htype in Hm. apply andb_true_iff in Hm as [Himg Hm].
  destruct (Hc' Himg) as (target & Htarget & Hc'').
  rewrite Htarget in Hm. apply negb_true_iff in Hm. by apply Hc''.
Qed.

(** The loop over the children gets through exactly when every child has
    the attributes read of it, and then gives the ids of the relationships
    to missing images and the other children. *)
Lemma repair_relationships_Ok (cs : list Element) (ids : list string)
    (kept : list Element) :
  repair_relationships cs = Ok (ids, kept) <->
  Forall well_attributed cs
  /\ ids = omap (fun c => attrib c !! "Id") (List.filter missing_image cs)
  /\ kept = List.filter (fun c => negb (missing_image c)) cs.
Proof.
  revert ids kept. induction cs as [|c cs IH]; intros ids kept.
  - simpl. split; [intros [= <- <-] | intros (_ & -> & ->)]; done.
  - rewrite repair_relationships_cons. split.
    + intros H. apply bind_Ok in H as (v & Hv & H).
      apply bind_Ok in H as ([ids0 kept0] & Hrest & H).
      apply verdict_cases in Hv as [Hwell Hv].
      apply IH in Hrest as (Hall & -> & ->).
      split; [by constructor|]. simpl.
      destruct (missing_image c) eqn:Hm; simpl; subst v.
      * destruct (missing_image_Id c Hwell Hm) as [id Hid].
        rewrite Hid in *. injection H as <- <-. done.
      * injection H as <- <-. done.
    + intros (Hall & -> & ->). apply Forall_cons in Hall as [Hc Hall].
      assert (Hrest := proj2 (IH _ _) (conj Hall (conj eq_refl eq_refl))).
      simpl. destruct (missing_image c) eqn:Hm; simpl.
      * destruct (attrib c !! "Id") as [id|] eqn:Hid.
        -- rewrite (proj2 (verdict_cases c (Some id))); simpl.
           ++ rewrite Hrest. done.
           ++ split; [done|]. by rewrite Hm.
        -- destruct (missing_image_Id c Hc Hm) as [? Hsome]. congruence.
      * rewrite (proj2 (verdict_cases c None)); simpl.
        -- rewrite Hrest. done.
        -- split; [done|]. by rewrite Hm.
Qed.

Lemma in_list_elem_of (x : string) (l : list string) :
  Str.in_list x l = false <-> x ∉ l.
Proof.
  rewrite <- not_true_iff_false. unfold Str.in_list.
  rewrite existsb_exists. split; intros H Hin; apply H.
  - exists x. split; [by apply list_elem_of_In | apply String.eqb_refl].
  - destruct Hin as (y & Hy & ->%String.eqb_eq). by apply list_elem_of_In.
Qed.

(** The loop over the pictures gets through exactly when no picture names
    a removed relationship and every first [blip] has its [embed]. *)
Lemma remove_pics_completes (removed_ids : list string) (pics : list Element) :
  remove_pics removed_ids pics = Ok tt <->
  forall pic blip, pic ∈ pics -> find_below blip_tag pic = Some blip ->
    exists id, attrib blip !! embed = Some id /\ id ∉ removed_ids.
Proof.
  split.
  - intros H pic blip Hpic Hblip.
    destruct (remove_pics_Ok _ _ H pic blip Hpic Hblip) as (id & Hid & Hnot).
    exists id. split; [done|]. by apply in_list_elem_of.
  - induction pics as [|p pics IH]; intros H; [done|]. simpl.
    assert (Hrest : remove_pics removed_ids pics = Ok tt).
    { apply IH. intros pic blip Hpic. apply H. by right. }
    destruct (find_below blip_tag p) as [b|] eqn:Hb; [|done].
    destruct (H p b) as (id & Hid & Hnot); [left | done |].
    apply attrib_get_Ok in Hid. rewrite Hid. simpl.
    apply in_list_elem_of in Hnot. by rewrite Hnot.
Qed.

Lemma repaired_rewritten (slides : gmap string File)
    (entry entry' : string * File) :
  Repair.repaired path_exists slides entry entry' ->
  rewritten entry entry' /\ entry_completes slides entry.
Proof.
  unfold Relationships.rewritten, Relationships.entry_completes,
    Relationships.kept_children, Relationships.dropped_ids.
  intros [Hname [[Hext Hsame] | (Hext & root & ids & kept & slide_root
                                 & Hroot & Hrel & Hroot' & Hslide & Hpics)]];
    rewrite Hext.
  - done.
  - apply repair_relationships_Ok in Hrel as (Hall & -> & ->).
    split; [split; [done|]; by exists root|].
    intros _. exists root, slide_root. repeat split; try done.
    by apply remove_pics_completes.
Qed.

Lemma repair_file_completes (slides : gmap string File)
    (entry : string * File) :
  (exists r, repair_file slides entry = Ok r) <-> entry_completes slides entry.
Proof.
  split.
  - intros [[entry' slides'] H].
    apply repair_file_Ok in H as [_ H].
    by apply repaired_rewritten in H as [_ H].
  - destruct entry as [rels_file content].
    unfold Relationships.entry_completes, Repair.repair_file. simpl.
    destruct (Str.endswith rels_file ".rels"); simpl; [|eauto].
    intros H. destruct (H eq_refl)
      as (root & slide_root & -> & Hall & Hslide & Hpics).
    simpl.
    rewrite (proj2 (repair_relationships_Ok (children root) _ _)
               (conj Hall (conj eq_refl eq_refl))).
    simpl. rewrite Hslide. simpl.
    unfold Relationships.dropped_ids in Hpics.
    rewrite (proj2 (remove_pics_completes _ _) Hpics). simpl. eauto.
Qed.

Lemma repair_files_completes (slides : gmap string File)
    (entries : list (string * File)) :
  (exists r, repair_files slides entries = Ok r)
  <-> Forall (entry_completes slides) entries.
Proof.
  induction entries as [|entry entries IH]; simpl.
  - split; [constructor | eauto].
  - rewrite Forall_cons, <- IH, <- repair_file_completes. split.
    + intros [r H].
      apply bind_Ok in H as ([entry1 slides1] & Hfile & H).
      apply bind_Ok in H as ([rest slides2] & Hrest & H).
      pose proof Hfile as [-> _]%repair_file_Ok. eauto.
    + intros [[[entry1 slides1] Hfile] [[rest slides2] Hrest]].
      pose proof Hfile as [-> _]%repair_file_Ok.
      rewrite Hfile. simpl. rewrite Hrest. simpl. eauto.
Qed.

End Disk.

(** When [clean_pptx] returns, what it has written is known from what
    it read: no slide document has changed, an entry of [_rels] that is
    no [.rels] file is as it was, and each relationships document has its
    root as before with, for children, those that are no relationship of
    an image type whose target is missing, in their order; children that
    are no [Relationship] elements stay as well. *)
Theorem clean_pptx_drops_exactly_the_missing_images
    (path_exists : string -> bool) (pptx_exists : bool) (pptx_path : string)
    (package package' : Package) :
  clean_pptx path_exists pptx_exists pptx_path package = Ok package' ->
  slides_dir package' = slides_dir package
  /\ Forall2 (rewritten path_exists) (rels_dir package) (rels_dir package').
Proof.
  intros H. apply clean_pptx_Ok in H as [Hslides Hall]. split; [done|].
  eapply Forall2_impl; [exact Hall|].
  intros entry entry' Hrep. by apply repaired_rewritten in Hrep as [Hrep _].
Qed.


(** Where the target of a relationship is looked for: below the
    [ppt] directory of the working copy, whatever slashes the target
    begins with, the text [../] taken out once, left to right.  So an
    absolute target [/ppt/media/<name>] is looked for in [ppt/ppt/media],
    and a target that begins with [....//] is looked for above the [ppt]
    directory. *)
Theorem image_path_is_below_ppt (target : string) :
  image_path target
  = "temp_pptx/ppt/" +:+ Str.remove_dotdot (Str.lstrip_slash target)
  /\ (forall name,
        image_path ("/ppt/media/" +:+ name)
        = "temp_pptx/ppt/ppt/media/" +:+ Str.remove_dotdot name)
  /\ (forall rest,
        image_path ("....//" +:+ rest)
        = "temp_pptx/ppt/../" +:+ Str.remove_dotdot rest).
Proof.
  split; [apply image_path_below | split; reflexivity].
Qed.

Import RepairExamples.

(** On [deck]: the relationship to the missing [image2.png] goes. *)
Lemma clean_pptx_drops_exactly_the_missing_images_witness :
  slides_dir deck_repaired = slides_dir deck
  /\ Forall2 (rewritten disk) (rels_dir deck) (rels_dir deck_repaired).
Proof.
  apply (clean_pptx_drops_exactly_the_missing_images disk true "deck.pptx"
           deck deck_repaired).
  apply clean_deck.
Defined.


End RelationshipsProps.

(** ** The two passes over a presentation, as a whole *)

Module TextProps.
Import Py PyProps Style Text StyleProps.

(** A pass depends on what it does to paragraphs only. *)
Lemma restyle_ext (f g : Paragraph -> Paragraph) (s : Shape) :
  (forall paragraph, f paragraph = g paragraph) ->
  restyle f s = restyle g s.
Proof.
  intros Hfg. induction s as [n tf tb ty ss IH] using Shape_ind'.
  assert (Htf : forall t, on_text_frame f t = on_text_frame g t).
  { intros t. unfold on_text_frame. f_equal. by apply map_ext. }
  destruct tf as [tf|]; simpl.
  { unfold write_text_frame. simpl. by rewrite Htf. }
  destruct tb as [tb|]; simpl.
  { unfold write_table, on_table. simpl. do 3 f_equal.
    apply map_ext. intros row. f_equal. apply map_ext. intros cell.
    by rewrite Htf. }
  destruct (ty =? 6); [|done]. f_equal.
  induction IH as [|c ss Hc _ IHss]; [done|]. simpl. by rewrite Hc, IHss.
Qed.

(** One pass after another is one pass that does both to each paragraph. *)
Lemma restyle_restyle (f g : Paragraph -> Paragraph) (s : Shape) :
  restyle f (restyle g s) = restyle (f ∘ g) s.
Proof.
  induction s as [n tf tb ty ss IH] using Shape_ind'.
  destruct tf as [tf|]; simpl.
  { unfold write_text_frame, on_text_frame. simpl. by rewrite map_map. }
  destruct tb as [tb|]; simpl.
  { unfold write_table, on_table. simpl. do 3 f_equal. rewrite map_map.
    apply map_ext. intros row. simpl. f_equal. rewrite map_map.
    apply map_ext. intros cell. simpl. unfold on_text_frame. simpl.
    by rewrite map_map. }
  destruct (ty =? 6) eqn:Hty; simpl; rewrite Hty; [|done]. f_equal.
  rewrite map_map.
  induction IH as [|c ss Hc _ IHss]; [done|]. simpl. by rewrite Hc, IHss.
Qed.

Lemma process_slide_process_slide (f g : Paragraph -> Paragraph)
    (slide : Slide) :
  process_slide f (process_slide g slide) = process_slide (f ∘ g) slide.
Proof.
  rewrite !process_slide_restyle. simpl. f_equal. rewrite map_map.
  apply map_ext. intros s. apply restyle_restyle.
Qed.

Lemma process_slide_ext (f g : Paragraph -> Paragraph) (slide : Slide) :
  (forall paragraph, f paragraph = g paragraph) ->
  process_slide f slide = process_slide g slide.
Proof.
  intros Hfg. rewrite !process_slide_restyle. f_equal.
  apply map_ext. intros s. by apply restyle_ext.
Qed.

Lemma passes_compose (f g h : Paragraph -> Paragraph)
    (presentation : Presentation) :
  (forall paragraph, f (g paragraph) = h paragraph) ->
  map (process_slide f) (map (process_slide g) presentation)
  = map (process_slide h) presentation.
Proof.
  intros Hfg. rewrite map_map. apply map_ext. intros slide.
  rewrite process_slide_process_slide. by apply process_slide_ext.
Qed.

(** *** The paragraphs of a presentation, after a pass *)

Section Paragraphs.

Variable on_paragraph : Paragraph -> Paragraph.

Lemma table_paragraphs_on (t : Table) :
  table_paragraphs (on_table on_paragraph t)
  = map on_paragraph (table_paragraphs t).
Proof.
  unfold table_paragraphs. simpl. rewrite flat_map_map, map_flat_map.
  apply flat_map_ext. intros row. simpl.
  rewrite flat_map_map, map_flat_map. done.
Qed.

Lemma shape_paragraphs_restyle (s : Shape) :
  well_formed s = true ->
  shape_paragraphs (restyle on_paragraph s)
  = map on_paragraph (shape_paragraphs s).
Proof.
  induction s as [n tf tb ty ss IH] using Shape_ind'. intros Hwf.
  destruct tf as [tf|], tb as [tb|], ss as [|c ss]; try done; simpl in *.
  - by rewrite !app_nil_r.
  - by rewrite table_paragraphs_on, !app_nil_r.
  - by destruct (ty =? 6).
  - apply andb_true_iff in Hwf as [-> Hwf].
    apply andb_true_iff in Hwf as [Hc Hss]. simpl.
    apply Forall_cons in IH as [IHc IHss].
    rewrite (IHc Hc), map_app. f_equal.
    rewrite flat_map_map, map_flat_map.
    clear IHc Hc. induction ss as [|d ss IHd]; [done|]. simpl in *.
    apply andb_true_iff in Hss as [Hd Hss].
    apply Forall_cons in IHss as [IH1 IH2].
    rewrite (IH1 Hd). f_equal. by apply IHd.
Qed.

Lemma presentation_paragraphs_restyle (presentation : Presentation) :
  well_formed_presentation presentation = true ->
  presentation_paragraphs (map (process_slide on_paragraph) presentation)
  = map on_paragraph (presentation_paragraphs presentation).
Proof.
  rewrite (map_ext _ _ (process_slide_restyle on_paragraph)).
  unfold presentation_paragraphs, well_formed_presentation.
  induction presentation as [|[ss] presentation IH]; [done|]. simpl.
  intros [Hslide Hrest]%andb_true_iff.
  rewrite map_app, IH by done. f_equal. clear IH Hrest.
  induction ss as [|c ss IHc]; [done|]. simpl in *.
  apply andb_true_iff in Hslide as [Hc Hss].
  rewrite map_app, shape_paragraphs_restyle by done. f_equal. by apply IHc.
Qed.

End Paragraphs.

Lemma map_id_on {A} (f : A -> A) (l : list A) :
  (forall x, f x = x) -> map f l = l.
Proof. intros Hf. rewrite <- (map_id l) at 2. by apply map_ext. Qed.

(** The prompt fails exactly when no line is an answer. *)
Lemma ask_change_font_size_Raise (stdin : list string) (e : exn) :
  ask_change_font_size stdin = Raise e <->
  e = mk_exn EOFError "EOF when reading a line"
  /\ Forall (fun a => a <> "yes" /\ a <> "no") stdin.
Proof.
  induction stdin as [|line stdin IH]; simpl.
  - split; [by intros [= <-] | by intros [-> _]].
  - destruct (String.eqb_spec line "yes") as [->|Hyes]; simpl.
    { split; [done|]. intros [_ [[]]%Forall_cons]. done. }
    destruct (String.eqb_spec line "no") as [->|Hno]; simpl.
    { split; [done|]. intros [_ [[]]%Forall_cons]. done. }
    rewrite IH, Forall_cons. tauto.
Qed.


(** *** When a pass raises *)

Lemma existsb_flat_map {A B} (f : B -> bool) (g : A -> list B) (l : list A) :
  existsb f (flat_map g l) = existsb (fun x => existsb f (g x)) l.
Proof.
  induction l as [|x l IH]; [done|]. simpl. by rewrite existsb_app, IH.
Qed.

Lemma existsb_map {A B} (f : B -> bool) (g : A -> B) (l : list A) :
  existsb f (map g l) = existsb (fun x => f (g x)) l.
Proof. induction l as [|x l IH]; [done|]. simpl. by rewrite IH. Qed.

Lemma existsb_ext {A} (f g : A -> bool) (l : list A) :
  (forall x, f x = g x) -> existsb f l = existsb g l.
Proof.
  intros Hfg. induction l as [|x l IH]; [done|]. simpl. by rewrite Hfg, IH.
Qed.

Lemma existsb_alter {A} (f : A -> bool) (g : A -> A) (i : nat) (l : list A) :
  (forall x, f (g x) = f x) -> existsb f (alter g i l) = existsb f l.
Proof.
  intros Hg. revert i. induction l as [|x l IH]; intros [|i]; simpl; try done.
  - by rewrite Hg.
  - f_equal. apply IH.
Qed.

Section Raises.

Variable on_paragraph : Paragraph -> Paragraph.
Variable raises : Paragraph -> option exn.
Variable e0 : exn.

(** The treatment does not change what a paragraph raises, and there is
    one exception to raise. *)
Hypothesis raises_kept :
  forall paragraph, raises (on_paragraph paragraph) = raises paragraph.
Hypothesis raises_same :
  forall paragraph e, raises paragraph = Some e -> e = e0.

Local Abbreviation raising := (Style.raising raises).
Local Abbreviation shape_raises := (Style.shape_raises raises).
Local Abbreviation status :=
  (fun (tree : Shape) (q : ref) =>
     from_option shape_raises false (deref tree q)).

Lemma first_raise_cases (ps : list Paragraph) :
  first_raise raises ps = if existsb raising ps then Some e0 else None.
Proof.
  induction ps as [|paragraph ps IH]; [done|]. simpl. unfold Style.raising at 1.
  destruct (raises paragraph) as [e|] eqn:He; simpl.
  - by rewrite (raises_same _ _ He).
  - exact IH.
Qed.

Lemma raising_kept (paragraph : Paragraph) :
  raising (on_paragraph paragraph) = raising paragraph.
Proof. unfold Style.raising. by rewrite raises_kept. Qed.

Lemma existsb_raising_kept (ps : list Paragraph) :
  existsb raising (map on_paragraph ps) = existsb raising ps.
Proof.
  rewrite existsb_map. apply existsb_ext. intros p. apply raising_kept.
Qed.

Lemma cell_paragraphs_on (t : Table) :
  cell_paragraphs (on_table on_paragraph t)
  = map on_paragraph (cell_paragraphs t).
Proof.
  unfold cell_paragraphs. simpl. rewrite flat_map_map, map_flat_map.
  apply flat_map_ext. intros row. simpl.
  rewrite flat_map_map, map_flat_map. done.
Qed.

Lemma shape_raises_write_text_frame (s : Shape) :
  shape_raises (write_text_frame on_paragraph s) = shape_raises s.
Proof.
  destruct s as [n [tf|] tb ty ss]; [|done].
  unfold Style.shape_raises. simpl. apply existsb_raising_kept.
Qed.

Lemma shape_raises_write_table (s : Shape) :
  shape_raises (write_table on_paragraph s) = shape_raises s.
Proof.
  destruct s as [n [tf|] [t|] ty ss]; try done.
  unfold Style.shape_raises. simpl.
  rewrite cell_paragraphs_on. apply existsb_raising_kept.
Qed.

Lemma shape_raises_set_shapes (s : Shape) (ss : list Shape) :
  existsb shape_raises ss = existsb shape_raises (shapes s) ->
  shape_raises (set_shapes s ss) = shape_raises s.
Proof.
  destruct s as [n [tf|] [t|] ty ss0]; try done.
  unfold Style.shape_raises. simpl. destruct (ty =? 6); [|done].
  by rewrite !existsb_flat_map.
Qed.

Lemma shape_raises_mutate (g : Shape -> Shape) (tree : Shape) (p : ref) :
  (forall s, shape_raises (g s) = shape_raises s) ->
  shape_raises (mutate g tree p) = shape_raises tree.
Proof.
  intros Hg. revert tree. induction p as [|i p IH]; intros tree; simpl.
  - apply Hg.
  - apply shape_raises_set_shapes. apply existsb_alter. intros c. apply IH.
Qed.

Lemma status_mutate (g : Shape -> Shape) (tree : Shape) (p q : ref) :
  (forall s, shape_raises (g s) = shape_raises s) ->
  (forall s, shapes (g s) = shapes s) ->
  status (mutate g tree p) q = status tree q.
Proof.
  intros Hg Hshapes. revert tree p.
  induction q as [|j q IH]; intros tree p.
  - simpl. by apply shape_raises_mutate.
  - destruct p as [|i p]; simpl.
    + by rewrite Hshapes.
    + destruct tree as [n tf tb ty ss]. simpl.
      destruct (decide (i = j)) as [->|Hne].
      * rewrite list_lookup_alter_eq.
        destruct (ss !! j) as [c|]; simpl; [apply IH | done].
      * by rewrite list_lookup_alter_ne.
Qed.

Lemma status_members (tree shape : Shape) (p : ref) :
  deref tree p = Some shape ->
  existsb (status tree) (members p shape) = existsb shape_raises (shapes shape).
Proof.
  intros Hp. unfold members. rewrite existsb_map.
  transitivity (existsb (fun i => from_option shape_raises false
                                    (shapes shape !! i))
                        (seq 0 (length (shapes shape)))).
  - apply existsb_ext. intros i. rewrite deref_app, Hp. simpl.
    by destruct (shapes shape !! i).
  - generalize (shapes shape) as l. clear. intros l.
    induction l as [|x l IH]; [done|]. simpl. f_equal.
    rewrite <- seq_shift, existsb_map. exact IH.
Qed.

(** With as many turns as there is work, the loop raises when some
    paragraph it is to come to raises, and else is [while_loop]. *)
Lemma while_loop_checked_cases (fuel : nat) (st : Shape * list ref) :
  (work st <= fuel)%nat ->
  while_loop_checked on_paragraph raises fuel st
  = if existsb (status st.1) st.2 then Raise e0
    else Ok (while_loop on_paragraph fuel st).
Proof.
  revert st. induction fuel as [|fuel IH]; intros [tree stack] Hwork.
  - destruct stack as [|p stack]; [done|].
    unfold work in Hwork. simpl in Hwork.
    pose proof (weight_pos tree p). lia.
  - destruct stack as [|p rest _] using rev_ind; [done|].
    rewrite work_snoc in Hwork. pose proof (weight_pos tree p) as Hpos.
    simpl. unfold turn_raises, step. rewrite pop_snoc.
    rewrite existsb_app. simpl. rewrite orb_false_r.
    destruct (deref tree p) as [shape|] eqn:Hp; simpl.
    2:{ rewrite orb_false_r. rewrite IH by (simpl; lia). done. }
    destruct shape as [n tf tb ty ss].
    destruct tf as [tf|].
    { change (has_text_frame (mk_shape n (Some tf) tb ty ss)) with true.
      simpl. rewrite first_raise_cases.
      unfold Style.shape_raises at 2. simpl.
      destruct (existsb raising (paragraphs tf)).
      { by rewrite orb_true_r. }
      rewrite orb_false_r. rewrite IH.
      - simpl. erewrite existsb_ext; [done|]. intros q.
        apply status_mutate; [apply shape_raises_write_text_frame | by intros []].
      - rewrite work_mutate by (by intros []). lia. }
    change (has_text_frame (mk_shape n None tb ty ss)) with false.
    destruct tb as [t|].
    { change (has_table (mk_shape n None (Some t) ty ss)) with true.
      simpl. rewrite first_raise_cases.
      unfold Style.shape_raises at 2. simpl.
      destruct (existsb raising (cell_paragraphs t)).
      { by rewrite orb_true_r. }
      rewrite orb_false_r. rewrite IH.
      - simpl. erewrite existsb_ext; [done|]. intros q.
        apply status_mutate; [apply shape_raises_write_table | by intros []].
      - rewrite work_mutate by (by intros []). lia. }
    change (has_table (mk_shape n None None ty ss)) with false.
    simpl. unfold Style.shape_raises at 2. simpl.
    destruct (ty =? 6) eqn:Hty.
    + rewrite IH.
      * simpl. rewrite existsb_app.
        rewrite (status_members tree _ p Hp). simpl.
        by rewrite existsb_flat_map.
      * rewrite work_app.
        pose proof (work_members tree _ p Hp) as Hm.
        unfold weight in Hwork. rewrite Hp in Hwork. simpl in *. lia.
    + rewrite orb_false_r. rewrite IH by (simpl; lia). done.
Qed.

Lemma process_slide_checked_cases (slide : Slide) :
  process_slide_checked on_paragraph raises slide
  = if existsb shape_raises (slide_shapes slide) then Raise e0
    else Ok (process_slide on_paragraph slide).
Proof.
  unfold process_slide_checked, process_slide.
  rewrite while_loop_checked_cases.
  - simpl. rewrite (status_members (slide_tree slide) (slide_tree slide) [])
      by done.
    simpl. by destruct (existsb shape_raises (slide_shapes slide)).
  - rewrite <- (work_members (slide_tree slide) (slide_tree slide) []) by done.
    lia.
Qed.

Lemma for_slides_cases (presentation : Presentation) :
  for_slides on_paragraph raises presentation
  = if presentation_raises raises presentation then Raise e0
    else Ok (map (process_slide on_paragraph) presentation).
Proof.
  unfold for_slides, presentation_raises.
  induction presentation as [|slide presentation IH]; [done|]. simpl.
  rewrite process_slide_checked_cases.
  destruct (existsb shape_raises (slide_shapes slide)); [done|]. simpl.
  rewrite IH. by destruct (existsb _ presentation).
Qed.

End Raises.


(** On the shapes python-pptx hands out the loop comes to every
    paragraph. *)
Lemma reached_paragraphs_wf (s : Shape) :
  well_formed s = true -> reached_paragraphs s = shape_paragraphs s.
Proof.
  induction s as [n tf tb ty ss IH] using Shape_ind'. intros Hwf.
  destruct tf as [tf|], tb as [tb|], ss as [|c ss]; try done; simpl in *.
  - by rewrite !app_nil_r.
  - by rewrite !app_nil_r.
  - by destruct (ty =? 6).
  - apply andb_true_iff in Hwf as [-> Hwf].
    apply andb_true_iff in Hwf as [Hc Hss]. simpl.
    apply Forall_cons in IH as [IHc IHss]. rewrite (IHc Hc). f_equal.
    clear IHc Hc. induction ss as [|d ss IHd]; [done|]. simpl in *.
    apply andb_true_iff in Hss as [Hd Hss].
    apply Forall_cons in IHss as [IH1 IH2].
    rewrite (IH1 Hd). f_equal. by apply IHd.
Qed.

Lemma presentation_raises_wf (raises : Paragraph -> option exn)
    (presentation : Presentation) :
  well_formed_presentation presentation = true ->
  presentation_raises raises presentation
  = existsb (raising raises) (presentation_paragraphs presentation).
Proof.
  unfold presentation_raises, presentation_paragraphs,
    well_formed_presentation.
  intros Hwf. rewrite existsb_flat_map.
  induction presentation as [|[ss] presentation IH]; [done|]. simpl in *.
  apply andb_true_iff in Hwf as [Hslide Hrest]. rewrite IH by done.
  f_equal. clear IH Hrest. rewrite existsb_flat_map.
  induction ss as [|c ss IHc]; [done|]. simpl in *.
  apply andb_true_iff in Hslide as [Hc Hss]. rewrite IHc by done.
  f_equal. unfold shape_raises. by rewrite reached_paragraphs_wf.
Qed.

(** A pass does to the paragraphs the loop comes to what it does to a
    paragraph. *)
Lemma reached_paragraphs_restyle (g : Paragraph -> Paragraph) (s : Shape) :
  reached_paragraphs (restyle g s) = map g (reached_paragraphs s).
Proof.
  induction s as [n tf tb ty ss IH] using Shape_ind'.
  destruct tf as [tf|]; [done|]. destruct tb as [t|]; simpl.
  { apply cell_paragraphs_on. }
  destruct (ty =? 6) eqn:Hty; simpl; rewrite Hty; [|done].
  rewrite flat_map_map, map_flat_map.
  induction IH as [|c ss Hc _ IHss]; [done|]. simpl. by rewrite Hc, IHss.
Qed.

Lemma presentation_raises_pass (raises : Paragraph -> option exn)
    (g : Paragraph -> Paragraph) (presentation : Presentation) :
  (forall paragraph, raises (g paragraph) = raises paragraph) ->
  presentation_raises raises (map (process_slide g) presentation)
  = presentation_raises raises presentation.
Proof.
  intros Hg. unfold presentation_raises. rewrite existsb_map.
  apply existsb_ext. intros slide. rewrite process_slide_restyle. simpl.
  rewrite existsb_map. apply existsb_ext. intros s. unfold shape_raises.
  rewrite reached_paragraphs_restyle, existsb_map.
  apply existsb_ext. intros p. unfold raising. by rewrite Hg.
Qed.

(** The runs of a presentation are those of its paragraphs. *)
Lemma shape_runs_paragraphs (s : Shape) :
  shape_runs s = flat_map runs (shape_paragraphs s).
Proof.
  induction s as [n tf tb ty ss IH] using Shape_ind'. simpl.
  rewrite !flat_map_app. f_equal; [by destruct tf|]. f_equal.
  - destruct tb as [t|]; [|done]. simpl. unfold table_runs, table_paragraphs.
    rewrite ContractProps.flat_map_flat_map. apply flat_map_ext. intros row.
    by rewrite ContractProps.flat_map_flat_map.
  - rewrite ContractProps.flat_map_flat_map.
    induction IH as [|c ss Hc _ IHss]; [done|]. simpl. by rewrite Hc, IHss.
Qed.

Lemma presentation_runs_paragraphs (presentation : Presentation) :
  presentation_runs presentation
  = flat_map runs (presentation_paragraphs presentation).
Proof.
  unfold presentation_runs, presentation_paragraphs.
  rewrite ContractProps.flat_map_flat_map. apply flat_map_ext. intros slide.
  rewrite ContractProps.flat_map_flat_map. apply flat_map_ext. intros s.
  apply shape_runs_paragraphs.
Qed.

(** *** The values the assignments take *)

Lemma font_size_error_None (font_size : Z) :
  font_size_error font_size = None <-> 1 <= font_size <= 4000.
Proof.
  unfold font_size_error, Pt.
  replace (font_size * 12700) with (font_size * 100 * 127) by lia.
  rewrite Z.div_mul by lia.
  destruct (Z.leb_spec 100 (font_size * 100)),
    (Z.leb_spec (font_size * 100) 400000); simpl; split; try done; lia.
Qed.

Lemma font_raises_kept (font_name : string) (font_size spacing_size : Z)
    (change change' : bool) (paragraph : Paragraph) :
  font_raises font_size change
    (font_paragraph font_name font_size spacing_size change' paragraph)
  = font_raises font_size change paragraph.
Proof. unfold font_raises. simpl. by destruct (runs paragraph). Qed.

Lemma font_raises_same (font_size : Z) (change : bool) (paragraph : Paragraph)
    (e : exn) :
  font_raises font_size change paragraph = Some e ->
  font_size_error font_size = Some e.
Proof.
  unfold font_raises. destruct (runs paragraph); [done|]. by destruct change.
Qed.

(** Some paragraph raises in the pass over fonts when the size is to be
    changed, is out of range, and there is a run. *)
Lemma raising_font_raises (font_size : Z) (change : bool) (p : Paragraph) :
  raising (font_raises font_size change) p = true
  <-> change = true /\ font_size_error font_size <> None /\ runs p <> [].
Proof.
  unfold raising. rewrite bool_decide_eq_true. unfold font_raises.
  destruct (runs p) as [|r rs].
  { split; [by intros [? [=]] | by intros (_ & _ & ?)]. }
  destruct change.
  2:{ split; [by intros [? [=]] | by intros ([=] & _)]. }
  destruct (font_size_error font_size) as [e|].
  - split; [done | eauto].
  - split; [by intros [? [=]] | by intros (_ & ? & _)].
Qed.

Lemma existsb_font_raises (font_size : Z) (change : bool)
    (ps : list Paragraph) :
  existsb (raising (font_raises font_size change)) ps = true
  <-> change = true /\ font_size_error font_size <> None
      /\ flat_map runs ps <> [].
Proof.
  induction ps as [|p ps IH]; simpl.
  - split; [done | by intros (_ & _ & ?)].
  - rewrite orb_true_iff, IH, raising_font_raises. split.
    + intros [(? & ? & ?)|(? & ? & ?)]; repeat split; try done;
        intros [? ?]%app_eq_nil; done.
    + intros (Hc & Hf & Hne). destruct (runs p) as [|r rs]; [right|left];
        done.
Qed.

(** The pass over fonts, once the prompt is answered. *)
Lemma font_pass_cases (presentation : Presentation) (font_name : string)
    (font_size spacing_size : Z) (change : bool) :
  for_slides (font_paragraph font_name font_size spacing_size change)
    (font_raises font_size change) presentation
  = if presentation_raises (font_raises font_size change) presentation
    then Raise (default (mk_exn ValueError "") (font_size_error font_size))
    else Ok (map (process_slide
                    (font_paragraph font_name font_size spacing_size change))
                 presentation).
Proof.
  apply for_slides_cases.
  - intros p. apply font_raises_kept.
  - intros p e He. apply font_raises_same in He. by rewrite He.
Qed.

(** The pass over line spacing. *)
Lemma spacing_pass_cases (stored : Q -> Q) (presentation : Presentation)
    (line_spacing_value : Q) :
  modify_presentation_spacing stored presentation line_spacing_value
  = if presentation_raises (fun _ => line_spacing_error line_spacing_value)
         presentation
    then Raise (default (mk_exn ValueError "")
                  (line_spacing_error line_spacing_value))
    else Ok (map (process_slide
                    (spacing_paragraph (stored line_spacing_value)))
                 presentation).
Proof.
  apply for_slides_cases; [done|]. by intros _ e ->.
Qed.

Lemma existsb_never {A} (f : A -> bool) (l : list A) :
  (forall x, f x = false) -> existsb f l = false.
Proof.
  intros Hf. induction l as [|x l IH]; [done|]. simpl. by rewrite Hf, IH.
Qed.

Lemma spacing_raises_valid (presentation : Presentation)
    (line_spacing_value : Q) :
  (0 <= line_spacing_value)%Q -> (line_spacing_value <= 132)%Q ->
  presentation_raises (fun _ => line_spacing_error line_spacing_value)
    presentation = false.
Proof.
  intros H0 H132.
  assert (Hnone : line_spacing_error line_spacing_value = None)
    by (by apply line_spacing_error_None).
  apply existsb_never. intros slide.
  apply existsb_never. intros s.
  apply existsb_never. intros p. unfold raising. by rewrite Hnone.
Qed.


(** [modify_presentation_font] gives every run the font name asked
    for and leaves the text as it is: the runs are as many as before, in
    the same order, each with the text it had, and every paragraph keeps
    its line spacing. *)
Theorem modify_presentation_font_keeps_text
    (presentation presentation' : Presentation) (font_name : string)
    (font_size spacing_size : Z) (stdin : list string) :
  well_formed_presentation presentation = true ->
  modify_presentation_font presentation font_name font_size spacing_size stdin
  = Ok presentation' ->
  Forall (fun run => name (font run) = Some font_name)
    (presentation_runs presentation')
  /\ map text (presentation_runs presentation')
     = map text (presentation_runs presentation)
  /\ map line_spacing (presentation_paragraphs presentation')
     = map line_spacing (presentation_paragraphs presentation).
Proof.
  intros Hwf H.
  apply modify_presentation_font_Ok in H as (change & _ & ->).
  rewrite (presentation_runs_restyle _ _
             (set_run_font_runs font_name font_size spacing_size change)
             presentation Hwf).
  rewrite presentation_paragraphs_restyle by done. repeat split.
  - apply Forall_forall. intros r (q & -> & _)%list_elem_of_fmap. done.
  - by rewrite map_map.
  - by rewrite map_map.
Qed.



Import StyleExamples.


(** On [demo], the prompt answered "yes". *)
Lemma modify_presentation_font_keeps_text_witness :
  Forall (fun run => name (font run) = Some "Braille")
    (presentation_runs [demo_slide (braille (Some (Pt 14)))])
  /\ map text (presentation_runs [demo_slide (braille (Some (Pt 14)))])
     = map text (presentation_runs demo)
  /\ map line_spacing
       (presentation_paragraphs [demo_slide (braille (Some (Pt 14)))])
     = map line_spacing (presentation_paragraphs demo).
Proof.
  apply (modify_presentation_font_keeps_text demo
           [demo_slide (braille (Some (Pt 14)))] "Braille" 14 50 ["yes"]).
  - reflexivity.
  - reflexivity.
Defined.



End TextProps.

Module InterleaveProps.
Import Interleave.

Section Pages.

Variable Page : Type.

Local Abbreviation interleave_pages := (Interleave.interleave_pages Page).
Local Abbreviation weave := (Interleave.weave Page).

(** The turn of the loop for index [i]. *)
Local Abbreviation turn := (fun (pdf1 pdf2 : list Page) (i : nat) =>
  (if (i <? length pdf1)%nat then option_list (pdf1 !! i) else [])
  ++ (if (i <? length pdf2)%nat then option_list (pdf2 !! i) else [])).

Lemma turns_shift (p q : Page) (pdf1 pdf2 : list Page) (n : nat) :
  flat_map (turn (p :: pdf1) (q :: pdf2)) (seq 1 n)
  = flat_map (turn pdf1 pdf2) (seq 0 n).
Proof.
  rewrite <- seq_shift, flat_map_concat_map, map_map, <- flat_map_concat_map.
  done.
Qed.

Lemma turns_left (pdf1 : list Page) (k : nat) :
  flat_map (turn pdf1 []) (seq k (length pdf1 - k)) = drop k pdf1.
Proof.
  remember (length pdf1 - k)%nat as n eqn:Hn. revert k Hn.
  induction n as [|n IH]; intros k Hn; simpl.
  - rewrite drop_ge by lia. done.
  - assert (Hk : (k < length pdf1)%nat) by lia.
    destruct (lookup_lt_is_Some_2 pdf1 k Hk) as [x Hx].
    rewrite (drop_S _ x) by done. apply Nat.ltb_lt in Hk. rewrite Hk, Hx.
    simpl. f_equal. apply IH. lia.
Qed.

Lemma turns_right (pdf2 : list Page) (k : nat) :
  flat_map (turn [] pdf2) (seq k (length pdf2 - k)) = drop k pdf2.
Proof.
  remember (length pdf2 - k)%nat as n eqn:Hn. revert k Hn.
  induction n as [|n IH]; intros k Hn; simpl.
  - rewrite drop_ge by lia. done.
  - assert (Hk : (k < length pdf2)%nat) by lia.
    destruct (lookup_lt_is_Some_2 pdf2 k Hk) as [x Hx].
    rewrite (drop_S _ x) by done. apply Nat.ltb_lt in Hk. rewrite Hk, Hx.
    simpl. f_equal. apply IH. lia.
Qed.

(** The loop over the indices takes a page of each document in turn. *)
Lemma interleave_pages_weave (pdf1 pdf2 : list Page) :
  interleave_pages pdf1 pdf2 = weave pdf1 pdf2.
Proof.
  unfold Interleave.interleave_pages. revert pdf2.
  induction pdf1 as [|p pdf1 IH]; intros pdf2.
  - pose proof (turns_right pdf2 0) as H. rewrite Nat.sub_0_r in H. exact H.
  - destruct pdf2 as [|q pdf2].
    + pose proof (turns_left (p :: pdf1) 0) as H.
      rewrite Nat.sub_0_r in H. rewrite Nat.max_0_r. exact H.
    + change (Nat.max (length (p :: pdf1)) (length (q :: pdf2)))
        with (S (Nat.max (length pdf1) (length pdf2))).
      rewrite <- cons_seq.
      change (flat_map ?f (0%nat :: ?l)) with (f 0%nat ++ flat_map f l).
      rewrite turns_shift, IH. done.
Qed.

Lemma weave_length (pdf1 pdf2 : list Page) :
  length (weave pdf1 pdf2) = (length pdf1 + length pdf2)%nat.
Proof.
  revert pdf2. induction pdf1 as [|p pdf1 IH]; intros [|q pdf2]; simpl;
    try rewrite IH; lia.
Qed.

Lemma weave_perm (pdf1 pdf2 : list Page) : weave pdf1 pdf2 ≡ₚ pdf1 ++ pdf2.
Proof.
  revert pdf2. induction pdf1 as [|p pdf1 IH]; intros [|q pdf2]; simpl;
    try done.
  - by rewrite app_nil_r.
  - rewrite IH. constructor. by rewrite Permutation_middle.
Qed.

Lemma weave_sublist_l (pdf1 pdf2 : list Page) :
  pdf1 `sublist_of` weave pdf1 pdf2.
Proof.
  revert pdf2. induction pdf1 as [|p pdf1 IH]; intros [|q pdf2]; simpl;
    try done.
  - apply sublist_nil_l.
  - constructor. by constructor.
Qed.

Lemma weave_sublist_r (pdf1 pdf2 : list Page) :
  pdf2 `sublist_of` weave pdf1 pdf2.
Proof.
  revert pdf2. induction pdf1 as [|p pdf1 IH]; intros [|q pdf2]; simpl;
    try done.
  - apply sublist_nil_l.
  - apply sublist_cons. by constructor.
Qed.

Lemma weave_lookup (pdf1 pdf2 : list Page) (i : nat) :
  (i < length pdf1)%nat -> (i < length pdf2)%nat ->
  weave pdf1 pdf2 !! (2 * i)%nat = pdf1 !! i
  /\ weave pdf1 pdf2 !! (2 * i + 1)%nat = pdf2 !! i.
Proof.
  revert pdf1 pdf2.
  induction i as [|i IH]; intros [|p pdf1] [|q pdf2] H1 H2; simpl in *;
    try lia; [done|].
  replace (i + S (i + 0))%nat with (S (2 * i)) by lia.
  replace (i + S (i + 0) + 1)%nat with (S (2 * i + 1)) by lia.
  simpl. apply IH; lia.
Qed.

Lemma weave_drop (pdf1 pdf2 : list Page) :
  drop (2 * Nat.min (length pdf1) (length pdf2)) (weave pdf1 pdf2)
  = drop (Nat.min (length pdf1) (length pdf2)) pdf1
    ++ drop (Nat.min (length pdf1) (length pdf2)) pdf2.
Proof.
  revert pdf2. induction pdf1 as [|p pdf1 IH]; intros [|q pdf2]; simpl;
    try done.
  - by rewrite app_nil_r.
  - replace (Nat.min (length pdf1) (length pdf2)
             + S (Nat.min (length pdf1) (length pdf2) + 0))%nat
      with (S (2 * Nat.min (length pdf1) (length pdf2))) by lia.
    simpl. apply IH.
Qed.

End Pages.

(** The loop over the page indices takes a page of each document in
    turn, what is left of the longer following.  Every page of both
    documents is written exactly once: the pages written are a
    rearrangement of those of the first document followed by those of the
    second, as many as the two have together, and the pages of each
    document come in the order they had. *)
Theorem interleave_pages_keeps_every_page (Page : Type)
    (pdf1 pdf2 : list Page) :
  interleave_pages Page pdf1 pdf2 = weave Page pdf1 pdf2
  /\ interleave_pages Page pdf1 pdf2 ≡ₚ pdf1 ++ pdf2
  /\ length (interleave_pages Page pdf1 pdf2)
     = (length pdf1 + length pdf2)%nat
  /\ pdf1 `sublist_of` interleave_pages Page pdf1 pdf2
  /\ pdf2 `sublist_of` interleave_pages Page pdf1 pdf2.
Proof.
  rewrite interleave_pages_weave. split; [done|].
  auto using weave_perm, weave_length, weave_sublist_l, weave_sublist_r.
Qed.

(** As long as both documents have pages the pages written alternate:
    page [i] of the first document is written at position [2 i] and page
    [i] of the second at position [2 i + 1]; once the shorter document is
    used up, what is left of the longer follows as it is. *)
Theorem interleave_pages_alternates (Page : Type) (pdf1 pdf2 : list Page)
    (i : nat) :
  (i < length pdf1)%nat -> (i < length pdf2)%nat ->
  interleave_pages Page pdf1 pdf2 !! (2 * i)%nat = pdf1 !! i
  /\ interleave_pages Page pdf1 pdf2 !! (2 * i + 1)%nat = pdf2 !! i
  /\ drop (2 * Nat.min (length pdf1) (length pdf2))
          (interleave_pages Page pdf1 pdf2)
     = drop (Nat.min (length pdf1) (length pdf2)) pdf1
       ++ drop (Nat.min (length pdf1) (length pdf2)) pdf2.
Proof.
  intros H1 H2. rewrite interleave_pages_weave.
  destruct (weave_lookup Page pdf1 pdf2 i H1 H2) as [Ha Hb].
  auto using weave_drop.
Qed.

Import InterleaveExamples.

(** Three slides and two pages of notes: the second slide and its notes
    are the third and fourth page, and the third slide comes last. *)
Lemma interleave_pages_alternates_witness :
  interleave_pages string slides_pdf notes_pdf !! 2%nat = Some "slide 2"
  /\ interleave_pages string slides_pdf notes_pdf !! 3%nat = Some "notes 2"
  /\ drop 4 (interleave_pages string slides_pdf notes_pdf) = ["slide 3"].
Proof.
  apply (interleave_pages_alternates string slides_pdf notes_pdf 1);
    simpl; lia.
Defined.

End InterleaveProps.

(** ** main: the files it reads are the files it has had written *)

Module MainProps.
Import Py Paths Main Pdf.

Lemma append_cons (c : ascii) (s t : string) :
  String c s +:+ t = String c (s +:+ t).
Proof. done. Qed.

Lemma append_nil_l (t : string) : "" +:+ t = t.
Proof. done. Qed.

Lemma append_nil_r (s : string) : s +:+ "" = s.
Proof.
  induction s as [|c s IH]; [done|]. by rewrite append_cons, IH.
Qed.

Lemma append_assoc (s t u : string) : (s +:+ t) +:+ u = s +:+ (t +:+ u).
Proof.
  induction s as [|c s IH]; [done|]. by rewrite !append_cons, IH.
Qed.

Lemma rev_app_append (s acc : string) :
  String.rev_app s acc = String.rev s +:+ acc.
Proof.
  unfold String.rev. revert acc.
  induction s as [|c s IH]; intros acc; simpl; [done|].
  rewrite (IH (String c "")), IH, append_assoc. done.
Qed.

Lemma rev_cons (c : ascii) (s : string) :
  String.rev (String c s) = String.rev s +:+ String c "".
Proof. unfold String.rev. simpl. apply rev_app_append. Qed.

Lemma rev_append (s t : string) :
  String.rev (s +:+ t) = String.rev t +:+ String.rev s.
Proof.
  induction s as [|c s IH].
  - by rewrite append_nil_l, append_nil_r.
  - by rewrite append_cons, !rev_cons, IH, append_assoc.
Qed.

Lemma rev_rev (s : string) : String.rev (String.rev s) = s.
Proof.
  induction s as [|c s IH]; [done|].
  by rewrite rev_cons, rev_append, IH.
Qed.

Lemma substring_append (s t : string) :
  String.substring 0 (String.length s) (s +:+ t) = s.
Proof.
  induction s as [|c s IH]; [by destruct t|].
  rewrite append_cons. simpl. by rewrite IH.
Qed.

Lemma length_append (s t : string) :
  String.length (s +:+ t) = (String.length s + String.length t)%nat.
Proof.
  induction s as [|c s IH]; [done|]. rewrite append_cons. simpl. by rewrite IH.
Qed.

(** Taking [.pptx] off the end by position. *)
Lemma drop_last5_pptx (s : string) : drop_last5 (s +:+ ".pptx") = s.
Proof.
  unfold drop_last5. rewrite length_append. simpl.
  replace (String.length s + 5 - 5)%nat with (String.length s) by lia.
  apply substring_append.
Qed.

Lemma drop_last5_braille (s : string) :
  drop_last5 (s +:+ "_braille.pptx") = s +:+ "_braille".
Proof.
  change "_braille.pptx" with ("_braille" +:+ ".pptx").
  rewrite <- append_assoc. apply drop_last5_pptx.
Qed.

Lemma drop_last5_notes (s : string) :
  drop_last5 (s +:+ "_notes.pptx") = s +:+ "_notes".
Proof.
  change "_notes.pptx" with ("_notes" +:+ ".pptx").
  rewrite <- append_assoc. apply drop_last5_pptx.
Qed.

(** Taking the extension off a name that ends in a word and [.pptx]. *)
Lemma splitext_root_braille (s : string) :
  splitext_root (s +:+ "_braille.pptx") = s +:+ "_braille".
Proof.
  unfold splitext_root. rewrite rev_append.
  change (String.rev "_braille.pptx") with "xtpp.elliarb_".
  rewrite !append_cons, append_nil_l. simpl.
  rewrite <- (append_nil_l (String.rev s)), <- !append_cons.
  rewrite rev_append, rev_rev. done.
Qed.

Lemma splitext_root_notes (s : string) :
  splitext_root (s +:+ "_notes.pptx") = s +:+ "_notes".
Proof.
  unfold splitext_root. rewrite rev_append.
  change (String.rev "_notes.pptx") with "xtpp.seton_".
  rewrite !append_cons, append_nil_l. simpl.
  rewrite <- (append_nil_l (String.rev s)), <- !append_cons.
  rewrite rev_append, rev_rev. done.
Qed.

Lemma rsplit_dot_pptx (s : string) : rsplit_dot (s +:+ ".pptx") = s.
Proof.
  unfold rsplit_dot. rewrite rev_append.
  change (String.rev ".pptx") with "xtpp.".
  rewrite !append_cons, append_nil_l. simpl. apply rev_rev.
Qed.

Lemma splitext_root_pptx (s : string) :
  has_name (String.rev s) = true -> splitext_root (s +:+ ".pptx") = s.
Proof.
  intros H. unfold splitext_root. rewrite rev_append.
  change (String.rev ".pptx") with "xtpp.".
  rewrite !append_cons, append_nil_l. simpl. by rewrite H, rev_rev.
Qed.

(** The file names of [main].  For an argument [<stem>.pptx] whose last
    component is a name, the cleaned copy is [<stem>_cleaned_images.pptx],
    the notes are [<stem>_notes.pptx], the restyled presentation is
    [<stem>_braille.pptx], and the result is
    [<stem>_braille_with_notes.pdf].  Whatever the argument, the two PDF
    files handed to [interleave_pdfs] are the files the two calls of
    [convert_pptx_to_pdf] report as saved, although [main] finds their
    names by cutting five characters off where [convert_pptx_to_pdf]
    splits off the extension.  For an argument without extension in a
    directory with a dot in its name, such as [v1.2/deck], the cleaned
    copy and the notes are named after the directory, cut at its dot. *)
Theorem main_reads_what_it_had_written (argv1 : string) :
  (exists new_filename notes_filename braille_filename interleaved_filename,
     main argv1
     = [clean_pptx_call argv1 new_filename;
        print_call notes_filename;
        create_notes_slides_call new_filename notes_filename;
        Presentation_call new_filename;
        modify_presentation_spacing_call 1.2;
        save_call braille_filename;
        convert_pptx_to_pdf_call braille_filename;
        Presentation_call notes_filename;
        save_call notes_filename;
        convert_pptx_to_pdf_call notes_filename;
        interleave_pdfs_call (output_pdf braille_filename)
          (output_pdf notes_filename) interleaved_filename]
     /\ forall stem,
          argv1 = stem +:+ ".pptx" -> has_name (String.rev stem) = true ->
          new_filename = stem +:+ "_cleaned_images.pptx"
          /\ notes_filename = stem +:+ "_notes.pptx"
          /\ braille_filename = stem +:+ "_braille.pptx"
          /\ interleaved_filename = stem +:+ "_braille_with_notes.pdf")
  /\ (forall path_exists dirname subprocess_run pptx_file status,
        path_exists pptx_file = true ->
        subprocess_run (libreoffice dirname pptx_file (output_pdf pptx_file))
        = Ok status ->
        convert_pptx_to_pdf path_exists splitext_root dirname subprocess_run
          pptx_file
        = (["File converted successfully. Saved as " +:+ output_pdf pptx_file
            +:+ "."], Ok tt))
  /\ main "v1.2/deck"
     = [clean_pptx_call "v1.2/deck" "v1_cleaned_images.pptx";
        print_call "v1_notes.pptx";
        create_notes_slides_call "v1_cleaned_images.pptx" "v1_notes.pptx";
        Presentation_call "v1_cleaned_images.pptx";
        modify_presentation_spacing_call 1.2;
        save_call "v1.2/deck_braille.pptx";
        convert_pptx_to_pdf_call "v1.2/deck_braille.pptx";
        Presentation_call "v1_notes.pptx";
        save_call "v1_notes.pptx";
        convert_pptx_to_pdf_call "v1_notes.pptx";
        interleave_pdfs_call "v1.2/deck_braille.pdf" "v1_notes.pdf"
          "v1.2/deck_braille_with_notes.pdf"].
Proof.
  split; [|split; [|reflexivity]].
  - exists (rsplit_dot argv1 +:+ "_cleaned_images.pptx"),
      (rsplit_dot argv1 +:+ "_notes.pptx"),
      (splitext_root argv1 +:+ "_braille.pptx"),
      (splitext_root (splitext_root argv1 +:+ "_braille.pptx")
       +:+ "_with_notes.pdf").
    split.
    + unfold main, output_pdf.
      rewrite splitext_root_braille, splitext_root_notes.
      rewrite drop_last5_braille, drop_last5_notes. reflexivity.
    + intros stem -> Hname.
      rewrite splitext_root_braille.
      rewrite rsplit_dot_pptx, (splitext_root_pptx _ Hname).
      rewrite !append_assoc. done.
  - intros path_exists dirname subprocess_run pptx_file status Hex Hrun.
    unfold convert_pptx_to_pdf. rewrite Hex. simpl.
    unfold output_pdf in Hrun. by rewrite Hrun.
Qed.

(** On [talks/deck.pptx]. *)
Lemma main_reads_what_it_had_written_witness :
  exists new_filename notes_filename braille_filename interleaved_filename,
    main "talks/deck.pptx"
    = [clean_pptx_call "talks/deck.pptx" new_filename;
       print_call notes_filename;
       create_notes_slides_call new_filename notes_filename;
       Presentation_call new_filename;
       modify_presentation_spacing_call 1.2;
       save_call braille_filename;
       convert_pptx_to_pdf_call braille_filename;
       Presentation_call notes_filename;
       save_call notes_filename;
       convert_pptx_to_pdf_call notes_filename;
       interleave_pdfs_call (output_pdf braille_filename)
         (output_pdf notes_filename) interleaved_filename]
    /\ new_filename = "talks/deck_cleaned_images.pptx"
    /\ notes_filename = "talks/deck_notes.pptx"
    /\ braille_filename = "talks/deck_braille.pptx"
    /\ interleaved_filename = "talks/deck_braille_with_notes.pdf".
Proof.
  destruct (proj1 (main_reads_what_it_had_written "talks/deck.pptx"))
    as (new_filename & notes_filename & braille_filename
        & interleaved_filename & Hmain & Hnames).
  exists new_filename, notes_filename, braille_filename, interleaved_filename.
  split; [exact Hmain|].
  apply (Hnames "talks/deck"); reflexivity.
Defined.

End MainProps.
